(** * ai-bookmark-manager: the bookmark enrichment pipeline of [src/index.tsx]

    A shallow embedding of the state handling of the [App] component: import
    with de-duplication ([parseBookmarksHTML]), the batched enrichment run
    ([processUnprocessedBookmarks]), [deleteBookmark], and the two derived
    views ([categories], [filteredBookmarks]).

    Conventions.
    - A JavaScript string is the [string] of its UTF-8 bytes (text with an
      unpaired surrogate has no such form and is not covered).  Equality and
      [includes] are the same on bytes and on code units; the order used by
      [sort] is the code-unit order ([JS.string_leb]).  The case tables of
      [String.prototype.toLowerCase] are the platform's: the function is an
      argument [toLowerCase] of the code that calls it.
    - An optional field ([description?], [category?], [tags?]) is an [option];
      [None] is [undefined].
    - React state is threaded explicitly through [App]; one [Event] is one
      turn of the event loop (a handler call, the [load] of a [FileReader],
      or the settling of the pending [await]).  A handler sees the state of
      the render it was created in: the [load] of a reader carries the
      catalog of the render in which its file was chosen.  [Browser] keeps
      the readers whose [load] is outstanding.
    - [Math.random] and [Date.now] are read from an [Env] supplied with the
      import; the classification service is an oracle whose answer arrives as
      a [ServiceOutcome]. *)

From Stdlib Require Import List String Ascii Bool Arith ZArith Lia.
From Stdlib Require Import Sorted Permutation OrderedTypeEx.
Import ListNotations.

Open Scope string_scope.
Open Scope list_scope.

(** ** JavaScript built-ins used by the component *)

Module JS.

(** [Array.prototype.slice(start, end)] for [0 <= start <= end]. *)
Definition slice {A : Type} (start finish : nat) (l : list A) : list A :=
  firstn (finish - start) (skipn start l).

(** [Array.prototype.map] with the element index made available. *)
Fixpoint mapi_from {A B : Type} (k : nat) (f : nat -> A -> B) (l : list A) : list B :=
  match l with
  | [] => []
  | x :: l' => f k x :: mapi_from (S k) f l'
  end.

Definition mapi {A B : Type} (f : nat -> A -> B) (l : list A) : list B :=
  mapi_from 0 f l.

(** [s.includes(q)]: [q] occurs in [s] as a contiguous substring. *)
Fixpoint includes (s q : string) : bool :=
  String.prefix q s ||
  match s with
  | EmptyString => false
  | String _ s' => includes s' q
  end.

(** [Set<string>]: iteration order is insertion order. *)
Definition StringSet := list string.

Definition Set_has (x : string) (s : StringSet) : bool :=
  existsb (String.eqb x) s.

Definition Set_add (x : string) (s : StringSet) : StringSet :=
  if Set_has x s then s else s ++ [x].

Definition Set_of (l : list string) : StringSet :=
  fold_left (fun s x => Set_add x s) l [].

(** [x < y] on strings compares UTF-16 code units.  On UTF-8 bytes the first
    byte that differs decides, as it does for code points, with one
    exception: a four-byte sequence (lead byte F0 and above) is a surrogate
    pair, whose first unit D800-DBFF is less than the units E000-FFFF of the
    three-byte sequences with lead byte EE or EF.  [utf16_rank] moves the
    lead bytes F0-FF below EE and EF and keeps every other byte. *)
Definition utf16_rank (c : ascii) : ascii :=
  let n := nat_of_ascii c in
  if (n <? 238)%nat then c
  else if (n <? 240)%nat then ascii_of_nat (n + 16)
  else ascii_of_nat (n - 2).

Fixpoint utf16_key (s : string) : string :=
  match s with
  | EmptyString => EmptyString
  | String c s' => String (utf16_rank c) (utf16_key s')
  end.

Definition string_leb (x y : string) : bool := String.leb (utf16_key x) (utf16_key y).
Definition string_ltb (x y : string) : bool := String.ltb (utf16_key x) (utf16_key y).

(** [Array.prototype.sort()] without a comparator on strings: ascending by
    code units. *)
Fixpoint sort_insert (x : string) (l : list string) : list string :=
  match l with
  | [] => [x]
  | y :: l' => if string_leb x y then x :: y :: l' else y :: sort_insert x l'
  end.

Fixpoint sort (l : list string) : list string :=
  match l with
  | [] => []
  | x :: l' => sort_insert x (sort l')
  end.

(** [Map<string, V>]: keys in insertion order; [set] on a key already
    present replaces the value in place. *)
Definition Map (V : Type) := list (string * V).

Fixpoint Map_set {V : Type} (k : string) (v : V) (m : Map V) : Map V :=
  match m with
  | [] => [(k, v)]
  | (k', v') :: m' =>
      if String.eqb k' k then (k, v) :: m' else (k', v') :: Map_set k v m'
  end.

Definition Map_of {V : Type} (entries : list (string * V)) : Map V :=
  fold_left (fun m kv => Map_set (fst kv) (snd kv) m) entries [].

Definition Map_values {V : Type} (m : Map V) : list V := map snd m.

End JS.

(** ** Types *)

(** [interface BookmarkItem]. *)
Record BookmarkItem := mkBookmark {
  id : string;
  title : string;
  url : string;
  description : option string;
  category : option string;
  tags : option (list string);
  processed : bool;
  addedAt : Z
}.

(** An [<a>] element of the parsed bookmark export. *)
Record Anchor := mkAnchor {
  textContent : string;
  href : string
}.

(** The values read by [generateId()] and [Date.now()] for the link at each
    index of one import. *)
Record Env := mkEnv {
  generateId : nat -> string;
  Date_now : nat -> Z
}.

(** One non-null element of [result.items], seen through the four properties
    the merge loop reads.  The request's [responseSchema] fixes the type of
    each property and requires none of them: a property is [None] when
    reading it gives [undefined] (for [url] also when it is not a string,
    which [===] never equates to an entry's url).  A category, description
    or tags of another type than the schema's is outside the model. *)
Record ItemFields := mkItem {
  r_url : option string;
  r_category : option string;
  r_description : option string;
  r_tags : option (list string)
}.

Inductive ItemValue :=
| ItemNull                       (* null: reading [.url] throws a TypeError *)
| ItemObject (o : ItemFields).   (* any other value *)

(** [result.items]. *)
Inductive ItemsValue :=
| ItemsNullish                   (* undefined or null: [?.] skips the call *)
| ItemsNotArray                  (* any other value without a [forEach] method *)
| ItemsArray (items : list ItemValue).

(** The value returned by [JSON.parse], seen through its [items] property. *)
Inductive ParsedValue :=
| ValueNull                      (* null: reading [.items] throws a TypeError *)
| ValueWith (items : ItemsValue).  (* any other value *)

(** [response.text], identified by what [JSON.parse] makes of it. *)
Inductive ResponseText :=
| NoText                         (* undefined or the empty string *)
| Malformed                      (* [JSON.parse] throws a SyntaxError *)
| Parses (v : ParsedValue).

(** How the awaited [ai.models.generateContent] call settles. *)
Inductive ServiceOutcome :=
| Rejected
| Resolved (text : ResponseText).

(** The service calls made and the alerts shown, oldest first. *)
Inductive Effect :=
| GenerateContent (batchInput : list (string * string))
| Alert.

(** The locals of a suspended [processUnprocessedBookmarks] call. *)
Record Run := mkRun {
  updatedBookmarksMap : JS.Map BookmarkItem;
  batch : list BookmarkItem;
  remaining : list (list BookmarkItem)
}.

Record App := mkApp {
  bookmarks : list BookmarkItem;
  isProcessing : bool;
  pending : option Run;
  effects : list Effect
}.

(** One turn of the event loop.  [Import seen links env] is the [load] of a
    [FileReader]: [links] are the anchors of the file, and [seen] is the
    [bookmarks] of the render in which the file was chosen, which the
    [onload] closure of [handleFileUpload] still holds. *)
Inductive Event :=
| Import (seen : list BookmarkItem) (links : list Anchor) (env : Env)
| Delete (i : string)
| ClickProcess
| ServiceSettles (o : ServiceOutcome).

(** ** [parseBookmarksHTML] *)

Definition IMPORT_LIMIT : nat := 50.

Definition newBookmarks (links : list Anchor) (env : Env) : list BookmarkItem :=
  JS.mapi
    (fun k link =>
       {| id := generateId env k;
          title := if textContent link =? "" then "Untitled" else textContent link;
          url := href link;
          description := None;
          category := None;
          tags := None;
          processed := false;
          addedAt := Date_now env k |})
    (JS.slice 0 IMPORT_LIMIT links).

Definition uniqueNewBookmarks
    (bookmarks : list BookmarkItem) (links : list Anchor) (env : Env) : list BookmarkItem :=
  let existingUrls := JS.Set_of (map url bookmarks) in
  filter (fun b => negb (JS.Set_has (url b) existingUrls)) (newBookmarks links env).

(** The result is the updater handed to [setBookmarks]; [bookmarks] is the
    catalog the handler closed over. *)
Definition parseBookmarksHTML
    (bookmarks : list BookmarkItem) (links : list Anchor) (env : Env)
    (prev : list BookmarkItem) : list BookmarkItem :=
  prev ++ uniqueNewBookmarks bookmarks links env.

(** ** [deleteBookmark] *)

Definition deleteBookmark (i : string) (prev : list BookmarkItem) : list BookmarkItem :=
  filter (fun b => negb (id b =? i)) prev.

(** ** [processUnprocessedBookmarks] *)

Definition BATCH_SIZE : nat := 10.

Definition unprocessed_of (bookmarks : list BookmarkItem) : list BookmarkItem :=
  filter (fun b => negb (processed b)) bookmarks.

(** The [for (let i = 0; i < unprocessed.length; i += BATCH_SIZE)] loop;
    [fuel] bounds the number of iterations. *)
Fixpoint batches_loop {A : Type} (fuel i : nat) (unprocessed : list A) : list (list A) :=
  match fuel with
  | 0 => []
  | S fuel' =>
      if (i <? List.length unprocessed)%nat
      then JS.slice i (i + BATCH_SIZE) unprocessed
             :: batches_loop fuel' (i + BATCH_SIZE) unprocessed
      else []
  end.

Definition make_batches {A : Type} (unprocessed : list A) : list (list A) :=
  batches_loop (List.length unprocessed) 0 unprocessed.

Definition batchInput (batch : list BookmarkItem) : list (string * string) :=
  map (fun b => (title b, url b)) batch.

(** [batch.find(b => b.url === processedItem.url)]. *)
Definition find_original (batch : list BookmarkItem) (u : option string) : option BookmarkItem :=
  match u with
  | None => None
  | Some u => find (fun b => url b =? u) batch
  end.

(** [{...original, processed: true, category, description, tags}]. *)
Definition enrich (original : BookmarkItem) (o : ItemFields) : BookmarkItem :=
  {| id := id original;
     title := title original;
     url := url original;
     description := r_description o;
     category := r_category o;
     tags := r_tags o;
     processed := true;
     addedAt := addedAt original |}.

(** The body of the [forEach] callback; [None] is a thrown TypeError. *)
Definition merge_item
    (batch : list BookmarkItem) (m : JS.Map BookmarkItem) (it : ItemValue)
  : option (JS.Map BookmarkItem) :=
  match it with
  | ItemNull => None
  | ItemObject o =>
      match find_original batch (r_url o) with
      | Some original => Some (JS.Map_set (id original) (enrich original o) m)
      | None => Some m
      end
  end.

Fixpoint merge_items
    (batch : list BookmarkItem) (m : JS.Map BookmarkItem) (items : list ItemValue)
  : option (JS.Map BookmarkItem) :=
  match items with
  | [] => Some m
  | it :: items' =>
      match merge_item batch m it with
      | Some m' => merge_items batch m' items'
      | None => None
      end
  end.

(** [JSON.parse(response.text || "{\"items\": []}")]; [None] is a thrown
    SyntaxError. *)
Definition JSON_parse_or_default (text : ResponseText) : option ParsedValue :=
  match text with
  | NoText => Some (ValueWith (ItemsArray []))
  | Malformed => None
  | Parses v => Some v
  end.

(** [result.items?.forEach(...)]. *)
Definition merge_result
    (batch : list BookmarkItem) (m : JS.Map BookmarkItem) (result : ParsedValue)
  : option (JS.Map BookmarkItem) :=
  match result with
  | ValueNull => None
  | ValueWith ItemsNullish => Some m
  | ValueWith ItemsNotArray => None
  | ValueWith (ItemsArray items) => merge_items batch m items
  end.

(** Everything inside the [try] between the [await] and [setBookmarks] for one
    batch; [None] means control passes to [catch]. *)
Definition merge_outcome
    (batch : list BookmarkItem) (m : JS.Map BookmarkItem) (o : ServiceOutcome)
  : option (JS.Map BookmarkItem) :=
  match o with
  | Rejected => None
  | Resolved text =>
      match JSON_parse_or_default text with
      | Some result => merge_result batch m result
      | None => None
      end
  end.

(** Entering the next iteration of [for (const batch of batches)], or leaving
    the loop through [finally]. *)
Definition next_batch
    (s : App) (m : JS.Map BookmarkItem) (batches : list (list BookmarkItem)) : App :=
  match batches with
  | [] =>
      {| bookmarks := bookmarks s; isProcessing := false;
         pending := None; effects := effects s |}
  | b :: batches' =>
      {| bookmarks := bookmarks s; isProcessing := isProcessing s;
         pending := Some {| updatedBookmarksMap := m; batch := b; remaining := batches' |};
         effects := effects s ++ [GenerateContent (batchInput b)] |}
  end.

(** The call up to its first [await]. *)
Definition processUnprocessedBookmarks (s : App) : App :=
  let unprocessed := unprocessed_of (bookmarks s) in
  if (List.length unprocessed =? 0)%nat then s
  else
    let batches := make_batches unprocessed in
    let m := JS.Map_of (map (fun b => (id b, b)) (bookmarks s)) in
    next_batch
      {| bookmarks := bookmarks s; isProcessing := true;
         pending := pending s; effects := effects s |}
      m batches.

(** The continuation after the [await]. *)
Definition resume (s : App) (r : Run) (o : ServiceOutcome) : App :=
  match merge_outcome (batch r) (updatedBookmarksMap r) o with
  | Some m =>
      next_batch
        {| bookmarks := JS.Map_values m; isProcessing := isProcessing s;
           pending := None; effects := effects s |}
        m (remaining r)
  | None =>
      {| bookmarks := bookmarks s; isProcessing := false;
         pending := None; effects := effects s ++ [Alert] |}
  end.

(** ** The event loop *)

Definition step (s : App) (e : Event) : App :=
  match e with
  | Import seen links env =>
      (* [setBookmarks(prev => ...)]: [prev] is the catalog at the load *)
      {| bookmarks := parseBookmarksHTML seen links env (bookmarks s);
         isProcessing := isProcessing s; pending := pending s; effects := effects s |}
  | Delete i =>
      {| bookmarks := deleteBookmark i (bookmarks s);
         isProcessing := isProcessing s; pending := pending s; effects := effects s |}
  | ClickProcess =>
      (* the button carries [disabled={isProcessing}] *)
      if isProcessing s then s else processUnprocessedBookmarks s
  | ServiceSettles o =>
      match pending s with
      | Some r => resume s r o
      | None => s
      end
  end.

Definition exec (s : App) (es : list Event) : App := fold_left step es s.

Definition start (catalog : list BookmarkItem) : App :=
  {| bookmarks := catalog; isProcessing := false; pending := None; effects := [] |}.

(** ** [handleFileUpload] and the outstanding readers *)

(** A [FileReader] whose [load] is outstanding: the anchors of its file, and
    the [bookmarks] that the [parseBookmarksHTML] of its [onload] closure
    reads. *)
Record Reader := mkReader {
  handler_bookmarks : list BookmarkItem;
  file_links : list Anchor
}.

Record Browser := mkBrowser {
  app : App;
  readers : list Reader
}.

(** The change event of the file input; [None]: no file was chosen. *)
Definition handleFileUpload (file : option (list Anchor)) (b : Browser) : Browser :=
  match file with
  | None => b
  | Some links =>
      {| app := app b;
         readers := readers b ++ [{| handler_bookmarks := bookmarks (app b);
                                      file_links := links |}] |}
  end.

Fixpoint remove_nth {A : Type} (k : nat) (l : list A) : list A :=
  match l, k with
  | [], _ => []
  | _ :: l', 0 => l'
  | x :: l', S k' => x :: remove_nth k' l'
  end.

(** What happens to the page.  [FileLoaded k env] is the [load] of the [k]-th
    outstanding reader; readers finish in any order. *)
Inductive Input :=
| FileChosen (file : option (list Anchor))
| FileLoaded (k : nat) (env : Env)
| DeleteClicked (i : string)
| ProcessClicked
| ServiceSettled (o : ServiceOutcome).

Definition turn (b : Browser) (i : Input) : Browser :=
  match i with
  | FileChosen file => handleFileUpload file b
  | FileLoaded k env =>
      match nth_error (readers b) k with
      | Some r =>
          {| app := step (app b) (Import (handler_bookmarks r) (file_links r) env);
             readers := remove_nth k (readers b) |}
      | None => b
      end
  | DeleteClicked i => {| app := step (app b) (Delete i); readers := readers b |}
  | ProcessClicked => {| app := step (app b) ClickProcess; readers := readers b |}
  | ServiceSettled o => {| app := step (app b) (ServiceSettles o); readers := readers b |}
  end.

Definition turns (b : Browser) (inputs : list Input) : Browser := fold_left turn inputs b.

(** The event of the component that an input amounts to, if any. *)
Definition event_of (b : Browser) (i : Input) : option Event :=
  match i with
  | FileChosen _ => None
  | FileLoaded k env =>
      match nth_error (readers b) k with
      | Some r => Some (Import (handler_bookmarks r) (file_links r) env)
      | None => None
      end
  | DeleteClicked i => Some (Delete i)
  | ProcessClicked => Some ClickProcess
  | ServiceSettled o => Some (ServiceSettles o)
  end.

Fixpoint events_of (b : Browser) (inputs : list Input) : list Event :=
  match inputs with
  | [] => []
  | i :: inputs' =>
      match event_of b i with
      | Some e => e :: events_of (turn b i) inputs'
      | None => events_of (turn b i) inputs'
      end
  end.

(** The page showing [catalog], nothing under way. *)
Definition opened (catalog : list BookmarkItem) : Browser :=
  {| app := start catalog; readers := [] |}.

Definition catalog_of (b : Browser) : list BookmarkItem := bookmarks (app b).

Definition is_call (e : Effect) : bool :=
  match e with GenerateContent _ => true | Alert => false end.

Definition is_alert (e : Effect) : bool :=
  match e with Alert => true | GenerateContent _ => false end.

Definition calls (s : App) : nat := List.length (filter is_call (effects s)).
Definition alerts (s : App) : nat := List.length (filter is_alert (effects s)).

(** ** Derived state *)

(** JavaScript truthiness of an optional string. *)
Definition truthy (v : option string) : bool :=
  match v with
  | Some s => negb (s =? "")
  | None => false
  end.

Definition collect_categories (bookmarks : list BookmarkItem) : JS.StringSet :=
  fold_left
    (fun cats b =>
       match category b with
       | Some c => if truthy (Some c) then JS.Set_add c cats else cats
       | None => cats
       end)
    bookmarks [].

Definition categories (bookmarks : list BookmarkItem) : list string :=
  "All" :: JS.sort (collect_categories bookmarks) ++ ["Uncategorized"].

(** [toLowerCase] is [String.prototype.toLowerCase]. *)
Definition matchesSearch
    (toLowerCase : string -> string) (searchQuery : string) (b : BookmarkItem) : bool :=
  let q := toLowerCase searchQuery in
  JS.includes (toLowerCase (title b)) q
  || match description b with
     | Some d => JS.includes (toLowerCase d) q
     | None => false
     end
  || match tags b with
     | Some ts => existsb (fun t => JS.includes (toLowerCase t) q) ts
     | None => false
     end.

Definition matchesCategory (filterCategory : string) (b : BookmarkItem) : bool :=
  if filterCategory =? "All" then true
  else if filterCategory =? "Uncategorized" then negb (truthy (category b))
  else match category b with
       | Some c => c =? filterCategory
       | None => false
       end.

Definition filteredBookmarks
    (toLowerCase : string -> string)
    (bookmarks : list BookmarkItem) (searchQuery filterCategory : string)
  : list BookmarkItem :=
  filter
    (fun b => matchesSearch toLowerCase searchQuery b && matchesCategory filterCategory b)
    bookmarks.

(** ** Vocabulary of the specification *)

(** [Subsequence k l]: [k] is [l] with some elements left out, the others in
    their order. *)
Inductive Subsequence {A : Type} : list A -> list A -> Prop :=
| Subsequence_nil : Subsequence [] []
| Subsequence_skip x k l : Subsequence k l -> Subsequence k (x :: l)
| Subsequence_keep x k l : Subsequence k l -> Subsequence (x :: k) (x :: l).

(** [Selection P r l]: [r] is [l] restricted to the elements satisfying [P],
    nothing else changed: the greatest subsequence of [l] inside [P]. *)
Definition Selection {A : Type} (P : A -> Prop) (r l : list A) : Prop :=
  Subsequence r l /\
  Forall P r /\
  forall k, Subsequence k l -> Forall P k -> Subsequence k r.

(** ceil(n / b). *)
Definition ceil_div (n b : nat) : nat := (n + b - 1) / b.

(** An entry has no category: the field is absent or empty. *)
Definition no_category (b : BookmarkItem) : Prop :=
  category b = None \/ category b = Some "".

(** The category values that label a facet. *)
Definition category_present (bookmarks : list BookmarkItem) (c : string) : Prop :=
  c <> "" /\ exists b, In b bookmarks /\ category b = Some c.

(** Strictly ascending in the code-unit order: case-sensitive, no repeats. *)
Definition ascending (l : list string) : Prop :=
  StronglySorted (fun a b => JS.string_ltb a b = true) l.

(** *** Letter case *)

(** ASCII text: every byte, hence every code unit, is below 128. *)
Fixpoint is_ascii (s : string) : bool :=
  match s with
  | EmptyString => true
  | String c s' => (nat_of_ascii c <? 128)%nat && is_ascii s'
  end.

(** Lowercase of ASCII text: the letters A-Z move to a-z, the rest stays. *)
Definition ascii_lower_char (c : ascii) : ascii :=
  let n := nat_of_ascii c in
  if (65 <=? n)%nat && (n <=? 90)%nat then ascii_of_nat (n + 32) else c.

Fixpoint ascii_lower (s : string) : string :=
  match s with
  | EmptyString => EmptyString
  | String c s' => String (ascii_lower_char c) (ascii_lower s')
  end.

(** What is used of [String.prototype.toLowerCase] beyond its being a
    function: on ASCII text it is [ascii_lower]. *)
Definition ascii_exact (toLowerCase : string -> string) : Prop :=
  forall s, is_ascii s = true -> toLowerCase s = ascii_lower s.

(** [l] is the lowercase letter of the capital [u]. *)
Definition case_pair (u l : ascii) : Prop :=
  (65 <= nat_of_ascii u <= 90)%nat /\ nat_of_ascii l = (nat_of_ascii u + 32)%nat.

(** The same character, or the same letter in the two cases. *)
Definition same_letter (c d : ascii) : Prop :=
  c = d \/ case_pair c d \/ case_pair d c.

(** Equal up to letter case, character by character. *)
Fixpoint same_text (s t : string) : Prop :=
  match s, t with
  | EmptyString, EmptyString => True
  | String c s', String d t' => same_letter c d /\ same_text s' t'
  | _, _ => False
  end.

(** [q] equals some substring of [s] up to letter case. *)
Definition ci_contained (q s : string) : Prop :=
  exists pre mid post : string,
    s = (pre ++ mid ++ post)%string /\ same_text mid q.

(** [q] is a substring of [s]. *)
Definition contained (q s : string) : Prop :=
  exists pre post : string, s = (pre ++ q ++ post)%string.

Definition facet_matches (facet : string) (b : BookmarkItem) : Prop :=
  facet = "All" \/
  (facet = "Uncategorized" /\ no_category b) \/
  (facet <> "All" /\ facet <> "Uncategorized" /\ category b = Some facet).

Definition query_matches (q : string) (b : BookmarkItem) : Prop :=
  q = "" \/
  ci_contained q (title b) \/
  (exists d, description b = Some d /\ ci_contained q d) \/
  (exists ts t, tags b = Some ts /\ In t ts /\ ci_contained q t).

(** The search as the code runs it: the lowercased query is a substring of
    a lowercased field. *)
Definition lowered_matches
    (toLowerCase : string -> string) (q : string) (b : BookmarkItem) : Prop :=
  contained (toLowerCase q) (toLowerCase (title b)) \/
  (exists d, description b = Some d /\ contained (toLowerCase q) (toLowerCase d)) \/
  (exists ts t, tags b = Some ts /\ In t ts /\
                contained (toLowerCase q) (toLowerCase t)).

(** Title, description and tags are ASCII text. *)
Definition ascii_entry (b : BookmarkItem) : Prop :=
  is_ascii (title b) = true /\
  (forall d, description b = Some d -> is_ascii d = true) /\
  (forall ts t, tags b = Some ts -> In t ts -> is_ascii t = true).

(** [String.prototype.toLowerCase] at the two texts of the final-sigma
    example: the capital sigma that ends a word becomes U+03C2, a capital
    sigma on its own U+03C3.  Elsewhere the function is only used on ASCII
    text. *)
Definition final_sigma_lower (s : string) : string :=
  if s =? "ΟΔΟΣ" then "οδος"
  else if s =? "Σ" then "σ"
  else ascii_lower s.

(** The urls an import offers: those of the first [IMPORT_LIMIT] links. *)
Definition candidate_urls (links : list Anchor) : list string :=
  map href (JS.slice 0 IMPORT_LIMIT links).

Definition unique_urls (catalog : list BookmarkItem) : Prop :=
  NoDup (map url catalog).

(** The load of one file into [catalog], by a handler that saw [seen]. *)
Definition import
    (seen catalog : list BookmarkItem) (links : list Anchor) (env : Env)
  : list BookmarkItem :=
  bookmarks (step (start catalog) (Import seen links env)).

(** [P] holds of every turn of a run, at the state the turn starts from. *)
Fixpoint along {S I : Type}
    (next : S -> I -> S) (P : S -> I -> Prop) (s : S) (inputs : list I) : Prop :=
  match inputs with
  | [] => True
  | i :: inputs' => P s i /\ along next P (next s i) inputs'
  end.

(** The file offers no url twice, and each url it offers that is in the
    catalog at the load was in the catalog when the file was chosen. *)
Definition timely_import (s : App) (e : Event) : Prop :=
  match e with
  | Import seen links _ =>
      NoDup (candidate_urls links) /\
      forall u, In u (candidate_urls links) ->
                In u (map url (bookmarks s)) -> In u (map url seen)
  | _ => True
  end.

Definition timely (b : Browser) (i : Input) : Prop :=
  match i with
  | FileLoaded k env =>
      match nth_error (readers b) k with
      | Some r => timely_import (app b) (Import (handler_bookmarks r) (file_links r) env)
      | None => True
      end
  | _ => True
  end.

(** One import from choice to load with nothing in between: the file is
    chosen and its reader, the last one started, loads next. *)
Definition import_now (b : Browser) (links : list Anchor) (env : Env) : Browser :=
  turns b [FileChosen (Some links); FileLoaded (List.length (readers b)) env].

(** Category, description and tags are all present and non-empty. *)
Definition complete_fields (c d : option string) (ts : option (list string)) : Prop :=
  truthy c = true /\ truthy d = true /\ exists t ts', ts = Some (t :: ts').

Definition enrichment_complete (b : BookmarkItem) : Prop :=
  processed b = true -> complete_fields (category b) (description b) (tags b).

Definition item_complete (it : ItemValue) : Prop :=
  match it with
  | ItemNull => True
  | ItemObject o => complete_fields (r_category o) (r_description o) (r_tags o)
  end.

(** Every item the service returns carries all three fields, non-empty. *)
Definition complete_answers (e : Event) : Prop :=
  match e with
  | ServiceSettles (Resolved (Parses (ValueWith (ItemsArray items)))) =>
      Forall item_complete items
  | _ => True
  end.

Definition is_null (it : ItemValue) : bool :=
  match it with ItemNull => true | ItemObject _ => false end.

(** The outcomes on which the batch throws: the call is rejected, the body is
    not JSON, it is JSON [null], [items] is neither absent nor an array, or
    an element of [items] is [null]. *)
Definition hard_failure (o : ServiceOutcome) : bool :=
  match o with
  | Rejected => true
  | Resolved NoText => false
  | Resolved Malformed => true
  | Resolved (Parses ValueNull) => true
  | Resolved (Parses (ValueWith ItemsNullish)) => false
  | Resolved (Parses (ValueWith ItemsNotArray)) => true
  | Resolved (Parses (ValueWith (ItemsArray items))) => existsb is_null items
  end.

(** The items of an outcome that the merge loop visits. *)
Definition items_of (o : ServiceOutcome) : list ItemValue :=
  match o with
  | Resolved (Parses (ValueWith (ItemsArray items))) => items
  | _ => []
  end.

(** A whole run without interleaved events: the click, then one settling per
    outcome. *)
Definition run_with (catalog : list BookmarkItem) (outcomes : list ServiceOutcome) : App :=
  exec (start catalog) (ClickProcess :: map ServiceSettles outcomes).

(** What a merged batch [B] with outcome [o] leaves in the catalog for its
    entry [e]: the entry enriched from a response item correlated to it by
    url, or, when no item correlates to it, the entry as it was. *)
Definition committed
    (B : list BookmarkItem) (o : ServiceOutcome) (e : BookmarkItem)
    (catalog : list BookmarkItem) : Prop :=
  (exists it, In (ItemObject it) (items_of o) /\
              find_original B (r_url it) = Some e /\
              In (enrich e it) catalog) \/
  ((forall it, In (ItemObject it) (items_of o) -> find_original B (r_url it) <> Some e) /\
   In e catalog).

(** The map after merging the outcomes of successive batches. *)
Fixpoint merge_batches
    (m : JS.Map BookmarkItem) (batches : list (list BookmarkItem))
    (outcomes : list ServiceOutcome) : option (JS.Map BookmarkItem) :=
  match batches, outcomes with
  | B :: batches', o :: outcomes' =>
      match merge_outcome B m o with
      | Some m' => merge_batches m' batches' outcomes'
      | None => None
      end
  | _, _ => Some m
  end.

(** A binding of the run's map sits under the id of its value. *)
Definition keyed (kv : string * BookmarkItem) : Prop := id (snd kv) = fst kv.

(** A boolean test for a list of strings without repetition. *)
Fixpoint distinctb (l : list string) : bool :=
  match l with
  | [] => true
  | x :: l' => negb (existsb (String.eqb x) l') && distinctb l'
  end.

(** ** Invariants of a run *)

(** Within [origin], entries with the same url have the same id. *)
Definition url_determines_id (origin : list BookmarkItem) : Prop :=
  forall e1 e2, In e1 origin -> In e2 origin -> url e1 = url e2 -> id e1 = id e2.

(** The keys of [m] are distinct and each value sits under the id, and has
    the url, of an entry of [origin]. *)
Definition map_from (origin : list BookmarkItem) (m : JS.Map BookmarkItem) : Prop :=
  NoDup (map fst m) /\
  forall k v, In (k, v) m -> exists e, In e origin /\ id e = k /\ url e = url v.

(** The locals of a suspended run all stem from the catalog [origin] the run
    started from. *)
Definition run_from (origin : list BookmarkItem) (r : Run) : Prop :=
  url_determines_id origin /\
  map_from origin (updatedBookmarksMap r) /\
  (forall e, In e (batch r) -> In e origin) /\
  (forall b e, In b (remaining r) -> In e b -> In e origin).

Definition urls_invariant (s : App) : Prop :=
  unique_urls (bookmarks s) /\
  match pending s with
  | Some r => exists origin, run_from origin r
  | None => True
  end.

Definition complete_invariant (s : App) : Prop :=
  Forall enrichment_complete (bookmarks s) /\
  match pending s with
  | Some r => Forall enrichment_complete (JS.Map_values (updatedBookmarksMap r))
  | None => True
  end.

(** ** Sample data *)

Definition sample_env : Env :=
  {| generateId := fun k => String (ascii_of_nat (97 + k)) "";
     Date_now := fun k => Z.of_nat k |}.

(** The environment of a later import. *)
Definition later_env : Env :=
  {| generateId := fun k => String (ascii_of_nat (110 + k)) "";
     Date_now := fun k => Z.of_nat (100 + k) |}.

Definition sample_links (n : nat) : list Anchor :=
  map (fun k => {| textContent := "Site"; href := String (ascii_of_nat (65 + k)) "" |})
      (seq 0 n).

(** [n] unprocessed entries with ids ["a", "b", ...] and urls ["A", "B", ...]. *)
Definition sample_catalog (n : nat) : list BookmarkItem :=
  import [] [] (sample_links n) sample_env.

Definition sample_entry (i t u : string) (c : option string) : BookmarkItem :=
  {| id := i; title := t; url := u; description := None; category := c;
     tags := None; processed := false; addedAt := 0 |}.

Definition answer (items : list ItemValue) : ServiceOutcome :=
  Resolved (Parses (ValueWith (ItemsArray items))).

(** ** Further derived state *)

(** [unprocessedCount]: the number shown on the process button, which is
    rendered only when it is positive. *)
Definition unprocessedCount (bookmarks : list BookmarkItem) : nat :=
  List.length (filter (fun b => negb (processed b)) bookmarks).

(** [item.category || "Uncategorized"]: the category a [BookmarkCard] shows
    its icon and colour for. *)
Definition cardCategory (item : BookmarkItem) : string :=
  match category item with
  | Some c => if truthy (Some c) then c else "Uncategorized"
  | None => "Uncategorized"
  end.

(** ** Further vocabulary *)

(** The fields a run never writes. *)
Definition identity (b : BookmarkItem) : string * string * string * Z :=
  (id b, title b, url b, addedAt b).

(** An entry as an import creates it. *)
Definition fresh (b : BookmarkItem) : Prop :=
  processed b = false /\ category b = None /\ description b = None /\
  tags b = None /\ title b <> "".

(** The links of a file with their positions. *)
Definition indexed {A : Type} (l : list A) : list (nat * A) :=
  combine (seq 0 (List.length l)) l.

(** [b] is the entry an import makes of the link [a] at position [k]: the
    link's text as title, or ["Untitled"] when the text is empty; its
    address as url; no enrichment. *)
Definition entry_of_link (env : Env) (ka : nat * Anchor) (b : BookmarkItem) : Prop :=
  id b = generateId env (fst ka) /\
  addedAt b = Date_now env (fst ka) /\
  url b = href (snd ka) /\
  ((textContent (snd ka) <> "" /\ title b = textContent (snd ka)) \/
   (textContent (snd ka) = "" /\ title b = "Untitled")) /\
  fresh b.

(** The outcome is accepted and names the url of every entry of the batch. *)
Definition covers (B : list BookmarkItem) (o : ServiceOutcome) : Prop :=
  hard_failure o = false /\
  forall e, In e B -> exists it, In (ItemObject it) (items_of o) /\ r_url it = Some (url e).

Definition is_settling (e : Event) : bool :=
  match e with ServiceSettles _ => true | _ => false end.

(** The number of times the service answered. *)
Definition settlings (es : list Event) : nat :=
  List.length (filter is_settling es).

Definition in_flight (s : App) : nat :=
  match pending s with Some _ => 1 | None => 0 end.

(** The request payloads sent so far, oldest first. *)
Definition payloads (s : App) : list (list (string * string)) :=
  flat_map (fun e => match e with GenerateContent p => [p] | Alert => [] end) (effects s).

(** The events by which the user changes the catalog. *)
Definition is_edit (e : Event) : Prop :=
  match e with
  | Import _ _ _ | Delete _ => True
  | ClickProcess | ServiceSettles _ => False
  end.

(** The busy flag is set exactly while a call is awaited, the calls made
    exceed the answers by the call in flight at most, and no alert comes
    without an answer. *)
Definition sequential (s : App) (answered : nat) : Prop :=
  isProcessing s = match pending s with Some _ => true | None => false end /\
  calls s <= answered + in_flight s /\
  alerts s <= answered.

(** What a run keeps of the catalog [origin] it started from, in its map:
    the ids and their order, the identity of every entry, the entries that
    were processed before; its batches hold unprocessed entries of [origin]. *)
Definition run_keeps (origin : list BookmarkItem) (r : Run) : Prop :=
  map (fun kv => (fst kv, identity (snd kv))) (updatedBookmarksMap r)
  = map (fun e => (id e, identity e)) origin /\
  (forall e, In e origin -> processed e = true -> In (id e, e) (updatedBookmarksMap r)) /\
  (forall B e, In B (batch r :: remaining r) -> In e B ->
               In e origin /\ processed e = false).

Definition keeps (origin : list BookmarkItem) (s : App) : Prop :=
  map identity (bookmarks s) = map identity origin /\
  (forall e, In e origin -> processed e = true -> In e (bookmarks s)) /\
  match pending s with
  | Some r => run_keeps origin r
  | None => True
  end.

(** * Proofs *)

(** ** Lists *)

Section Lists.
Context {A : Type}.

Lemma Subsequence_refl (l : list A) : Subsequence l l.
Proof.
  induction l; [apply Subsequence_nil|apply Subsequence_keep]; assumption.
Qed.

Lemma Subsequence_filter (p : A -> bool) (l : list A) :
  Subsequence (filter p l) l.
Proof.
  induction l as [|x l IH]; simpl.
  - constructor.
  - destruct (p x); [apply Subsequence_keep|apply Subsequence_skip]; exact IH.
Qed.

Lemma Subsequence_In (k l : list A) :
  Subsequence k l -> forall x, In x k -> In x l.
Proof.
  induction 1; intros y Hy; simpl in *; intuition.
Qed.

Lemma filter_Selection (p : A -> bool) (P : A -> Prop) (l : list A) :
  (forall x, p x = true <-> P x) -> Selection P (filter p l) l.
Proof.
  intros HpP. split; [apply Subsequence_filter|]. split.
  - apply Forall_forall. intros x Hx. apply filter_In in Hx. apply HpP, Hx.
  - intros k Hk. induction Hk as [|x k l Hk IH|x k l Hk IH]; intros HP; simpl.
    + constructor.
    + destruct (p x); [apply Subsequence_skip|]; apply IH, HP.
    + inversion HP as [|? ? Px HP']; subst.
      apply HpP in Px. rewrite Px. apply Subsequence_keep, IH, HP'.
Qed.

Lemma filter_Selection_on (p : A -> bool) (P : A -> Prop) (l : list A) :
  (forall x, In x l -> (p x = true <-> P x)) -> Selection P (filter p l) l.
Proof.
  intros HpP. split; [apply Subsequence_filter|]. split.
  - apply Forall_forall. intros x Hx. apply filter_In in Hx.
    destruct Hx as [Hin Hp]. apply (HpP x Hin), Hp.
  - intros k Hk. induction Hk as [|x k l Hk IH|x k l Hk IH]; intros HP; simpl.
    + constructor.
    + assert (IH' := IH (fun y Hy => HpP y (or_intror Hy)) HP).
      destruct (p x); [apply Subsequence_skip|]; exact IH'.
    + inversion HP as [|? ? Px HP']; subst.
      apply (HpP x (or_introl eq_refl)) in Px. rewrite Px.
      apply Subsequence_keep, IH; [|exact HP'].
      intros y Hy. apply HpP. now right.
Qed.

Lemma filter_all (p : A -> bool) (l : list A) :
  (forall x, In x l -> p x = true) -> filter p l = l.
Proof.
  induction l as [|x l IH]; simpl; intros H; [reflexivity|].
  rewrite (H x (or_introl eq_refl)). f_equal. apply IH. intros y Hy. apply H. now right.
Qed.

Lemma distinct_keys_filter {K : Type} (key : A -> K) (keep : A -> bool) (l : list A)
      (Hdistinct : NoDup (map key l)) :
  NoDup (map key (filter keep l)).
Proof.
  induction l as [|x l IH]; simpl in *; [constructor|].
  apply NoDup_cons_iff in Hdistinct. destruct Hdistinct as [Hx Hl].
  destruct (keep x); simpl; [constructor|]; auto.
  intros Hin. apply Hx. apply in_map_iff in Hin. destruct Hin as [y [Hy Hin]].
  apply filter_In in Hin. apply in_map_iff. exists y. tauto.
Qed.

Lemma In_slice (i j : nat) (l : list A) (x : A) :
  In x (JS.slice i j l) -> In x l.
Proof.
  unfold JS.slice. intros H.
  rewrite <- (firstn_skipn i l). apply in_or_app. right.
  rewrite <- (firstn_skipn (j - i) (skipn i l)). apply in_or_app. left. exact H.
Qed.

End Lists.

(** ** [deleteBookmark] *)

(** C10.  [deleteBookmark i] keeps exactly the entries whose id is not [i]:
    the result is the catalog restricted to those entries, each one unchanged
    and in its place relative to the others; an id that no entry carries
    leaves the catalog as it is.  The function is total: nothing is raised. *)
Theorem deleteBookmark_removes_exactly (i : string) (prev : list BookmarkItem) :
  Selection (fun b => id b <> i) (deleteBookmark i prev) prev /\
  (forall b, In b (deleteBookmark i prev) <-> In b prev /\ id b <> i) /\
  ((forall b, In b prev -> id b <> i) -> deleteBookmark i prev = prev).
Proof.
  assert (Hp : forall b, negb (id b =? i) = true <-> id b <> i).
  { intros b. rewrite negb_true_iff. split.
    - intros H. apply String.eqb_neq. exact H.
    - intros H. apply String.eqb_neq. exact H. }
  unfold deleteBookmark. split; [|split].
  - apply filter_Selection. exact Hp.
  - intros b. rewrite filter_In, Hp. tauto.
  - intros H. apply filter_all. intros b Hb. apply Hp. apply H, Hb.
Qed.

(** ** The batch scheduler *)

Section Batches.
Context {A : Type}.

Lemma slice_length_full (i : nat) (l : list A) :
  i + BATCH_SIZE <= List.length l ->
  List.length (JS.slice i (i + BATCH_SIZE) l) = BATCH_SIZE.
Proof.
  intros H. unfold JS.slice. rewrite length_firstn, length_skipn. lia.
Qed.

Lemma slice_length_bounds (i : nat) (l : list A) :
  i < List.length l ->
  1 <= List.length (JS.slice i (i + BATCH_SIZE) l) <= BATCH_SIZE.
Proof.
  intros H. unfold JS.slice. rewrite length_firstn, length_skipn.
  unfold BATCH_SIZE. lia.
Qed.

Lemma batches_loop_done (fuel i : nat) (l : list A) :
  List.length l <= i -> batches_loop fuel i l = [].
Proof.
  intros H. destruct fuel; simpl; [reflexivity|].
  destruct (Nat.ltb_spec i (List.length l)); [lia|reflexivity].
Qed.

Lemma batches_loop_concat (fuel : nat) :
  forall (i : nat) (l : list A),
    List.length l <= fuel + i -> List.concat (batches_loop fuel i l) = skipn i l.
Proof.
  assert (HB : BATCH_SIZE = 10) by reflexivity.
  induction fuel as [|fuel IH]; intros i l H; simpl.
  - symmetry. apply skipn_all2. exact H.
  - destruct (Nat.ltb_spec i (List.length l)) as [Hlt|Hge]; simpl.
    + rewrite IH by lia. unfold JS.slice.
      replace (i + BATCH_SIZE - i) with BATCH_SIZE by lia.
      rewrite Nat.add_comm, <- skipn_skipn. apply firstn_skipn.
    + symmetry. apply skipn_all2. exact Hge.
Qed.

Lemma batches_loop_length (fuel : nat) :
  forall (i : nat) (l : list A),
    List.length l <= fuel + i ->
    List.length (batches_loop fuel i l) = ceil_div (List.length l - i) BATCH_SIZE.
Proof.
  unfold ceil_div, BATCH_SIZE.
  induction fuel as [|fuel IH]; intros i l H; cbn [batches_loop].
  - replace (List.length l - i) with 0 by lia. reflexivity.
  - unfold BATCH_SIZE.
    destruct (Nat.ltb_spec i (List.length l)) as [Hlt|Hge]; cbn [List.length].
    + rewrite IH by lia.
      destruct (Nat.le_gt_cases (i + 10) (List.length l)) as [Hfull|Hpart].
      * replace (List.length l - i + 10 - 1)
          with ((List.length l - (i + 10) + 10 - 1) + 1 * 10) by lia.
        rewrite Nat.div_add by discriminate. lia.
      * replace (List.length l - (i + 10) + 10 - 1) with 9 by lia.
        change (9 / 10) with 0.
        apply (Nat.div_unique _ 10 1 (List.length l - i - 1)); lia.
    + replace (List.length l - i) with 0 by lia. reflexivity.
Qed.

Lemma batches_loop_sizes (fuel : nat) :
  forall (i : nat) (l : list A),
    Forall (fun b => 1 <= List.length b <= BATCH_SIZE) (batches_loop fuel i l).
Proof.
  induction fuel as [|fuel IH]; intros i l; simpl; [constructor|].
  destruct (Nat.ltb_spec i (List.length l)) as [Hlt|Hge]; constructor.
  - apply slice_length_bounds. exact Hlt.
  - apply IH.
Qed.

Lemma batches_loop_inner_full (fuel : nat) :
  forall (i : nat) (l : list A) pre b post,
    batches_loop fuel i l = pre ++ b :: post -> post <> [] ->
    List.length b = BATCH_SIZE.
Proof.
  assert (HB : BATCH_SIZE = 10) by reflexivity.
  induction fuel as [|fuel IH]; intros i l pre b post Heq Hpost; simpl in Heq.
  - destruct pre; discriminate.
  - destruct (Nat.ltb_spec i (List.length l)) as [Hlt|Hge].
    + destruct pre as [|b0 pre]; simpl in Heq; injection Heq as Hb Hrest.
      * subst b. apply slice_length_full.
        destruct (Nat.le_gt_cases (i + BATCH_SIZE) (List.length l)) as [|Hshort];
          [assumption|].
        rewrite batches_loop_done in Hrest by lia. subst post. contradiction.
      * eapply IH; eassumption.
    + destruct pre; discriminate.
Qed.

Lemma batches_loop_fuel (fuel fuel' : nat) :
  forall (i : nat) (l : list A),
    List.length l <= fuel + i -> List.length l <= fuel' + i ->
    batches_loop fuel i l = batches_loop fuel' i l.
Proof.
  assert (HB : BATCH_SIZE = 10) by reflexivity.
  revert fuel'. induction fuel as [|fuel IH]; intros fuel' i l H H'.
  - rewrite (batches_loop_done fuel') by lia. reflexivity.
  - destruct fuel' as [|fuel'].
    + rewrite (batches_loop_done (S fuel)) by lia. reflexivity.
    + simpl. destruct (Nat.ltb_spec i (List.length l)); [|reflexivity].
      f_equal. apply IH; lia.
Qed.

Lemma In_batches_loop (fuel : nat) :
  forall (i : nat) (l : list A) b x,
    In b (batches_loop fuel i l) -> In x b -> In x l.
Proof.
  induction fuel as [|fuel IH]; intros i l b x Hb Hx; simpl in Hb; [contradiction|].
  destruct (Nat.ltb_spec i (List.length l)); [|contradiction].
  destruct Hb as [Hb|Hb].
  - subst b. eapply In_slice; eassumption.
  - eapply IH; eassumption.
Qed.

End Batches.

(** C5.  The scheduler cuts the unprocessed entries into ceil(N / 10) batches
    whose concatenation, in batch order, is the input list; every batch but
    the last holds exactly 10 entries and none is empty; any fuel of at least
    N iterations gives this result.  With no unprocessed entry there is no
    batch, and the click leaves the state as it is: no service call. *)
Theorem batch_coverage (unprocessed : list BookmarkItem) :
  let batches := make_batches unprocessed in
  List.length batches = ceil_div (List.length unprocessed) BATCH_SIZE /\
  List.concat batches = unprocessed /\
  (forall pre b post, batches = pre ++ b :: post -> post <> [] ->
                      List.length b = BATCH_SIZE) /\
  Forall (fun b => 1 <= List.length b <= BATCH_SIZE) batches /\
  (forall fuel, List.length unprocessed <= fuel ->
                batches_loop fuel 0 unprocessed = batches) /\
  (unprocessed = [] -> batches = []) /\
  (forall s, unprocessed_of (bookmarks s) = unprocessed -> unprocessed = [] ->
             step s ClickProcess = s /\ calls (step s ClickProcess) = calls s).
Proof.
  unfold make_batches. cbv zeta. repeat split.
  - rewrite batches_loop_length by lia. f_equal. lia.
  - rewrite batches_loop_concat by lia. reflexivity.
  - intros pre b post. apply batches_loop_inner_full.
  - apply batches_loop_sizes.
  - intros fuel Hfuel. apply batches_loop_fuel; lia.
  - intros ->. reflexivity.
  - simpl. destruct (isProcessing s); [reflexivity|].
    unfold processUnprocessedBookmarks. rewrite H, H0. reflexivity.
  - simpl. destruct (isProcessing s); [reflexivity|].
    unfold processUnprocessedBookmarks. rewrite H, H0. reflexivity.
Qed.

(** ** Sets, sorting and strings *)

Lemma Set_has_In (x : string) (s : JS.StringSet) :
  JS.Set_has x s = true <-> In x s.
Proof.
  unfold JS.Set_has. rewrite existsb_exists. split.
  - intros [y [Hy Heq]]. apply String.eqb_eq in Heq. now subst.
  - intros H. exists x. split; [exact H|apply String.eqb_refl].
Qed.

Lemma Set_add_In (x y : string) (s : JS.StringSet) :
  In y (JS.Set_add x s) <-> y = x \/ In y s.
Proof.
  unfold JS.Set_add. destruct (JS.Set_has x s) eqn:E.
  - apply Set_has_In in E. split; [tauto|]. intros [->|H]; assumption.
  - rewrite in_app_iff. simpl. intuition.
Qed.

Lemma Set_add_NoDup (x : string) (s : JS.StringSet) :
  NoDup s -> NoDup (JS.Set_add x s).
Proof.
  intros H. unfold JS.Set_add. destruct (JS.Set_has x s) eqn:E; [exact H|].
  assert (Hx : ~ In x s).
  { intros Hin. apply Set_has_In in Hin. congruence. }
  clear E. induction s as [|y s IH]; simpl.
  - constructor; [tauto|constructor].
  - inversion H as [|? ? Hy Hs]; subst. constructor.
    + rewrite in_app_iff. simpl in *. intuition.
    + apply IH; [exact Hs|]. simpl in Hx. tauto.
Qed.

Lemma Set_of_In (l : list string) (x : string) :
  In x (JS.Set_of l) <-> In x l.
Proof.
  unfold JS.Set_of.
  assert (G : forall acc, In x (fold_left (fun s y => JS.Set_add y s) l acc)
                          <-> In x acc \/ In x l).
  { induction l as [|y l IH]; intros acc; simpl; [tauto|].
    rewrite IH, Set_add_In. intuition. }
  rewrite G. simpl. tauto.
Qed.

Lemma string_ltb_lt (a b : string) :
  String.ltb a b = true <-> String_as_OT.lt a b.
Proof.
  rewrite <- String_as_OT.cmp_lt.
  unfold String.ltb, String_as_OT.cmp.
  destruct (String.compare a b); split; congruence.
Qed.

Lemma string_leb_cases (a b : string) :
  String.leb a b = true <-> a = b \/ String.ltb a b = true.
Proof.
  unfold String.leb, String.ltb. destruct (String.compare a b) eqn:E.
  - apply String.compare_eq_iff in E. intuition.
  - intuition.
  - split; [discriminate|]. intros [->|H]; [|discriminate].
    assert (R : String.compare b b = Eq)
      by (apply String_as_OT.cmp_eq; reflexivity).
    congruence.
Qed.

Lemma string_ltb_trans (a b c : string) :
  String.ltb a b = true -> String.ltb b c = true -> String.ltb a c = true.
Proof.
  rewrite !string_ltb_lt. apply String_as_OT.lt_trans.
Qed.

Lemma string_leb_trans (a b c : string) :
  String.leb a b = true -> String.leb b c = true -> String.leb a c = true.
Proof.
  rewrite !string_leb_cases. intros [->|Hab] [->|Hbc]; auto.
  right. eapply string_ltb_trans; eassumption.
Qed.

Lemma utf16_rank_inj (c d : ascii) :
  JS.utf16_rank c = JS.utf16_rank d -> c = d.
Proof.
  set (back := fun c : ascii =>
                 let n := nat_of_ascii c in
                 if (n <? 238)%nat then c
                 else if (n <? 254)%nat then ascii_of_nat (n + 2)
                 else ascii_of_nat (n - 16)).
  assert (R : forall a, back (JS.utf16_rank a) = a).
  { intros [[] [] [] [] [] [] [] []]; reflexivity. }
  intros H. rewrite <- (R c), <- (R d), H. reflexivity.
Qed.

Lemma utf16_key_inj (a b : string) :
  JS.utf16_key a = JS.utf16_key b -> a = b.
Proof.
  revert b. induction a as [|c a IH]; intros [|d b]; simpl; intros H;
    try discriminate; [reflexivity|].
  injection H as Hc Hs. apply utf16_rank_inj in Hc. apply IH in Hs. congruence.
Qed.

Lemma js_leb_cases (a b : string) :
  JS.string_leb a b = true <-> a = b \/ JS.string_ltb a b = true.
Proof.
  unfold JS.string_leb, JS.string_ltb. rewrite string_leb_cases. split.
  - intros [H|H]; [left; apply utf16_key_inj, H|right; exact H].
  - intros [->|H]; [left; reflexivity|right; exact H].
Qed.

Lemma js_leb_trans (a b c : string) :
  JS.string_leb a b = true -> JS.string_leb b c = true -> JS.string_leb a c = true.
Proof.
  unfold JS.string_leb. apply string_leb_trans.
Qed.

Lemma js_leb_total (a b : string) :
  JS.string_leb a b = true \/ JS.string_leb b a = true.
Proof.
  unfold JS.string_leb. apply String.leb_total.
Qed.

Lemma sort_insert_Permutation (x : string) (l : list string) :
  Permutation (JS.sort_insert x l) (x :: l).
Proof.
  induction l as [|y l IH]; simpl; [reflexivity|].
  destruct (JS.string_leb x y); [reflexivity|].
  rewrite IH. apply perm_swap.
Qed.

Lemma sort_Permutation (l : list string) : Permutation (JS.sort l) l.
Proof.
  induction l as [|x l IH]; simpl; [reflexivity|].
  rewrite sort_insert_Permutation. now constructor.
Qed.

Lemma sort_insert_sorted (x : string) (l : list string) :
  StronglySorted (fun a b => JS.string_leb a b = true) l ->
  StronglySorted (fun a b => JS.string_leb a b = true) (JS.sort_insert x l).
Proof.
  induction 1 as [|y l Hl IH Hy]; simpl.
  - constructor; constructor.
  - destruct (JS.string_leb x y) eqn:E.
    + constructor; [constructor; assumption|].
      constructor; [exact E|].
      eapply Forall_impl; [|exact Hy]. intros z Hz. eapply js_leb_trans; eassumption.
    + constructor; [exact IH|].
      apply Forall_forall. intros z Hz.
      apply (Permutation_in _ (sort_insert_Permutation x l)) in Hz.
      destruct Hz as [<-|Hz].
      * destruct (js_leb_total x y) as [H|H]; congruence.
      * rewrite Forall_forall in Hy. apply Hy, Hz.
Qed.

Lemma sort_sorted (l : list string) :
  StronglySorted (fun a b => JS.string_leb a b = true) (JS.sort l).
Proof.
  induction l as [|x l IH]; simpl; [constructor|].
  apply sort_insert_sorted, IH.
Qed.

Lemma sorted_NoDup_ascending (l : list string) :
  StronglySorted (fun a b => JS.string_leb a b = true) l -> NoDup l -> ascending l.
Proof.
  unfold ascending. induction 1 as [|x l Hl IH Hx]; intros Hnd; constructor.
  - apply IH. now inversion Hnd.
  - inversion Hnd as [|? ? Hnotin _]; subst.
    rewrite Forall_forall in *. intros y Hy.
    destruct (proj1 (js_leb_cases x y) (Hx y Hy)) as [->|H]; [contradiction|exact H].
Qed.

Lemma sort_ascending (l : list string) : NoDup l -> ascending (JS.sort l).
Proof.
  intros H. apply sorted_NoDup_ascending; [apply sort_sorted|].
  eapply Permutation_NoDup; [symmetry; apply sort_Permutation|exact H].
Qed.

Lemma nat_of_ascii_inj (a b : ascii) : nat_of_ascii a = nat_of_ascii b -> a = b.
Proof.
  intros H. rewrite <- (ascii_nat_embedding a), <- (ascii_nat_embedding b), H.
  reflexivity.
Qed.

Lemma nat_of_ascii_lower_char (c : ascii) :
  nat_of_ascii (ascii_lower_char c)
  = if (65 <=? nat_of_ascii c)%nat && (nat_of_ascii c <=? 90)%nat
    then (nat_of_ascii c + 32)%nat else nat_of_ascii c.
Proof.
  unfold ascii_lower_char. cbv zeta.
  destruct ((65 <=? nat_of_ascii c)%nat && (nat_of_ascii c <=? 90)%nat) eqn:E;
    [|reflexivity].
  apply andb_true_iff in E. destruct E as [_ E]. apply Nat.leb_le in E.
  apply nat_ascii_embedding. lia.
Qed.

Lemma ascii_lower_char_same (c d : ascii) :
  ascii_lower_char c = ascii_lower_char d <-> same_letter c d.
Proof.
  unfold same_letter, case_pair. split.
  - intros H. apply (f_equal nat_of_ascii) in H.
    rewrite !nat_of_ascii_lower_char in H.
    destruct ((65 <=? nat_of_ascii c)%nat && (nat_of_ascii c <=? 90)%nat) eqn:Ec;
      destruct ((65 <=? nat_of_ascii d)%nat && (nat_of_ascii d <=? 90)%nat) eqn:Ed.
    + left. apply nat_of_ascii_inj. lia.
    + right. left. apply andb_true_iff in Ec. destruct Ec as [E1 E2].
      apply Nat.leb_le in E1. apply Nat.leb_le in E2. lia.
    + right. right. apply andb_true_iff in Ed. destruct Ed as [E1 E2].
      apply Nat.leb_le in E1. apply Nat.leb_le in E2. lia.
    + left. apply nat_of_ascii_inj, H.
  - intros H. apply nat_of_ascii_inj. rewrite !nat_of_ascii_lower_char.
    destruct H as [->|[[Hu Hl]|[Hu Hl]]]; [reflexivity| |].
    + replace ((65 <=? nat_of_ascii c)%nat && (nat_of_ascii c <=? 90)%nat) with true
        by (symmetry; apply andb_true_iff; split; apply Nat.leb_le; lia).
      replace ((65 <=? nat_of_ascii d)%nat && (nat_of_ascii d <=? 90)%nat) with false
        by (symmetry; apply andb_false_iff; right; apply Nat.leb_gt; lia).
      lia.
    + replace ((65 <=? nat_of_ascii d)%nat && (nat_of_ascii d <=? 90)%nat) with true
        by (symmetry; apply andb_true_iff; split; apply Nat.leb_le; lia).
      replace ((65 <=? nat_of_ascii c)%nat && (nat_of_ascii c <=? 90)%nat) with false
        by (symmetry; apply andb_false_iff; right; apply Nat.leb_gt; lia).
      lia.
Qed.

Lemma ascii_lower_same (s t : string) :
  ascii_lower s = ascii_lower t <-> same_text s t.
Proof.
  revert t. induction s as [|c s IH]; intros [|d t]; simpl;
    try (split; [discriminate|contradiction]); [tauto|].
  rewrite <- IH, <- ascii_lower_char_same. split.
  - intros H. injection H as Hc Hs. auto.
  - intros [Hc Hs]. congruence.
Qed.

Lemma same_text_refl (s : string) : same_text s s.
Proof. apply ascii_lower_same. reflexivity. Qed.

Lemma ascii_lower_app (a b : string) :
  ascii_lower (a ++ b)%string = (ascii_lower a ++ ascii_lower b)%string.
Proof.
  induction a as [|c a IH]; simpl; [reflexivity|]. now rewrite IH.
Qed.

Lemma ascii_lower_split (s a b : string) :
  ascii_lower s = (a ++ b)%string ->
  exists s1 s2, s = (s1 ++ s2)%string /\ ascii_lower s1 = a /\ ascii_lower s2 = b.
Proof.
  revert s. induction a as [|c a IH]; intros s H; simpl in H.
  - exists EmptyString, s. auto.
  - destruct s as [|d s]; simpl in H; [discriminate|].
    injection H as Hc Hs. destruct (IH s Hs) as [s1 [s2 [E [E1 E2]]]].
    exists (String d s1), s2. simpl. subst. auto.
Qed.

Lemma prefix_app (q s : string) :
  String.prefix q s = true <-> exists post, s = (q ++ post)%string.
Proof.
  revert s. induction q as [|c q IH]; intros s.
  - destruct s; simpl; split; eauto.
  - destruct s as [|d s]; simpl.
    + split; [discriminate|]. intros [post H]. discriminate.
    + destruct (ascii_dec c d) as [->|Hne].
      * rewrite IH. split; intros [post H]; exists post; congruence.
      * split; [discriminate|]. intros [post H]. congruence.
Qed.

Lemma includes_app (s q : string) :
  JS.includes s q = true <-> exists pre post, s = (pre ++ q ++ post)%string.
Proof.
  induction s as [|c s IH]; cbn [JS.includes].
  - rewrite orb_false_r, prefix_app. split.
    + intros [post H]. exists EmptyString, post. exact H.
    + intros [pre [post H]]. destruct pre; simpl in H; [eauto|discriminate].
  - rewrite orb_true_iff, IH, prefix_app. split.
    + intros [[post H]|[pre [post H]]].
      * exists EmptyString, post. exact H.
      * exists (String c pre), post. simpl. now rewrite H.
    + intros [pre [post H]]. destruct pre as [|d pre]; simpl in H.
      * left. eauto.
      * right. injection H as _ H. eauto.
Qed.

Lemma includes_contained (s q : string) :
  JS.includes s q = true <-> contained q s.
Proof. apply includes_app. Qed.

(** On lowercased ASCII text [includes] decides containment up to letter
    case. *)
Lemma includes_ci_contained (s q : string) :
  JS.includes (ascii_lower s) (ascii_lower q) = true <-> ci_contained q s.
Proof.
  rewrite includes_app. unfold ci_contained. split.
  - intros [pre' [post' H]].
    apply ascii_lower_split in H. destruct H as [pre [rest [E [_ H]]]].
    apply ascii_lower_split in H. destruct H as [mid [post [E' [Hmid _]]]].
    exists pre, mid, post. subst. split; [reflexivity|].
    apply ascii_lower_same, Hmid.
  - intros [pre [mid [post [E H]]]]. apply ascii_lower_same in H.
    exists (ascii_lower pre), (ascii_lower post).
    subst s. now rewrite !ascii_lower_app, H.
Qed.

Lemma includes_empty (s : string) : JS.includes s "" = true.
Proof. destruct s; reflexivity. Qed.

(** ** The derived views *)

Lemma collect_categories_fold (bs : list BookmarkItem) :
  forall acc : JS.StringSet,
    let r := fold_left
               (fun cats b =>
                  match category b with
                  | Some c => if truthy (Some c) then JS.Set_add c cats else cats
                  | None => cats
                  end) bs acc in
    (NoDup acc -> NoDup r) /\
    (forall c, In c r <-> In c acc \/ category_present bs c).
Proof.
  unfold category_present.
  induction bs as [|b bs IH]; intros acc; simpl.
  - split; [auto|]. intros c. split; [auto|]. intros [H|[_ [b [[] _]]]]. exact H.
  - destruct (IH (match category b with
                  | Some c => if truthy (Some c) then JS.Set_add c acc else acc
                  | None => acc
                  end)) as [Hnd Hin].
    split.
    + intros H. apply Hnd.
      destruct (category b) as [c|]; [|exact H].
      destruct (truthy (Some c)); [apply Set_add_NoDup|]; exact H.
    + intros c. rewrite Hin. clear Hnd Hin IH.
      destruct (category b) as [c0|] eqn:Ec.
      * simpl. destruct (String.eqb_spec c0 ""); simpl.
        -- split.
           ++ intros [H|[Hc [b' [Hb' Hcat]]]]; [tauto|]. right. eauto.
           ++ intros [H|[Hc [b' [[<-|Hb'] Hcat]]]]; [tauto| |right; eauto].
              congruence.
        -- rewrite Set_add_In. split.
           ++ intros [[->|H]|[Hc [b' [Hb' Hcat]]]]; [|tauto|]; right; eauto.
           ++ intros [H|[Hc [b' [[<-|Hb'] Hcat]]]]; [tauto| |right; eauto].
              left. left. congruence.
      * split.
        -- intros [H|[Hc [b' [Hb' Hcat]]]]; [tauto|]. right. eauto.
        -- intros [H|[Hc [b' [[<-|Hb'] Hcat]]]]; [tauto| |right; eauto].
           congruence.
Qed.

Lemma truthy_no_category (b : BookmarkItem) :
  negb (truthy (category b)) = true <-> no_category b.
Proof.
  unfold no_category, truthy. destruct (category b) as [c|].
  - rewrite negb_involutive. split.
    + intros H. apply String.eqb_eq in H. subst. now right.
    + intros [H|H]; [discriminate|]. injection H as ->. reflexivity.
  - simpl. tauto.
Qed.

Lemma matchesCategory_facet (facet : string) (b : BookmarkItem) :
  matchesCategory facet b = true <-> facet_matches facet b.
Proof.
  unfold matchesCategory, facet_matches.
  destruct (String.eqb_spec facet "All") as [->|HA]; [tauto|].
  destruct (String.eqb_spec facet "Uncategorized") as [->|HU].
  - rewrite truthy_no_category. split; [tauto|].
    intros [H|[[_ H]|[_ [H _]]]]; [discriminate|exact H|contradiction].
  - destruct (category b) as [c|].
    + split.
      * intros H. apply String.eqb_eq in H. subst. tauto.
      * intros [H|[[H _]|[_ [_ H]]]]; [contradiction|contradiction|].
        injection H as ->. apply String.eqb_refl.
    + split; [discriminate|].
      intros [H|[[H _]|[_ [_ H]]]]; [contradiction|contradiction|discriminate].
Qed.

Lemma matchesSearch_lowered (toLowerCase : string -> string) (q : string) (b : BookmarkItem) :
  matchesSearch toLowerCase q b = true <-> lowered_matches toLowerCase q b.
Proof.
  unfold matchesSearch, lowered_matches. cbv zeta.
  rewrite !orb_true_iff, includes_contained. split.
  - intros [[H|H]|H].
    + tauto.
    + destruct (description b) as [d|]; [|discriminate].
      apply includes_contained in H. right. left. eauto.
    + destruct (tags b) as [ts|]; [|discriminate].
      apply existsb_exists in H. destruct H as [t [Ht H]].
      apply includes_contained in H. right. right. eauto.
  - intros [H|[[d [Ed H]]|[ts [t [Ets [Ht H]]]]]].
    + tauto.
    + left. right. rewrite Ed. apply includes_contained, H.
    + right. rewrite Ets. apply existsb_exists. exists t.
      split; [exact Ht|]. apply includes_contained, H.
Qed.

Lemma matchesSearch_query (toLowerCase : string -> string) (q : string) (b : BookmarkItem) :
  ascii_exact toLowerCase -> is_ascii q = true -> ascii_entry b ->
  matchesSearch toLowerCase q b = true <-> query_matches q b.
Proof.
  intros Hlow Hq [Ht [Hd Hts]].
  unfold matchesSearch, query_matches. cbv zeta.
  rewrite (Hlow q Hq), (Hlow (title b) Ht).
  rewrite !orb_true_iff, includes_ci_contained. split.
  - intros [[H|H]|H].
    + tauto.
    + destruct (description b) as [d|] eqn:Ed; [|discriminate].
      rewrite (Hlow d (Hd d eq_refl)) in H.
      apply includes_ci_contained in H. right. right. left. eauto.
    + destruct (tags b) as [ts|] eqn:Ets; [|discriminate].
      apply existsb_exists in H. destruct H as [t [Hin H]].
      rewrite (Hlow t (Hts ts t eq_refl Hin)) in H.
      apply includes_ci_contained in H. right. right. right. eauto.
  - intros [->|[H|[[d [Ed H]]|[ts [t [Ets [Hin H]]]]]]].
    + left. left. exists EmptyString, EmptyString, (title b). simpl. auto.
    + tauto.
    + left. right. rewrite Ed. rewrite (Hlow d (Hd d Ed)).
      apply includes_ci_contained, H.
    + right. rewrite Ets. apply existsb_exists. exists t.
      split; [exact Hin|]. rewrite (Hlow t (Hts ts t Ets Hin)).
      apply includes_ci_contained, H.
Qed.

Lemma ascii_lower_exact : ascii_exact ascii_lower.
Proof. intros s _. reflexivity. Qed.

Lemma final_sigma_lower_exact : ascii_exact final_sigma_lower.
Proof.
  intros s Hs. unfold final_sigma_lower.
  destruct (String.eqb_spec s "ΟΔΟΣ") as [->|_]; [discriminate Hs|].
  destruct (String.eqb_spec s "Σ") as [->|_]; [discriminate Hs|].
  reflexivity.
Qed.

(** C8.  The facet list is ["All"], then the category values present in the
    catalog (non-empty ones, each once, strictly ascending in the
    case-sensitive code-unit order), then ["Uncategorized"].  The facet
    ["Uncategorized"], with no search text, selects exactly the entries that
    have no category (absent or empty), whatever their [processed] flag,
    unchanged and in catalog order.  Of [toLowerCase] only the value at the
    empty text is used. *)
Theorem category_facets (toLowerCase : string -> string) (catalog : list BookmarkItem) :
  (exists middle,
      categories catalog = "All" :: middle ++ ["Uncategorized"] /\
      ascending middle /\
      forall c, In c middle <-> category_present catalog c) /\
  (toLowerCase "" = "" ->
   Selection no_category
             (filteredBookmarks toLowerCase catalog "" "Uncategorized") catalog).
Proof.
  split.
  - exists (JS.sort (collect_categories catalog)).
    destruct (collect_categories_fold catalog []) as [Hnd Hin].
    split; [reflexivity|]. split.
    + apply sort_ascending. apply Hnd. constructor.
    + intros c. fold (collect_categories catalog) in Hin.
      assert (Hc : In c (collect_categories catalog) <-> category_present catalog c).
      { rewrite (Hin c). simpl. tauto. }
      rewrite <- Hc. split; apply Permutation_in;
        [|symmetry]; apply sort_Permutation.
  - intros Hempty. apply filter_Selection. intros b.
    rewrite andb_true_iff, <- truthy_no_category.
    unfold matchesSearch. cbv zeta. rewrite Hempty.
    rewrite includes_empty. simpl. tauto.
Qed.

Lemma category_facets_witness :
  let catalog := [sample_entry "1" "a" "u1" (Some "Frontend");
                  sample_entry "2" "b" "u2" (Some "");
                  sample_entry "3" "c" "u3" (Some "Backend");
                  sample_entry "4" "d" "u4" None] in
  ascii_lower "" = "" /\
  Selection no_category
            (filteredBookmarks ascii_lower catalog "" "Uncategorized") catalog.
Proof.
  split; [reflexivity|].
  apply (category_facets ascii_lower). reflexivity.
Defined.

(** C9 (amended).  The filtered view is the catalog restricted to the entries
    whose facet matches (["All"]: every entry; ["Uncategorized"]: entries
    with no category; any other facet: the entries whose category is that
    string) and whose text matches: the query, lowercased by [toLowerCase],
    is a substring of the lowercased title, of the lowercased description
    when present, or of one of the lowercased tags when present.  Entries are
    unchanged and keep the catalog order.  When the query and these fields
    are ASCII text, the text matches exactly when the query is empty or
    equals, up to letter case, a substring of one of them. *)
Theorem filtered_view
    (toLowerCase : string -> string)
    (catalog : list BookmarkItem) (searchQuery filterCategory : string) :
  Selection
    (fun b => facet_matches filterCategory b /\
              lowered_matches toLowerCase searchQuery b)
    (filteredBookmarks toLowerCase catalog searchQuery filterCategory) catalog /\
  (ascii_exact toLowerCase -> is_ascii searchQuery = true ->
   Forall ascii_entry catalog ->
   Selection
     (fun b => facet_matches filterCategory b /\ query_matches searchQuery b)
     (filteredBookmarks toLowerCase catalog searchQuery filterCategory) catalog).
Proof.
  split.
  - apply filter_Selection. intros b.
    rewrite andb_true_iff, matchesSearch_lowered, matchesCategory_facet. tauto.
  - intros Hlow Hq Hcat. apply filter_Selection_on. intros b Hb.
    rewrite Forall_forall in Hcat.
    rewrite andb_true_iff, (matchesSearch_query _ _ _ Hlow Hq (Hcat b Hb)),
      matchesCategory_facet.
    tauto.
Qed.

Lemma filtered_view_witness :
  let catalog := [sample_entry "1" "React Docs" "u1" (Some "Frontend");
                  sample_entry "2" "Vue" "u2" (Some "Frontend");
                  sample_entry "3" "Preact" "u3" None] in
  (ascii_exact ascii_lower /\ is_ascii "REACT" = true /\ Forall ascii_entry catalog) /\
  Selection
    (fun b => facet_matches "Frontend" b /\ query_matches "REACT" b)
    (filteredBookmarks ascii_lower catalog "REACT" "Frontend") catalog.
Proof.
  assert (Hcat : Forall ascii_entry
                   [sample_entry "1" "React Docs" "u1" (Some "Frontend");
                    sample_entry "2" "Vue" "u2" (Some "Frontend");
                    sample_entry "3" "Preact" "u3" None]).
  { repeat (apply Forall_cons;
            [split; [reflexivity|split; [intros d H|intros ts t H]; discriminate H]|]).
    apply Forall_nil. }
  split; [split; [exact ascii_lower_exact|split; [reflexivity|exact Hcat]]|].
  apply (filtered_view ascii_lower); [exact ascii_lower_exact|reflexivity|exact Hcat].
Defined.

(** C9 as stated fails beyond ASCII: lowercasing depends on the place of a
    letter in its word.  The title is the Greek word for "street" in
    capitals and the query its last letter, so the query is a substring of
    the title as it stands; lowercased, the title ends in the final sigma
    U+03C2 and the query is the sigma U+03C3, and the view is empty. *)
Lemma filtered_view_counterexample :
  let entry := sample_entry "1" "ΟΔΟΣ" "u1" None in
  ascii_exact final_sigma_lower /\
  facet_matches "All" entry /\
  query_matches "Σ" entry /\
  filteredBookmarks final_sigma_lower [entry] "Σ" "All" = [] /\
  ~ Selection
      (fun b => facet_matches "All" b /\ query_matches "Σ" b)
      (filteredBookmarks final_sigma_lower [entry] "Σ" "All") [entry].
Proof.
  assert (Hq : query_matches "Σ" (sample_entry "1" "ΟΔΟΣ" "u1" None)).
  { right. left. exists "ΟΔΟ", "Σ", "". split; [reflexivity|apply same_text_refl]. }
  split; [exact final_sigma_lower_exact|].
  split; [left; reflexivity|]. split; [exact Hq|]. split; [reflexivity|].
  intros [_ [_ Hmax]].
  assert (H : Subsequence [sample_entry "1" "ΟΔΟΣ" "u1" None]
                          (filteredBookmarks final_sigma_lower
                             [sample_entry "1" "ΟΔΟΣ" "u1" None] "Σ" "All")).
  { apply Hmax.
    - apply Subsequence_keep, Subsequence_nil.
    - apply Forall_cons; [|apply Forall_nil]. split; [left; reflexivity|exact Hq]. }
  inversion H.
Qed.

(** The examples of the specification: four entries with categories
    Frontend, Frontend, Backend and none; an entry titled "React Docs". *)
Example facet_example :
  let catalog := [sample_entry "1" "a" "u1" (Some "Frontend");
                  sample_entry "2" "b" "u2" (Some "Frontend");
                  sample_entry "3" "c" "u3" (Some "Backend");
                  sample_entry "4" "d" "u4" None] in
  categories catalog = ["All"; "Backend"; "Frontend"; "Uncategorized"] /\
  filteredBookmarks ascii_lower catalog "" "Uncategorized"
  = [sample_entry "4" "d" "u4" None].
Proof. split; reflexivity. Qed.

Example search_example :
  let catalog := [sample_entry "1" "React Docs" "u1" None] in
  filteredBookmarks ascii_lower catalog "react" "All" = catalog /\
  filteredBookmarks ascii_lower catalog "REACT" "All" = catalog /\
  filteredBookmarks ascii_lower catalog "vue" "All" = [].
Proof. repeat split; reflexivity. Qed.

(** Code-unit order where it differs from byte order: U+1F600 (a surrogate
    pair) sorts before U+FF21, and capitals before small letters. *)
Example sort_example :
  JS.sort ["Ａ"; "b"; "😀"; "B"; "a"] = ["B"; "a"; "b"; "😀"; "Ａ"].
Proof. reflexivity. Qed.

(** ** Import *)

Lemma distinctb_NoDup (l : list string) : distinctb l = true -> NoDup l.
Proof.
  induction l as [|x l IH]; simpl; intros H; constructor;
    apply andb_true_iff in H; destruct H as [Hx Hl].
  - intros Hin. apply negb_true_iff in Hx.
    assert (E : existsb (String.eqb x) l = true).
    { apply existsb_exists. exists x. split; [exact Hin|apply String.eqb_refl]. }
    congruence.
  - apply IH, Hl.
Qed.

Lemma mapi_from_url (env : Env) (links : list Anchor) :
  forall k,
    map url
      (JS.mapi_from k
         (fun k link =>
            {| id := generateId env k;
               title := if textContent link =? "" then "Untitled" else textContent link;
               url := href link;
               description := None; category := None; tags := None;
               processed := false; addedAt := Date_now env k |})
         links)
    = map href links.
Proof.
  induction links as [|a links IH]; intros k; simpl; [reflexivity|].
  now rewrite IH.
Qed.

Lemma newBookmarks_urls (links : list Anchor) (env : Env) :
  map url (newBookmarks links env) = candidate_urls links.
Proof. apply mapi_from_url. Qed.

Lemma mapi_from_fresh (env : Env) (links : list Anchor) :
  forall k b,
    In b
      (JS.mapi_from k
         (fun k link =>
            {| id := generateId env k;
               title := if textContent link =? "" then "Untitled" else textContent link;
               url := href link;
               description := None; category := None; tags := None;
               processed := false; addedAt := Date_now env k |})
         links) ->
    processed b = false.
Proof.
  induction links as [|a links IH]; intros k b; simpl; [contradiction|].
  intros [<-|H]; [reflexivity|]. eapply IH, H.
Qed.

Lemma uniqueNewBookmarks_In (catalog : list BookmarkItem) links env b :
  In b (uniqueNewBookmarks catalog links env) <->
  In b (newBookmarks links env) /\ ~ In (url b) (map url catalog).
Proof.
  unfold uniqueNewBookmarks. cbv zeta. rewrite filter_In, negb_true_iff.
  rewrite <- (Set_of_In (map url catalog)), <- Set_has_In.
  destruct (JS.Set_has (url b) (JS.Set_of (map url catalog))); intuition congruence.
Qed.

Lemma import_eq (seen catalog : list BookmarkItem) links env :
  import seen catalog links env = catalog ++ uniqueNewBookmarks seen links env.
Proof. reflexivity. Qed.

Lemma import_urls (seen catalog : list BookmarkItem) links env u :
  In u (map url (import seen catalog links env)) <->
  In u (map url catalog) \/
  (In u (candidate_urls links) /\ ~ In u (map url seen)).
Proof.
  rewrite import_eq, map_app, in_app_iff, <- (newBookmarks_urls links env).
  split.
  - intros [H|H]; [left; exact H|].
    apply in_map_iff in H. destruct H as [b [E Hb]].
    apply uniqueNewBookmarks_In in Hb. destruct Hb as [Hnew Hout].
    right. subst u. split; [|exact Hout]. now apply in_map.
  - intros [H|[H Hout]]; [left; exact H|].
    apply in_map_iff in H. destruct H as [b [E Hb]].
    right. apply in_map_iff. exists b. split; [exact E|].
    apply uniqueNewBookmarks_In. subst u. split; assumption.
Qed.

(** A handler that saw the catalog it is applied to brings in every url the
    file offers. *)
Lemma import_urls_current (catalog : list BookmarkItem) links env u :
  In u (map url (import catalog catalog links env)) <->
  In u (map url catalog) \/ In u (candidate_urls links).
Proof.
  rewrite import_urls.
  destruct (in_dec string_dec u (map url catalog)); tauto.
Qed.

Lemma import_again_nothing (seen : list BookmarkItem) links env :
  (forall u, In u (candidate_urls links) -> In u (map url seen)) ->
  uniqueNewBookmarks seen links env = [].
Proof.
  intros Hall.
  destruct (uniqueNewBookmarks seen links env) as [|b l] eqn:E; [reflexivity|].
  assert (Hb : In b (uniqueNewBookmarks seen links env)) by (rewrite E; now left).
  apply uniqueNewBookmarks_In in Hb. destruct Hb as [Hnew Hout].
  exfalso. apply Hout, Hall.
  rewrite <- (newBookmarks_urls links env). now apply in_map.
Qed.

Lemma import_unique (seen catalog : list BookmarkItem) links env :
  unique_urls catalog -> NoDup (candidate_urls links) ->
  (forall u, In u (candidate_urls links) ->
             In u (map url catalog) -> In u (map url seen)) ->
  unique_urls (import seen catalog links env).
Proof.
  unfold unique_urls. intros Hc Hl Hseen. rewrite import_eq, map_app.
  apply NoDup_app.
  - exact Hc.
  - unfold uniqueNewBookmarks. apply distinct_keys_filter.
    rewrite newBookmarks_urls. exact Hl.
  - intros u Hu Hin. apply in_map_iff in Hin. destruct Hin as [b [<- Hb]].
    apply uniqueNewBookmarks_In in Hb. destruct Hb as [Hnew Hout].
    apply Hout, Hseen; [|exact Hu].
    rewrite <- (newBookmarks_urls links env). now apply in_map.
Qed.

(** ** Readers *)

Lemma nth_error_last {A : Type} (l : list A) (x : A) :
  nth_error (l ++ [x]) (List.length l) = Some x.
Proof. induction l as [|y l IH]; simpl; [reflexivity|exact IH]. Qed.

Lemma remove_nth_last {A : Type} (l : list A) (x : A) :
  remove_nth (List.length l) (l ++ [x]) = l.
Proof. induction l as [|y l IH]; simpl; [reflexivity|]. now rewrite IH. Qed.

(** The component goes through the events of the inputs, and nothing else. *)
Lemma turn_event (b : Browser) (i : Input) :
  app (turn b i) = match event_of b i with
                   | Some e => step (app b) e
                   | None => app b
                   end.
Proof.
  destruct i as [[links|]|k env|i| |o]; simpl; try reflexivity.
  destruct (nth_error (readers b) k); reflexivity.
Qed.

Lemma turns_exec (inputs : list Input) :
  forall b, app (turns b inputs) = exec (app b) (events_of b inputs).
Proof.
  unfold turns, exec. induction inputs as [|i inputs IH]; intros b; [reflexivity|].
  cbn [fold_left events_of]. rewrite IH.
  pose proof (turn_event b i) as E.
  destruct (event_of b i) as [e|]; cbn [fold_left]; now rewrite E.
Qed.

Lemma import_now_eq (b : Browser) (links : list Anchor) (env : Env) :
  import_now b links env
  = {| app := step (app b) (Import (catalog_of b) links env);
       readers := readers b |}.
Proof.
  unfold import_now, turns. simpl.
  rewrite nth_error_last, remove_nth_last. reflexivity.
Qed.

Lemma import_now_catalog (b : Browser) (links : list Anchor) (env : Env) :
  catalog_of (import_now b links env)
  = import (catalog_of b) (catalog_of b) links env.
Proof. rewrite import_now_eq. reflexivity. Qed.

(** C6 (amended).  A source imported twice, each file loading as soon as it
    was chosen: the second import changes nothing, and after it every url
    the source offers is in the catalog; each of them occurs exactly once
    when the catalog had no repeated url before and the source offers none
    twice. *)
Theorem import_twice (b : Browser) (links : list Anchor) (env1 env2 : Env) :
  let once := import_now b links env1 in
  let twice := import_now once links env2 in
  twice = once /\
  (forall u, In u (candidate_urls links) -> In u (map url (catalog_of twice))) /\
  (unique_urls (catalog_of b) -> NoDup (candidate_urls links) ->
   forall u, In u (candidate_urls links) ->
             count_occ string_dec (map url (catalog_of twice)) u = 1).
Proof.
  cbv zeta.
  assert (E : import_now (import_now b links env1) links env2 = import_now b links env1).
  { rewrite (import_now_eq (import_now b links env1)).
    rewrite (import_now_eq b). unfold catalog_of. simpl.
    unfold parseBookmarksHTML at 1.
    rewrite (import_again_nothing _ links env2).
    - rewrite app_nil_r. reflexivity.
    - intros u Hu.
      apply (import_urls_current (bookmarks (app b)) links env1 u). now right. }
  rewrite E, import_now_catalog. split; [reflexivity|]. split.
  - intros u Hu. apply import_urls_current. now right.
  - intros Hc Hl u Hu.
    apply (proj1 (NoDup_count_occ' string_dec _)).
    + apply import_unique; [assumption|assumption|auto].
    + apply import_urls_current. now right.
Qed.

(** C6 at a source without repetition: two links imported twice into the
    empty catalog. *)
Lemma import_twice_witness :
  let once := import_now (opened []) (sample_links 2) sample_env in
  let twice := import_now once (sample_links 2) sample_env in
  (unique_urls (catalog_of (opened [])) /\ NoDup (candidate_urls (sample_links 2))) /\
  twice = once /\
  count_occ string_dec (map url (catalog_of twice)) "A" = 1.
Proof.
  assert (H1 : unique_urls (catalog_of (opened []))) by constructor.
  assert (H2 : NoDup (candidate_urls (sample_links 2)))
    by (apply distinctb_NoDup; reflexivity).
  destruct (import_twice (opened []) (sample_links 2) sample_env sample_env)
    as [E [_ H]].
  split; [split; assumption|]. split; [exact E|].
  apply H; [exact H1|exact H2|].
  simpl. tauto.
Defined.

(** C6 as stated fails in two ways.  On a source that lists a url twice,
    the url is in the catalog twice after both imports.  And when the file
    is chosen a second time before its first load, the second handler still
    filters against the catalog without the first import, and the second
    import adds every entry again. *)
Lemma import_twice_counterexample :
  (let links := [mkAnchor "One" "u"; mkAnchor "Two" "u"] in
   let twice := import_now (import_now (opened []) links sample_env) links sample_env in
   count_occ string_dec (map url (catalog_of twice)) "u" = 2) /\
  (let links := sample_links 2 in
   let once := turns (opened [])
                 [FileChosen (Some links); FileChosen (Some links);
                  FileLoaded 0 sample_env] in
   let twice := turn once (FileLoaded 0 later_env) in
   NoDup (candidate_urls links) /\
   map url (catalog_of once) = ["A"; "B"] /\
   map url (catalog_of twice) = ["A"; "B"; "A"; "B"]).
Proof.
  split; [reflexivity|].
  cbv zeta. split; [apply distinctb_NoDup; reflexivity|].
  split; reflexivity.
Qed.

(** ** The map of a run *)

Section MapFacts.
Context {V : Type}.

Lemma Map_set_In (k : string) (v : V) (m : JS.Map V) k' v' :
  In (k', v') (JS.Map_set k v m) -> (k', v') = (k, v) \/ In (k', v') m.
Proof.
  induction m as [|[k0 v0] m IH]; simpl.
  - intuition.
  - destruct (String.eqb k0 k); simpl; intuition.
Qed.

Lemma Map_set_keys_In (k : string) (v : V) (m : JS.Map V) x :
  In x (map fst (JS.Map_set k v m)) -> x = k \/ In x (map fst m).
Proof.
  rewrite !in_map_iff. intros [[k' v'] [E H]]. simpl in E. subst k'.
  apply Map_set_In in H. destruct H as [H|H].
  - left. congruence.
  - right. exists (x, v'). auto.
Qed.

Lemma Map_set_keys_NoDup (k : string) (v : V) (m : JS.Map V) :
  NoDup (map fst m) -> NoDup (map fst (JS.Map_set k v m)).
Proof.
  induction m as [|[k0 v0] m IH]; simpl; intros H.
  - constructor; [tauto|constructor].
  - inversion H as [|? ? Hk0 Hm]; subst.
    destruct (String.eqb_spec k0 k) as [->|Hne]; simpl.
    + constructor; assumption.
    + constructor; [|apply IH, Hm].
      intros Hin. apply Map_set_keys_In in Hin. destruct Hin; [congruence|contradiction].
Qed.

Lemma Map_set_keys_same (k : string) (v : V) (m : JS.Map V) :
  In k (map fst m) -> map fst (JS.Map_set k v m) = map fst m.
Proof.
  induction m as [|[k0 v0] m IH]; simpl; intros H; [contradiction|].
  destruct (String.eqb_spec k0 k) as [->|Hne]; simpl; [reflexivity|].
  f_equal. apply IH. destruct H; [contradiction|assumption].
Qed.

Lemma Map_set_bound (k : string) (v : V) (m : JS.Map V) :
  In k (map fst m) -> In (k, v) (JS.Map_set k v m).
Proof.
  induction m as [|[k0 v0] m IH]; simpl; intros H; [contradiction|].
  destruct (String.eqb_spec k0 k) as [->|Hne]; simpl; [now left|].
  right. apply IH. destruct H; [contradiction|assumption].
Qed.

Lemma Map_set_other (k : string) (v : V) (m : JS.Map V) k' v' :
  k' <> k -> In (k', v') m -> In (k', v') (JS.Map_set k v m).
Proof.
  intros Hne. induction m as [|[k0 v0] m IH]; simpl; [tauto|].
  intros [H|H].
  - injection H as -> ->. destruct (String.eqb_spec k' k); [contradiction|now left].
  - destruct (String.eqb k0 k); right; auto.
Qed.

Lemma Map_of_fold (entries : list (string * V)) :
  forall acc : JS.Map V,
    let m := fold_left (fun m kv => JS.Map_set (fst kv) (snd kv) m) entries acc in
    (NoDup (map fst acc) -> NoDup (map fst m)) /\
    (forall k v, In (k, v) m -> In (k, v) acc \/ In (k, v) entries).
Proof.
  induction entries as [|[k0 v0] entries IH]; intros acc; simpl.
  - auto.
  - destruct (IH (JS.Map_set k0 v0 acc)) as [Hnd Hin]. split.
    + intros H. apply Hnd, Map_set_keys_NoDup, H.
    + intros k v H. apply Hin in H. destruct H as [H|H]; [|tauto].
      apply Map_set_In in H. destruct H as [H|H]; [right; left; congruence|tauto].
Qed.

Lemma Map_of_distinct (entries : list (string * V)) :
  NoDup (map fst entries) -> JS.Map_of entries = entries.
Proof.
  unfold JS.Map_of.
  assert (G : forall acc,
             NoDup (map fst (acc ++ entries)) ->
             fold_left (fun m kv => JS.Map_set (fst kv) (snd kv) m) entries acc
             = acc ++ entries).
  { induction entries as [|[k0 v0] entries IH]; intros acc H; simpl.
    - now rewrite app_nil_r.
    - assert (E : JS.Map_set k0 v0 acc = acc ++ [(k0, v0)]).
      { rewrite map_app in H. apply NoDup_remove_2 in H.
        assert (Hk : ~ In k0 (map fst acc)) by (rewrite in_app_iff in H; tauto).
        clear -Hk. induction acc as [|[k1 v1] acc IHa]; simpl; [reflexivity|].
        simpl in Hk. destruct (String.eqb_spec k1 k0); [tauto|].
        f_equal. apply IHa. tauto. }
      rewrite E, IH; rewrite <- app_assoc; [reflexivity|exact H]. }
  intros H. apply (G []). exact H.
Qed.

End MapFacts.

Lemma NoDup_map_injective {A B : Type} (f : A -> B) (l : list A) (x y : A) :
  NoDup (map f l) -> In x l -> In y l -> f x = f y -> x = y.
Proof.
  induction l as [|a l IH]; simpl; intros H Hx Hy E; [contradiction|].
  inversion H as [|? ? Ha Hl]; subst.
  destruct Hx as [->|Hx], Hy as [->|Hy]; auto.
  - exfalso. apply Ha. rewrite E. now apply in_map.
  - exfalso. apply Ha. rewrite <- E. now apply in_map.
Qed.

Lemma In_make_batches {A : Type} (l : list A) (b : list A) (x : A) :
  In b (make_batches l) -> In x b -> In x l.
Proof. apply In_batches_loop. Qed.

Lemma find_original_In (b : list BookmarkItem) (u : option string) (e : BookmarkItem) :
  find_original b u = Some e -> In e b /\ u = Some (url e).
Proof.
  destruct u as [u|]; simpl; [|discriminate].
  intros H. apply find_some in H. destruct H as [Hin E].
  apply String.eqb_eq in E. subst. auto.
Qed.

(** ** URL uniqueness *)

Lemma values_unique (origin : list BookmarkItem) (m : JS.Map BookmarkItem) :
  url_determines_id origin -> map_from origin m ->
  unique_urls (JS.Map_values m).
Proof.
  unfold unique_urls, JS.Map_values. intros Hinj [Hnd Hm].
  induction m as [|[k v] m IH]; simpl; [constructor|].
  simpl in Hnd. inversion Hnd as [|? ? Hk Hnd']; subst. constructor.
  - intros Hin. apply in_map_iff in Hin. destruct Hin as [v' [E Hv']].
    apply in_map_iff in Hv'. destruct Hv' as [[k' v''] [E' Hkv]]. simpl in E'. subst v''.
    destruct (Hm k v (or_introl eq_refl)) as [e [He [Hid Hurl]]].
    destruct (Hm k' v' (or_intror Hkv)) as [e' [He' [Hid' Hurl']]].
    apply Hk. apply in_map_iff. exists (k', v'). split; [|exact Hkv]. simpl.
    rewrite <- Hid, <- Hid'. apply Hinj; congruence.
  - apply IH; [exact Hnd'|]. intros k' v' H. apply Hm. now right.
Qed.

Lemma merge_item_from (origin b : list BookmarkItem) m it m' :
  (forall e, In e b -> In e origin) ->
  map_from origin m -> merge_item b m it = Some m' -> map_from origin m'.
Proof.
  intros Hb [Hnd Hm]. destruct it as [|o]; simpl; [discriminate|].
  destruct (find_original b (r_url o)) as [e|] eqn:E; intros H; injection H as <-.
  - apply find_original_In in E. destruct E as [He _]. split.
    + apply Map_set_keys_NoDup, Hnd.
    + intros k v H. apply Map_set_In in H. destruct H as [H|H]; [|apply Hm, H].
      injection H as -> ->. exists e. auto.
  - split; assumption.
Qed.

Lemma merge_items_from (origin b : list BookmarkItem) items :
  (forall e, In e b -> In e origin) ->
  forall m m', map_from origin m -> merge_items b m items = Some m' -> map_from origin m'.
Proof.
  intros Hb. induction items as [|it items IH]; simpl; intros m m' Hm H.
  - injection H as <-. exact Hm.
  - destruct (merge_item b m it) as [m1|] eqn:E; [|discriminate].
    eapply IH; [|exact H]. eapply merge_item_from; eassumption.
Qed.

Lemma merge_outcome_from (origin b : list BookmarkItem) m o m' :
  (forall e, In e b -> In e origin) ->
  map_from origin m -> merge_outcome b m o = Some m' -> map_from origin m'.
Proof.
  intros Hb Hm. destruct o as [|[| |[|[| |items]]]]; simpl; try discriminate.
  - intros H. injection H as <-. exact Hm.
  - intros H. injection H as <-. exact Hm.
  - apply merge_items_from; assumption.
Qed.

Lemma urls_invariant_step (s : App) (e : Event) :
  timely_import s e -> urls_invariant s -> urls_invariant (step s e).
Proof.
  intros He [Hu Hp]. destruct e as [seen links env|i| |o]; simpl.
  - split; [|exact Hp]. simpl. destruct He as [Hl Hseen].
    apply (import_unique seen (bookmarks s)); assumption.
  - split; [|exact Hp]. simpl. apply distinct_keys_filter, Hu.
  - destruct (isProcessing s); [split; assumption|].
    unfold processUnprocessedBookmarks.
    destruct (List.length (unprocessed_of (bookmarks s)) =? 0)%nat; [split; assumption|].
    destruct (make_batches (unprocessed_of (bookmarks s))) as [|b rest] eqn:Eb; simpl.
    + split; [exact Hu|exact I].
    + split; [exact Hu|]. exists (bookmarks s). repeat split; simpl.
      * intros e1 e2 H1 H2 E. f_equal.
        eapply NoDup_map_injective; eassumption.
      * apply (Map_of_fold (map (fun b0 => (id b0, b0)) (bookmarks s)) []). constructor.
      * intros k v H.
        apply (Map_of_fold (map (fun b0 => (id b0, b0)) (bookmarks s)) []) in H.
        destruct H as [[]|H]. apply in_map_iff in H. destruct H as [e [E He']].
        injection E as <- <-. exists e. auto.
      * intros e He'.
        assert (Hin : In e (unprocessed_of (bookmarks s))).
        { apply (In_make_batches _ b); [rewrite Eb; now left|exact He']. }
        apply filter_In in Hin. tauto.
      * intros b' e Hb' He'.
        assert (Hin : In e (unprocessed_of (bookmarks s))).
        { apply (In_make_batches _ b'); [rewrite Eb; now right|exact He']. }
        apply filter_In in Hin. tauto.
  - destruct (pending s) as [r|] eqn:Er; [|split; [exact Hu|now rewrite Er]].
    destruct Hp as [origin [Hinj [Hm [Hb Hrest]]]].
    unfold resume.
    destruct (merge_outcome (batch r) (updatedBookmarksMap r) o) as [m'|] eqn:Em.
    + assert (Hm' : map_from origin m') by (eapply merge_outcome_from; eassumption).
      destruct (remaining r) as [|b rest]; simpl.
      * split; [|exact I]. eapply values_unique; eassumption.
      * split; [eapply values_unique; eassumption|].
        exists origin. repeat split; simpl; try apply Hm'; auto.
        -- intros e He'. apply (Hrest b); [now left|exact He'].
        -- intros b' e Hb' He'. apply (Hrest b'); [now right|exact He'].
    + split; [exact Hu|exact I].
Qed.

Lemma urls_invariant_turn (b : Browser) (i : Input) :
  timely b i -> urls_invariant (app b) -> urls_invariant (app (turn b i)).
Proof.
  intros Hi Hb. destruct i as [[links|]|k env|i| |o]; cbn [turn app handleFileUpload];
    try exact Hb.
  - cbn [timely] in Hi. destruct (nth_error (readers b) k) as [r|]; [|exact Hb].
    cbn [app]. apply urls_invariant_step; assumption.
  - apply (urls_invariant_step (app b) (Delete i)); [exact I|exact Hb].
  - apply (urls_invariant_step (app b) ClickProcess); [exact I|exact Hb].
  - apply (urls_invariant_step (app b) (ServiceSettles o)); [exact I|exact Hb].
Qed.

Lemma urls_invariant_turns (inputs : list Input) :
  forall b, along turn timely b inputs -> urls_invariant (app b) ->
            urls_invariant (app (turns b inputs)).
Proof.
  unfold turns. induction inputs as [|i inputs IH]; intros b Hin Hb; simpl; [exact Hb|].
  destruct Hin as [Hi Hrest]. apply IH; [exact Hrest|]. now apply urls_invariant_turn.
Qed.

(** C2 (amended).  In every catalog state reached from the empty catalog by
    choices of a file, loads of the chosen files, clicks on the process
    button, settlings of the service call and deletes, in any order, no two
    entries share a url, provided that each file that loads offers no url
    twice among its first 50 links, and that each url it offers that is in
    the catalog at the load was in the catalog when the file was chosen. *)
Theorem url_uniqueness (inputs : list Input) :
  along turn timely (opened []) inputs ->
  unique_urls (catalog_of (turns (opened []) inputs)).
Proof.
  intros H. apply (urls_invariant_turns inputs (opened []) H).
  split; simpl; constructor.
Qed.

(** C2 on a history with two imports of overlapping sources, a run of two
    batches, a delete while the run is suspended, and a settling between the
    choice of the second file and its load. *)
Lemma url_uniqueness_witness :
  let inputs :=
    [FileChosen (Some (sample_links 12));
     FileLoaded 0 sample_env;
     ProcessClicked;
     DeleteClicked "b";
     ServiceSettled (answer [ItemObject (mkItem (Some "A") (Some "Frontend")
                                                (Some "Site") (Some ["x"]))]);
     FileChosen (Some (sample_links 14));
     ServiceSettled Rejected;
     FileLoaded 0 later_env] in
  along turn timely (opened []) inputs /\
  unique_urls (catalog_of (turns (opened []) inputs)).
Proof.
  cbv zeta.
  assert (H : along turn timely (opened [])
                [FileChosen (Some (sample_links 12));
                 FileLoaded 0 sample_env;
                 ProcessClicked;
                 DeleteClicked "b";
                 ServiceSettled (answer [ItemObject (mkItem (Some "A") (Some "Frontend")
                                                            (Some "Site") (Some ["x"]))]);
                 FileChosen (Some (sample_links 14));
                 ServiceSettled Rejected;
                 FileLoaded 0 later_env]).
  { cbn [along].
    split; [exact I|].
    split; [split; [apply distinctb_NoDup; reflexivity|intros u _ []]|].
    split; [exact I|]. split; [exact I|]. split; [exact I|].
    split; [exact I|]. split; [exact I|].
    split; [|exact I].
    split; [apply distinctb_NoDup; reflexivity|].
    intros u _ Hu. exact Hu. }
  split; [exact H|].
  apply url_uniqueness, H.
Defined.

(** C2 as stated fails in two ways.  An import that offers a url twice:
    both candidates pass the check against the catalog and both are
    appended.  And an import whose file was chosen while its url was out of
    the catalog: the entry is deleted during a run, the file is chosen, the
    run's commit restores the entry, and the load appends the url again. *)
Lemma url_uniqueness_counterexample :
  ~ unique_urls
      (catalog_of
         (turns (opened [])
            [FileChosen (Some [mkAnchor "One" "u"; mkAnchor "Two" "u"]);
             FileLoaded 0 sample_env])) /\
  (let inputs :=
     [FileChosen (Some (sample_links 1));
      FileLoaded 0 sample_env;
      ProcessClicked;
      DeleteClicked "a";
      FileChosen (Some (sample_links 1));
      ServiceSettled (answer []);
      FileLoaded 0 later_env] in
   map url (catalog_of (turns (opened []) inputs)) = ["A"; "A"] /\
   ~ unique_urls (catalog_of (turns (opened []) inputs))).
Proof.
  split.
  - unfold unique_urls. simpl. intros H.
    inversion H as [|? ? Hin _]. apply Hin. now left.
  - cbv zeta. split; [reflexivity|].
    unfold unique_urls. simpl. intros H.
    inversion H as [|? ? Hin _]. apply Hin. now left.
Qed.

(** ** Processed implies complete *)

Lemma Map_values_set (k : string) (v : BookmarkItem) (m : JS.Map BookmarkItem) v' :
  In v' (JS.Map_values (JS.Map_set k v m)) -> v' = v \/ In v' (JS.Map_values m).
Proof.
  unfold JS.Map_values. rewrite !in_map_iff. intros [[k0 v0] [E H]]. simpl in E. subst v0.
  apply Map_set_In in H. destruct H as [H|H].
  - left. congruence.
  - right. exists (k0, v'). auto.
Qed.

Lemma merge_items_complete (b : list BookmarkItem) items :
  Forall item_complete items ->
  forall m m',
    Forall enrichment_complete (JS.Map_values m) ->
    merge_items b m items = Some m' ->
    Forall enrichment_complete (JS.Map_values m').
Proof.
  induction 1 as [|it items Hit Hitems IH]; simpl; intros m m' Hm H.
  - injection H as <-. exact Hm.
  - destruct it as [|o]; simpl in H; [discriminate|].
    destruct (find_original b (r_url o)) as [e|]; [|eapply IH; eassumption].
    eapply IH; [|exact H].
    apply Forall_forall. intros v Hv. apply Map_values_set in Hv.
    destruct Hv as [->|Hv].
    + intros _. exact Hit.
    + rewrite Forall_forall in Hm. apply Hm, Hv.
Qed.

Lemma merge_outcome_complete (b : list BookmarkItem) m o m' :
  complete_answers (ServiceSettles o) ->
  Forall enrichment_complete (JS.Map_values m) ->
  merge_outcome b m o = Some m' ->
  Forall enrichment_complete (JS.Map_values m').
Proof.
  intros Ho Hm. destruct o as [|[| |[|[| |items]]]]; simpl; try discriminate.
  - intros H. injection H as <-. exact Hm.
  - intros H. injection H as <-. exact Hm.
  - apply merge_items_complete; assumption.
Qed.

Lemma complete_invariant_step (s : App) (e : Event) :
  complete_answers e -> complete_invariant s -> complete_invariant (step s e).
Proof.
  intros He [Hb Hp]. destruct e as [seen links env|i| |o]; simpl.
  - split; [|exact Hp]. simpl. unfold parseBookmarksHTML.
    apply Forall_app. split; [exact Hb|].
    apply Forall_forall. intros b Hin Hproc.
    apply filter_In in Hin. destruct Hin as [Hin _].
    apply mapi_from_fresh in Hin. congruence.
  - split; [|exact Hp]. simpl. apply Forall_forall. intros b Hin.
    apply filter_In in Hin. rewrite Forall_forall in Hb. apply Hb, Hin.
  - destruct (isProcessing s); [split; assumption|].
    unfold processUnprocessedBookmarks.
    destruct (List.length (unprocessed_of (bookmarks s)) =? 0)%nat; [split; assumption|].
    destruct (make_batches (unprocessed_of (bookmarks s))) as [|b rest]; simpl.
    + split; [exact Hb|exact I].
    + split; [exact Hb|]. simpl. apply Forall_forall. intros v Hv.
      apply in_map_iff in Hv. destruct Hv as [[k v'] [E Hv]]. simpl in E. subst v'.
      apply (Map_of_fold (map (fun b0 => (id b0, b0)) (bookmarks s)) []) in Hv.
      destruct Hv as [[]|Hv]. apply in_map_iff in Hv. destruct Hv as [e [E He']].
      injection E as _ <-. rewrite Forall_forall in Hb. apply Hb, He'.
  - destruct (pending s) as [r|] eqn:Er; [|split; [exact Hb|now rewrite Er]].
    unfold resume.
    destruct (merge_outcome (batch r) (updatedBookmarksMap r) o) as [m'|] eqn:Em.
    + assert (Hm' : Forall enrichment_complete (JS.Map_values m'))
        by (eapply merge_outcome_complete; eassumption).
      destruct (remaining r) as [|b rest]; split; first [exact Hm'|exact I].
    + split; [exact Hb|exact I].
Qed.

Lemma complete_invariant_exec (es : list Event) :
  forall s, Forall complete_answers es -> complete_invariant s ->
            complete_invariant (exec s es).
Proof.
  unfold exec. induction es as [|e es IH]; intros s Hes Hs; simpl; [exact Hs|].
  inversion Hes; subst. apply IH; [assumption|]. now apply complete_invariant_step.
Qed.

(** C4 (amended).  In every catalog state reached from the empty catalog by
    imports (loads of a file, whatever catalog the handler saw), clicks on
    the process button, settlings of the service call and deletes, an entry with [processed = true] has a non-empty category, a
    non-empty description and a non-empty tag list, provided every item the
    service returned carried all three non-empty: the merge step copies the
    three fields from the response item together with the flag, unchecked. *)
Theorem processed_implies_complete (events : list Event) :
  Forall complete_answers events ->
  Forall enrichment_complete (bookmarks (exec (start []) events)).
Proof.
  intros H. apply (complete_invariant_exec events (start []) H).
  split; simpl; constructor.
Qed.

(** C4 on a run whose answer carries all three fields. *)
Lemma processed_implies_complete_witness :
  Forall enrichment_complete
    (bookmarks
       (exec (start [])
          [Import [] (sample_links 2) sample_env;
           ClickProcess;
           ServiceSettles (answer [ItemObject (mkItem (Some "A") (Some "Frontend")
                                                      (Some "A site") (Some ["x"; "y"]))])])).
Proof.
  apply processed_implies_complete.
  apply Forall_cons; [exact I|].
  apply Forall_cons; [exact I|].
  apply Forall_cons; [|apply Forall_nil].
  cbv [complete_answers answer].
  apply Forall_cons; [|apply Forall_nil].
  repeat split. exists "x", ["y"]. reflexivity.
Defined.

(** C4 as stated fails: an item that carries only the url, or empty fields,
    still marks its entry processed. *)
Lemma processed_implies_complete_counterexample :
  ~ Forall enrichment_complete
      (bookmarks
         (exec (start [])
            [Import [] (sample_links 1) sample_env;
             ClickProcess;
             ServiceSettles (answer [ItemObject (mkItem (Some "A") None None None)])]))
  /\
  ~ Forall enrichment_complete
      (bookmarks
         (exec (start [])
            [Import [] (sample_links 1) sample_env;
             ClickProcess;
             ServiceSettles (answer [ItemObject (mkItem (Some "A") (Some "") (Some "")
                                                        (Some []))])])).
Proof.
  split; intros H; simpl in H; inversion H as [|? ? Hb _];
    destruct (Hb eq_refl) as [Hc _]; discriminate.
Qed.

(** ** Failures of a batch *)

Lemma merge_items_throws (b : list BookmarkItem) items :
  forall m, merge_items b m items = None <-> existsb is_null items = true.
Proof.
  induction items as [|it items IH]; intros m; simpl.
  - split; discriminate.
  - destruct it as [|o]; simpl; [tauto|].
    destruct (find_original b (r_url o)); apply IH.
Qed.

Lemma merge_outcome_throws (b : list BookmarkItem) m o :
  merge_outcome b m o = None <-> hard_failure o = true.
Proof.
  destruct o as [|[| |[|[| |items]]]]; simpl; try tauto; try (split; discriminate).
  apply merge_items_throws.
Qed.

Lemma merge_outcome_returns (b : list BookmarkItem) m o :
  hard_failure o = false -> exists m', merge_outcome b m o = Some m'.
Proof.
  intros H. destruct (merge_outcome b m o) as [m'|] eqn:E; [eauto|].
  apply merge_outcome_throws in E. congruence.
Qed.

Lemma step_settles_bad (s : App) (r : Run) (o : ServiceOutcome) :
  pending s = Some r -> hard_failure o = true ->
  step s (ServiceSettles o)
  = {| bookmarks := bookmarks s; isProcessing := false; pending := None;
       effects := effects s ++ [Alert] |}.
Proof.
  intros Hr H. simpl. rewrite Hr. unfold resume.
  now rewrite (proj2 (merge_outcome_throws (batch r) (updatedBookmarksMap r) o) H).
Qed.

Lemma step_settles_good (s : App) (r : Run) (o : ServiceOutcome) :
  pending s = Some r -> hard_failure o = false ->
  exists m,
    merge_outcome (batch r) (updatedBookmarksMap r) o = Some m /\
    step s (ServiceSettles o)
    = next_batch
        {| bookmarks := JS.Map_values m; isProcessing := isProcessing s;
           pending := None; effects := effects s |}
        m (remaining r).
Proof.
  intros Hr H.
  destruct (merge_outcome_returns (batch r) (updatedBookmarksMap r) o H) as [m Hm].
  exists m. split; [exact Hm|]. simpl. rewrite Hr. unfold resume. now rewrite Hm.
Qed.

(** C7 (amended).  When the pending call settles: a rejected call, a body
    that is not JSON, a body that is JSON null, an [items] that is neither
    absent nor an array, or a null element of [items] makes the batch throw;
    the run ends there with one alert, the catalog as the previous batch left
    it and no further call.  Every other outcome is accepted and committed,
    and the run goes on to the next batch: an absent or empty body counts as
    an empty item list, and items that lack properties are merged as they
    are. *)
Theorem response_handling (s : App) (r : Run) (o : ServiceOutcome) :
  pending s = Some r ->
  let s' := step s (ServiceSettles o) in
  (hard_failure o = true ->
   bookmarks s' = bookmarks s /\ pending s' = None /\ isProcessing s' = false /\
   effects s' = effects s ++ [Alert]) /\
  (hard_failure o = false ->
   exists m,
     merge_outcome (batch r) (updatedBookmarksMap r) o = Some m /\
     bookmarks s' = JS.Map_values m /\
     alerts s' = alerts s /\
     match remaining r with
     | [] => pending s' = None /\ effects s' = effects s
     | b :: rest =>
         pending s' = Some {| updatedBookmarksMap := m; batch := b; remaining := rest |} /\
         effects s' = effects s ++ [GenerateContent (batchInput b)]
     end) /\
  merge_outcome (batch r) (updatedBookmarksMap r) (Resolved NoText)
  = Some (updatedBookmarksMap r).
Proof.
  intros Hr. simpl. rewrite Hr. unfold resume. split; [|split; [|reflexivity]].
  - intros H.
    rewrite (proj2 (merge_outcome_throws (batch r) (updatedBookmarksMap r) o) H).
    repeat split.
  - intros H. destruct (merge_outcome_returns (batch r) (updatedBookmarksMap r) o H)
      as [m Hm].
    exists m. rewrite Hm. split; [reflexivity|].
    destruct (remaining r) as [|b rest]; simpl.
    + repeat split.
    + repeat split. unfold alerts. simpl. rewrite filter_app, length_app. simpl. lia.
Qed.

(** C7 at the two kinds of outcome, on an eleven-entry catalog whose first
    call is pending: a body that is not JSON ends the run; an answer for one
    entry is committed and the second batch is requested. *)
Lemma response_handling_witness :
  let s := step (start (sample_catalog 11)) ClickProcess in
  alerts (step s (ServiceSettles (Resolved Malformed))) = 1 /\
  calls (step s (ServiceSettles (Resolved Malformed))) = 1 /\
  alerts (step s (ServiceSettles (answer [ItemObject (mkItem (Some "A") None None None)]))) = 0.
Proof.
  pose (s := step (start (sample_catalog 11)) ClickProcess).
  pose (r := {| updatedBookmarksMap := JS.Map_of (map (fun b => (id b, b)) (sample_catalog 11));
                batch := JS.slice 0 10 (sample_catalog 11);
                remaining := [JS.slice 10 20 (sample_catalog 11)] |}).
  assert (Hr : pending s = Some r) by reflexivity.
  cbv zeta. fold s. split; [|split].
  - destruct (response_handling s r (Resolved Malformed) Hr) as [Hbad _].
    destruct (Hbad eq_refl) as [_ [_ [_ E]]].
    unfold alerts. rewrite E. reflexivity.
  - destruct (response_handling s r (Resolved Malformed) Hr) as [Hbad _].
    destruct (Hbad eq_refl) as [_ [_ [_ E]]].
    unfold calls. rewrite E. reflexivity.
  - destruct (response_handling s r
                (answer [ItemObject (mkItem (Some "A") None None None)]) Hr)
      as [_ [Hgood _]].
    destruct (Hgood eq_refl) as [m [_ [_ [E _]]]].
    rewrite E. reflexivity.
Defined.

(** C7 as stated fails: an absent body, a body without [items], and an item
    that carries only a url do not deserialize to the required shape, yet
    none of them ends the run: no alert is raised and the second batch is
    requested. *)
Lemma response_handling_counterexample :
  let quiet (o : ServiceOutcome) :=
      let s := run_with (sample_catalog 11) [o] in
      alerts s = 0 /\ calls s = 2 /\ isProcessing s = true in
  quiet (Resolved NoText) /\
  quiet (Resolved (Parses (ValueWith ItemsNullish))) /\
  quiet (answer [ItemObject (mkItem (Some "A") None None None)]).
Proof. repeat split; reflexivity. Qed.

(** ** What a run leaves in the catalog *)

Lemma NoDup_app_inv {A : Type} (l1 l2 : list A) :
  NoDup (l1 ++ l2) ->
  NoDup l1 /\ NoDup l2 /\ forall x, In x l1 -> ~ In x l2.
Proof.
  intros H. split; [eapply NoDup_app_remove_r, H|].
  split; [eapply NoDup_app_remove_l, H|].
  induction l1 as [|a l1 IH]; simpl in *; [tauto|].
  inversion H as [|? ? Ha Hl]; subst. intros x [->|Hx] Hin.
  - apply Ha. apply in_or_app. now right.
  - exact (IH Hl x Hx Hin).
Qed.

Lemma In_concat_batch {A : Type} (batches : list (list A)) (B : list A) (x : A) :
  In B batches -> In x B -> In x (List.concat batches).
Proof. intros HB Hx. apply in_concat. eauto. Qed.

Lemma Map_set_keyed (k : string) (v : BookmarkItem) (m : JS.Map BookmarkItem) :
  id v = k -> Forall keyed m -> Forall keyed (JS.Map_set k v m).
Proof.
  intros Hv Hm. apply Forall_forall. intros [k' v'] H.
  apply Map_set_In in H. destruct H as [H|H].
  - injection H as -> ->. exact Hv.
  - rewrite Forall_forall in Hm. apply Hm, H.
Qed.

Lemma keyed_values (m : JS.Map BookmarkItem) :
  Forall keyed m -> map id (JS.Map_values m) = map fst m.
Proof.
  unfold JS.Map_values. induction 1 as [|[k v] m Hkv Hm IH]; simpl; [reflexivity|].
  unfold keyed in Hkv. simpl in Hkv. now rewrite Hkv, IH.
Qed.

Lemma In_Map_values (m : JS.Map BookmarkItem) k v :
  In (k, v) m -> In v (JS.Map_values m).
Proof. intros H. apply in_map_iff. exists (k, v). auto. Qed.

Section OneBatch.
Variable B : list BookmarkItem.
Hypothesis B_ids : forall e1 e2, In e1 B -> In e2 B -> id e1 = id e2 -> e1 = e2.

Lemma merge_items_effect (items : list ItemValue) :
  forall m m',
    (forall e, In e B -> In (id e) (map fst m)) ->
    merge_items B m items = Some m' ->
    map fst m' = map fst m /\
    (forall k v, In (k, v) m -> (forall e, In e B -> id e <> k) -> In (k, v) m') /\
    (forall e v, In e B -> In (id e, v) m ->
       (exists it, In (ItemObject it) items /\
                   find_original B (r_url it) = Some e /\
                   In (id e, enrich e it) m') \/
       ((forall it, In (ItemObject it) items -> find_original B (r_url it) <> Some e) /\
        In (id e, v) m')) /\
    (Forall keyed m -> Forall keyed m').
Proof.
  induction items as [|it items IH]; intros m m' Hkeys H; simpl in H.
  - injection H as <-. split; [reflexivity|]. split; [auto|]. split; [|auto].
    intros e v _ Hv. right. split; [intros it []|exact Hv].
  - destruct it as [|o]; simpl in H; [discriminate|].
    destruct (find_original B (r_url o)) as [e0|] eqn:E.
    + pose proof (proj1 (find_original_In _ _ _ E)) as He0.
      assert (Hk1 : map fst (JS.Map_set (id e0) (enrich e0 o) m) = map fst m)
        by (apply Map_set_keys_same, Hkeys, He0).
      destruct (IH _ m' (fun e He => eq_ind_r (In (id e)) (Hkeys e He) Hk1) H)
        as [K [U [C W]]].
      split; [congruence|]. split; [|split].
      * intros k v Hv Hk. apply U; [|exact Hk].
        apply Map_set_other; [|exact Hv]. intros ->. exact (Hk e0 He0 eq_refl).
      * intros e v He Hv. destruct (string_dec (id e) (id e0)) as [Eid|Nid].
        -- assert (e = e0) by (apply B_ids; assumption). subst e0. left.
           destruct (C e (enrich e o) He (Map_set_bound _ _ _ (Hkeys e He)))
             as [[it [Hit [Hf Hin]]]|[Hno Hin]].
           ++ exists it. split; [now right|]. auto.
           ++ exists o. split; [now left|]. auto.
        -- assert (Hv1 : In (id e, v) (JS.Map_set (id e0) (enrich e0 o) m))
             by (apply Map_set_other; assumption).
           destruct (C e v He Hv1) as [[it [Hit [Hf Hin]]]|[Hno Hin]].
           ++ left. exists it. split; [now right|]. auto.
           ++ right. split; [|exact Hin]. intros it [Hit|Hit].
              ** injection Hit as <-. rewrite E. intros Heq. injection Heq as ->.
                 now apply Nid.
              ** apply Hno, Hit.
      * intros Hm. apply W, Map_set_keyed; [reflexivity|exact Hm].
    + destruct (IH m m' Hkeys H) as [K [U [C W]]].
      split; [exact K|]. split; [exact U|]. split; [|exact W].
      intros e v He Hv. destruct (C e v He Hv) as [[it [Hit [Hf Hin]]]|[Hno Hin]].
      * left. exists it. split; [now right|]. auto.
      * right. split; [|exact Hin]. intros it [Hit|Hit].
        -- injection Hit as <-. rewrite E. discriminate.
        -- apply Hno, Hit.
Qed.

Lemma merge_outcome_effect (o : ServiceOutcome) :
  forall m m',
    (forall e, In e B -> In (id e) (map fst m)) ->
    merge_outcome B m o = Some m' ->
    map fst m' = map fst m /\
    (forall k v, In (k, v) m -> (forall e, In e B -> id e <> k) -> In (k, v) m') /\
    (forall e v, In e B -> In (id e, v) m ->
       (exists it, In (ItemObject it) (items_of o) /\
                   find_original B (r_url it) = Some e /\
                   In (id e, enrich e it) m') \/
       ((forall it, In (ItemObject it) (items_of o) ->
                    find_original B (r_url it) <> Some e) /\
        In (id e, v) m')) /\
    (Forall keyed m -> Forall keyed m').
Proof.
  intros m m' Hkeys H.
  assert (Same : m' = m ->
                 map fst m' = map fst m /\
                 (forall k v, In (k, v) m -> (forall e, In e B -> id e <> k) -> In (k, v) m') /\
                 (forall e v, In e B -> In (id e, v) m ->
                    (exists it, In (ItemObject it) [] /\
                                find_original B (r_url it) = Some e /\
                                In (id e, enrich e it) m') \/
                    ((forall it, In (ItemObject it) [] ->
                                 find_original B (r_url it) <> Some e) /\
                     In (id e, v) m')) /\
                 (Forall keyed m -> Forall keyed m')).
  { intros ->. split; [reflexivity|]. split; [auto|]. split; [|auto].
    intros e v _ Hv. right. split; [intros it []|exact Hv]. }
  destruct o as [|[| |[|[| |items]]]]; simpl in H; try discriminate.
  - apply Same. congruence.
  - apply Same. congruence.
  - apply merge_items_effect; assumption.
Qed.

End OneBatch.

Lemma merge_batches_effect (done : list (list BookmarkItem)) :
  forall (outcomes : list ServiceOutcome) (m m' : JS.Map BookmarkItem),
    List.length outcomes = List.length done ->
    NoDup (map id (List.concat done)) ->
    (forall B e, In B done -> In e B -> In (id e) (map fst m)) ->
    merge_batches m done outcomes = Some m' ->
    map fst m' = map fst m /\
    (forall k v, In (k, v) m ->
                 (forall B e, In B done -> In e B -> id e <> k) -> In (k, v) m') /\
    (forall B o e, In (B, o) (combine done outcomes) -> In e B -> In (id e, e) m ->
       (exists it, In (ItemObject it) (items_of o) /\
                   find_original B (r_url it) = Some e /\
                   In (id e, enrich e it) m') \/
       ((forall it, In (ItemObject it) (items_of o) ->
                    find_original B (r_url it) <> Some e) /\
        In (id e, e) m')) /\
    (Forall keyed m -> Forall keyed m').
Proof.
  induction done as [|B1 done IH]; intros outcomes m m' Hlen Hnd Hkeys H.
  - simpl in H. injection H as <-.
    split; [reflexivity|]. split; [auto|]. split; [|auto]. intros B o e [].
  - destruct outcomes as [|o1 outcomes]; [discriminate|]. simpl in H.
    destruct (merge_outcome B1 m o1) as [m1|] eqn:E1; [|discriminate].
    simpl in Hnd. rewrite map_app in Hnd.
    apply NoDup_app_inv in Hnd. destruct Hnd as [Hnd1 [Hnd' Hdisj]].
    assert (Hinj : forall e1 e2, In e1 B1 -> In e2 B1 -> id e1 = id e2 -> e1 = e2).
    { intros e1 e2 H1 H2 Eid. apply (NoDup_map_injective id B1); assumption. }
    destruct (merge_outcome_effect B1 Hinj o1 m m1
                (fun e He => Hkeys B1 e (or_introl eq_refl) He) E1)
      as [K1 [U1 [C1 W1]]].
    assert (Hkeys' : forall B e, In B done -> In e B -> In (id e) (map fst m1)).
    { intros B e HB He. rewrite K1. apply (Hkeys B e); [now right|exact He]. }
    destruct (IH outcomes m1 m' (eq_add_S _ _ Hlen) Hnd' Hkeys' H) as [K [U [C W]]].
    assert (Hapart : forall e1 B e, In e1 B1 -> In B done -> In e B -> id e <> id e1).
    { intros e1 B e H1 HB He Eid. apply (Hdisj (id e1)).
      - now apply in_map.
      - rewrite <- Eid. apply in_map. eapply In_concat_batch; eassumption. }
    split; [congruence|]. split; [|split].
    + intros k v Hv Hk. apply U.
      * apply U1; [exact Hv|]. intros e He. apply (Hk B1); [now left|exact He].
      * intros B e HB He. apply (Hk B); [now right|exact He].
    + intros B o e [Hin|Hin] He Hv.
      * injection Hin as <- <-.
        destruct (C1 e e He Hv) as [[it [Hit [Hf Hin1]]]|[Hno Hin1]].
        -- left. exists it. split; [exact Hit|]. split; [exact Hf|].
           apply U; [exact Hin1|]. intros B e' HB He'. now apply (Hapart e B e').
        -- right. split; [exact Hno|].
           apply U; [exact Hin1|]. intros B e' HB He'. now apply (Hapart e B e').
      * pose proof (in_combine_l _ _ _ _ Hin) as HB.
        apply C; [exact Hin|exact He|].
        apply U1; [exact Hv|]. intros e1 H1 Eid. apply (Hapart e1 B e); auto.
    + intros Hm. apply W, W1, Hm.
Qed.

Lemma calls_next_batch (s : App) m (batches : list (list BookmarkItem)) :
  calls (next_batch s m batches) = calls s + List.length (firstn 1 batches) /\
  alerts (next_batch s m batches) = alerts s.
Proof.
  unfold calls, alerts. destruct batches as [|b rest]; simpl.
  - split; [lia|reflexivity].
  - rewrite !filter_app, !length_app. simpl. split; lia.
Qed.

Lemma exec_done (failed : list BookmarkItem) (rest : list (list BookmarkItem))
      (done : list (list BookmarkItem)) :
  forall (outcomes : list ServiceOutcome) (s : App) m first others,
    List.length outcomes = List.length done ->
    Forall (fun o => hard_failure o = false) outcomes ->
    pending s = Some {| updatedBookmarksMap := m; batch := first; remaining := others |} ->
    first :: others = done ++ failed :: rest ->
    exists m',
      merge_batches m done outcomes = Some m' /\
      pending (exec s (map ServiceSettles outcomes))
      = Some {| updatedBookmarksMap := m'; batch := failed; remaining := rest |} /\
      bookmarks (exec s (map ServiceSettles outcomes))
      = match done with [] => bookmarks s | _ => JS.Map_values m' end /\
      calls (exec s (map ServiceSettles outcomes)) = calls s + List.length done /\
      alerts (exec s (map ServiceSettles outcomes)) = alerts s.
Proof.
  induction done as [|B1 done IH]; intros outcomes s m first others Hlen Hgood Hp Hq.
  - destruct outcomes; [|discriminate]. simpl in Hq. injection Hq as -> ->.
    exists m. simpl. repeat split; auto.
  - destruct outcomes as [|o1 outcomes]; [discriminate|].
    simpl in Hq. injection Hq as -> ->.
    inversion Hgood as [|? ? Ho1 Hgood']; subst.
    destruct (step_settles_good s _ o1 Hp Ho1) as [m1 [Hm1 Hstep]].
    cbn [remaining batch updatedBookmarksMap] in Hm1, Hstep.
    destruct (done ++ failed :: rest) as [|hd tl] eqn:Eq;
      [destruct done; discriminate|].
    cbn [next_batch bookmarks isProcessing pending effects] in Hstep.
    assert (Hp1 : pending (step s (ServiceSettles o1))
                  = Some {| updatedBookmarksMap := m1; batch := hd; remaining := tl |})
      by (rewrite Hstep; reflexivity).
    destruct (IH outcomes (step s (ServiceSettles o1)) m1 hd tl
                (eq_add_S _ _ Hlen) Hgood' Hp1 eq_refl)
      as [m' [Hm' [Hpend [Hbooks [Hcalls Halerts]]]]].
    exists m'. simpl merge_batches. rewrite Hm1.
    change (exec s (map ServiceSettles (o1 :: outcomes)))
      with (exec (step s (ServiceSettles o1)) (map ServiceSettles outcomes)).
    split; [exact Hm'|]. split; [exact Hpend|]. split; [|split].
    + rewrite Hbooks. destruct done; [|reflexivity].
      simpl in Hm'. injection Hm' as <-. rewrite Hstep. reflexivity.
    + rewrite Hcalls, Hstep. unfold calls. simpl.
      rewrite filter_app, length_app. simpl. lia.
    + rewrite Halerts, Hstep. unfold alerts. simpl.
      rewrite filter_app, length_app. simpl. lia.
Qed.

Lemma exec_app (s : App) (es1 es2 : list Event) :
  exec s (es1 ++ es2) = exec (exec s es1) es2.
Proof. apply fold_left_app. Qed.

Lemma exec_one (s : App) (e : Event) : exec s [e] = step s e.
Proof. reflexivity. Qed.

Lemma click_starts (catalog : list BookmarkItem) first others :
  make_batches (unprocessed_of catalog) = first :: others ->
  step (start catalog) ClickProcess
  = {| bookmarks := catalog; isProcessing := true;
       pending := Some {| updatedBookmarksMap :=
                            JS.Map_of (map (fun b => (id b, b)) catalog);
                          batch := first; remaining := others |};
       effects := [GenerateContent (batchInput first)] |}.
Proof.
  intros H. simpl. unfold processUnprocessedBookmarks. simpl bookmarks.
  destruct (unprocessed_of catalog) as [|u us] eqn:Eu; [discriminate|].
  simpl List.length. simpl Nat.eqb. cbv iota. rewrite H. reflexivity.
Qed.

(** C3 (amended).  A run over a catalog with distinct ids, without
    interleaved events, in which the outcomes of the first k-1 batches are
    accepted and the k-th is a hard failure: k service calls are made and no
    more, one alert is raised, the run is over; the catalog holds the same
    ids in the same order; each entry of batches 1..k-1 is in it enriched
    with [processed = true] from a response item of its own batch that
    correlates to it by url, or unchanged when its batch's response has no
    such item; every entry of batches k..n is in it unchanged, with
    [processed = false]. *)
Theorem partial_failure_durability
    (catalog : list BookmarkItem)
    (done : list (list BookmarkItem)) (failed : list BookmarkItem)
    (rest : list (list BookmarkItem))
    (outcomes : list ServiceOutcome) (failure : ServiceOutcome) :
  NoDup (map id catalog) ->
  make_batches (unprocessed_of catalog) = done ++ failed :: rest ->
  List.length outcomes = List.length done ->
  Forall (fun o => hard_failure o = false) outcomes ->
  hard_failure failure = true ->
  let s := run_with catalog (outcomes ++ [failure]) in
  calls s = S (List.length done) /\
  alerts s = 1 /\
  pending s = None /\
  isProcessing s = false /\
  map id (bookmarks s) = map id catalog /\
  (forall B o e, In (B, o) (combine done outcomes) -> In e B ->
                 committed B o e (bookmarks s) /\
                 forall it, processed (enrich e it) = true) /\
  (forall B e, In B (failed :: rest) -> In e B ->
               In e (bookmarks s) /\ processed e = false).
Proof.
  intros Hids Hbatches Hlen Hgood Hbad. cbv zeta.
  set (m0 := JS.Map_of (map (fun b => (id b, b)) catalog)).
  assert (Em0 : m0 = map (fun b => (id b, b)) catalog).
  { apply Map_of_distinct. rewrite map_map. exact Hids. }
  assert (Hk0 : map fst m0 = map id catalog) by (rewrite Em0; apply map_map).
  assert (Hkeyed0 : Forall keyed m0).
  { rewrite Em0. apply Forall_forall. intros kv H. apply in_map_iff in H.
    destruct H as [b [<- _]]. reflexivity. }
  assert (Hv0 : JS.Map_values m0 = catalog).
  { rewrite Em0. unfold JS.Map_values. rewrite map_map. apply map_id. }
  (* the batches partition the unprocessed entries *)
  assert (Hcat : List.concat done ++ List.concat (failed :: rest)
                 = unprocessed_of catalog).
  { rewrite <- concat_app, <- Hbatches. unfold make_batches.
    rewrite batches_loop_concat by lia. reflexivity. }
  assert (Hnd : NoDup (map id (List.concat done) ++ map id (List.concat (failed :: rest)))).
  { rewrite <- map_app, Hcat. apply distinct_keys_filter, Hids. }
  apply NoDup_app_inv in Hnd. destruct Hnd as [Hnd1 [_ Hdisj]].
  assert (Hsub : forall B e, In B (done ++ failed :: rest) -> In e B ->
                             In e catalog /\ processed e = false).
  { intros B e HB He.
    assert (Hin : In e (unprocessed_of catalog)).
    { apply (In_make_batches _ B); [rewrite Hbatches; exact HB|exact He]. }
    apply filter_In in Hin. destruct Hin as [Hin Hp].
    apply negb_true_iff in Hp. auto. }
  assert (Hbound : forall e, In e catalog -> In (id e, e) m0).
  { intros e He. rewrite Em0. apply in_map_iff. exists e. auto. }
  (* the click, then the accepted outcomes, then the failure *)
  destruct (done ++ failed :: rest) as [|first others] eqn:Eq;
    [destruct done; discriminate|].
  unfold run_with.
  change (exec (start catalog) (ClickProcess :: map ServiceSettles (outcomes ++ [failure])))
    with (exec (step (start catalog) ClickProcess)
               (map ServiceSettles (outcomes ++ [failure]))).
  rewrite (click_starts catalog first others Hbatches). fold m0.
  set (s0 := {| bookmarks := catalog; isProcessing := true;
                pending := Some {| updatedBookmarksMap := m0; batch := first;
                                   remaining := others |};
                effects := [GenerateContent (batchInput first)] |}).
  destruct (exec_done failed rest done outcomes s0 m0 first others
              Hlen Hgood eq_refl (eq_sym Eq))
    as [m' [Hm' [Hpend [Hbooks [Hcalls Halerts]]]]].
  rewrite map_app, exec_app.
  change (map ServiceSettles [failure]) with [ServiceSettles failure].
  rewrite exec_one.
  rewrite (step_settles_bad _ _ failure Hpend Hbad).
  assert (Hkeys : forall B e, In B done -> In e B -> In (id e) (map fst m0)).
  { intros B e HB He. rewrite Hk0. apply in_map.
    apply (Hsub B e); [rewrite <- Eq; apply in_or_app; now left|exact He]. }
  destruct (merge_batches_effect done outcomes m0 m' Hlen Hnd1 Hkeys Hm')
    as [K [U [C W]]].
  assert (Hfinal : bookmarks (exec s0 (map ServiceSettles outcomes)) = JS.Map_values m').
  { rewrite Hbooks. destruct done; [|reflexivity].
    simpl in Hm'. injection Hm' as <-. simpl. symmetry. exact Hv0. }
  cbn [bookmarks pending isProcessing]. rewrite Hfinal.
  split; [|split; [|split; [reflexivity|split; [reflexivity|split; [|split]]]]].
  - unfold calls in *. cbn [effects]. rewrite filter_app, length_app, Hcalls.
    simpl. lia.
  - unfold alerts in *. cbn [effects]. rewrite filter_app, length_app, Halerts.
    simpl. lia.
  - rewrite (keyed_values m' (W Hkeyed0)). congruence.
  - intros B o e Hin He. split; [|reflexivity].
    pose proof (in_combine_l _ _ _ _ Hin) as HB.
    assert (Hcatalog : In e catalog).
    { apply (Hsub B e); [rewrite <- Eq; apply in_or_app; now left|exact He]. }
    destruct (C B o e Hin He (Hbound e Hcatalog)) as [[it [Hit [Hf Hv]]]|[Hno Hv]].
    + left. exists it. split; [exact Hit|]. split; [exact Hf|].
      eapply In_Map_values, Hv.
    + right. split; [exact Hno|]. eapply In_Map_values, Hv.
  - intros B e HB He.
    destruct (Hsub B e) as [Hcatalog Hproc];
      [rewrite <- Eq; apply in_or_app; now right|exact He|].
    split; [|exact Hproc].
    apply (In_Map_values m' (id e)). apply U; [apply Hbound, Hcatalog|].
    intros B' e' HB' He' Eid. apply (Hdisj (id e)).
    + rewrite <- Eid. apply in_map. eapply In_concat_batch; eassumption.
    + apply in_map. eapply In_concat_batch; eassumption.
Qed.

(** C3 when batch 2 of 3 fails: 21 entries, the first answer correlates to
    entry "a" only, the second call is rejected. *)
Lemma partial_failure_durability_witness :
  let s := run_with (sample_catalog 21)
             [answer [ItemObject (mkItem (Some "A") (Some "Frontend") (Some "A site")
                                         (Some ["x"]))];
              Rejected] in
  calls s = 2 /\ alerts s = 1 /\ pending s = None /\ isProcessing s = false /\
  map id (bookmarks s) = map id (sample_catalog 21).
Proof.
  pose (catalog := sample_catalog 21).
  destruct (partial_failure_durability catalog
              [JS.slice 0 10 catalog] (JS.slice 10 20 catalog) [JS.slice 20 30 catalog]
              [answer [ItemObject (mkItem (Some "A") (Some "Frontend") (Some "A site")
                                          (Some ["x"]))]]
              Rejected)
    as [H1 [H2 [H3 [H4 [H5 _]]]]].
  - apply distinctb_NoDup. reflexivity.
  - reflexivity.
  - reflexivity.
  - constructor; [reflexivity|constructor].
  - reflexivity.
  - repeat split; assumption.
Defined.

(** C3 as stated fails: the first of two batches gets an answer without
    items, the second call is rejected; the run has merged and committed
    batch 1, yet none of its entries is processed. *)
Lemma partial_failure_durability_counterexample :
  let s := run_with (sample_catalog 11) [answer []; Rejected] in
  hard_failure (answer []) = false /\
  hard_failure Rejected = true /\
  alerts s = 1 /\
  map id (bookmarks s) = map id (sample_catalog 11) /\
  Forall (fun b => processed b = false) (bookmarks s).
Proof.
  repeat split. simpl. repeat constructor.
Qed.

(** ** Deleting during a run *)

(** The commit after a batch writes the values of the run's own map, whatever
    the catalog holds at that moment. *)
Lemma commit_ignores_catalog (s : App) (r : Run) (o : ServiceOutcome) (current : list BookmarkItem) :
  pending s = Some r -> hard_failure o = false ->
  bookmarks
    (step {| bookmarks := current; isProcessing := isProcessing s;
             pending := pending s; effects := effects s |} (ServiceSettles o))
  = bookmarks (step s (ServiceSettles o)).
Proof.
  intros Hr Ho.
  destruct (step_settles_good s r o Hr Ho) as [m [Hm ->]].
  destruct (step_settles_good
              {| bookmarks := current; isProcessing := isProcessing s;
                 pending := pending s; effects := effects s |} r o Hr Ho)
    as [m' [Hm' ->]].
  assert (m' = m) by congruence. subst m'.
  destruct (remaining r); reflexivity.
Qed.

Lemma bookmarks_next_batch (s : App) m (batches : list (list BookmarkItem)) :
  bookmarks (next_batch s m batches) = bookmarks s.
Proof. destruct batches; reflexivity. Qed.

(** Whatever the catalog (with distinct ids), the entry and the accepted
    outcome: an entry deleted while the first batch is awaited is back in the
    catalog once that batch is committed. *)
Lemma deleted_entry_returns (catalog : list BookmarkItem) (i : string) (o : ServiceOutcome) :
  NoDup (map id catalog) ->
  In i (map id catalog) ->
  unprocessed_of catalog <> [] ->
  hard_failure o = false ->
  let s1 := exec (start catalog) [ClickProcess; Delete i] in
  let s2 := step s1 (ServiceSettles o) in
  ~ In i (map id (bookmarks s1)) /\
  map id (bookmarks s2) = map id catalog /\
  alerts s2 = 0.
Proof.
  intros Hids Hi Hne Ho.
  destruct (make_batches (unprocessed_of catalog)) as [|first others] eqn:Eb.
  { exfalso. apply Hne.
    pose proof (batches_loop_concat (List.length (unprocessed_of catalog)) 0
                  (unprocessed_of catalog) (Nat.le_add_r _ _)) as Hc.
    fold (make_batches (unprocessed_of catalog)) in Hc. rewrite Eb in Hc.
    symmetry. exact Hc. }
  cbv zeta.
  change (exec (start catalog) [ClickProcess; Delete i])
    with (step (step (start catalog) ClickProcess) (Delete i)).
  rewrite (click_starts catalog first others Eb).
  set (m0 := JS.Map_of (map (fun b => (id b, b)) catalog)).
  set (s0 := {| bookmarks := catalog; isProcessing := true;
                pending := Some {| updatedBookmarksMap := m0; batch := first;
                                   remaining := others |};
                effects := [GenerateContent (batchInput first)] |}).
  set (s1 := {| bookmarks := deleteBookmark i catalog; isProcessing := true;
                pending := Some {| updatedBookmarksMap := m0; batch := first;
                                   remaining := others |};
                effects := [GenerateContent (batchInput first)] |}).
  change (step s0 (Delete i)) with s1.
  assert (Em0 : m0 = map (fun b => (id b, b)) catalog).
  { apply Map_of_distinct. rewrite map_map. exact Hids. }
  assert (Hfirst : forall e, In e first -> In e catalog).
  { intros e He.
    assert (Hin : In e (unprocessed_of catalog)).
    { apply (In_make_batches _ first); [rewrite Eb; now left|exact He]. }
    apply filter_In in Hin. tauto. }
  destruct (step_settles_good s1 _ o eq_refl Ho) as [m [Hm Hstep]].
  cbn [batch updatedBookmarksMap remaining] in Hm, Hstep.
  destruct (merge_outcome_effect first
              (fun e1 e2 H1 H2 E =>
                 NoDup_map_injective id catalog e1 e2 Hids (Hfirst e1 H1) (Hfirst e2 H2) E)
              o m0 m) as [K [_ [_ W]]].
  { intros e He. rewrite Em0, map_map. apply in_map, Hfirst, He. }
  { exact Hm. }
  split; [|split].
  - intros Hin. apply in_map_iff in Hin. destruct Hin as [b [Eid Hb]].
    apply filter_In in Hb. destruct Hb as [_ Hb].
    rewrite <- Eid, String.eqb_refl in Hb. discriminate.
  - rewrite Hstep, bookmarks_next_batch. cbn [bookmarks].
    rewrite keyed_values.
    + rewrite K, Em0. apply map_map.
    + apply W. rewrite Em0. apply Forall_forall. intros kv H.
      apply in_map_iff in H. destruct H as [b [<- _]]. reflexivity.
  - rewrite Hstep. rewrite (proj2 (calls_next_batch _ m others)). reflexivity.
Qed.

(** C1.  Deleting during a run raises no error, but the deleted entry comes
    back: the commit that follows a settled batch rewrites the catalog from
    the map built when the run started.  Entry "a" of a two-entry catalog is
    deleted while its batch is awaited, entry "k" of an eleven-entry catalog
    while an earlier batch is awaited; each is absent after the delete and
    present again after the next commit, and no alert is raised. *)
Theorem delete_during_run_resurrects :
  (let s1 := exec (start (sample_catalog 2)) [ClickProcess; Delete "a"] in
   let s2 := step s1 (ServiceSettles
                        (answer [ItemObject (mkItem (Some "B") (Some "Backend")
                                                    (Some "B site") (Some ["x"]))])) in
   map id (bookmarks s1) = ["b"] /\
   map id (bookmarks s2) = ["a"; "b"] /\
   alerts s2 = 0) /\
  (let s1 := exec (start (sample_catalog 11)) [ClickProcess; Delete "k"] in
   let s2 := step s1 (ServiceSettles (answer [])) in
   let s3 := step s2 (ServiceSettles (answer [])) in
   ~ In "k" (map id (bookmarks s1)) /\
   In "k" (map id (bookmarks s2)) /\
   In "k" (map id (bookmarks s3)) /\
   pending s3 = None /\
   alerts s3 = 0).
Proof.
  split.
  - repeat split.
  - repeat split.
    + simpl. intros H. repeat (destruct H as [H|H]; [discriminate|]). exact H.
    + simpl. tauto.
    + simpl. tauto.
Qed.

(** * Further properties of the code *)

(** ** More on lists *)

Lemma filter_swap {A : Type} (p q : A -> bool) (l : list A) :
  filter p (filter q l) = filter q (filter p l).
Proof.
  induction l as [|x l IH]; simpl; [reflexivity|].
  destruct (p x) eqn:Ep, (q x) eqn:Eq; simpl; rewrite ?Ep, ?Eq, IH; reflexivity.
Qed.

Lemma filter_twice {A : Type} (p : A -> bool) (l : list A) :
  filter p (filter p l) = filter p l.
Proof.
  induction l as [|x l IH]; simpl; [reflexivity|].
  destruct (p x) eqn:Ep; simpl; rewrite ?Ep, IH; reflexivity.
Qed.

Lemma filter_length_le {A : Type} (p : A -> bool) (l : list A) :
  List.length (filter p l) <= List.length l.
Proof.
  induction l as [|x l IH]; simpl; [lia|]. destruct (p x); simpl; lia.
Qed.

Lemma filter_of_map {A B : Type} (f : A -> B) (q : B -> bool) (l : list A) :
  map f (filter (fun x => q (f x)) l) = filter q (map f l).
Proof.
  induction l as [|x l IH]; simpl; [reflexivity|].
  destruct (q (f x)); simpl; now rewrite IH.
Qed.

Lemma filter_weaker_Subsequence {A : Type} (p q : A -> bool) (l : list A) :
  (forall x, p x = true -> q x = true) ->
  Subsequence (filter p l) (filter q l).
Proof.
  intros Hpq. induction l as [|x l IH]; simpl; [apply Subsequence_nil|].
  destruct (p x) eqn:Ep.
  - rewrite (Hpq x Ep). apply Subsequence_keep, IH.
  - destruct (q x); [apply Subsequence_skip|]; exact IH.
Qed.

Lemma mapi_from_length {A B : Type} (f : nat -> A -> B) (l : list A) :
  forall k, List.length (JS.mapi_from k f l) = List.length l.
Proof.
  induction l as [|x l IH]; intros k; simpl; [reflexivity|]. now rewrite IH.
Qed.

(** ** More on imports *)

Lemma newBookmarks_fresh (links : list Anchor) (env : Env) (b : BookmarkItem) :
  In b (newBookmarks links env) -> fresh b.
Proof.
  unfold newBookmarks, JS.mapi. generalize 0 (JS.slice 0 IMPORT_LIMIT links).
  intros k l. revert k. induction l as [|a l IH]; intros k; simpl; [contradiction|].
  intros [<-|H]; [|exact (IH _ H)].
  unfold fresh. simpl. repeat split.
  destruct (String.eqb_spec (textContent a) ""); [discriminate|assumption].
Qed.

Lemma slice_limit {A : Type} (l : list A) :
  JS.slice 0 IMPORT_LIMIT (firstn IMPORT_LIMIT l) = JS.slice 0 IMPORT_LIMIT l.
Proof.
  unfold JS.slice. rewrite Nat.sub_0_r. cbn [skipn].
  rewrite firstn_firstn. reflexivity.
Qed.

(** The entry the import makes of a link. *)
Lemma newBookmarks_indexed (links : list Anchor) (env : Env) :
  newBookmarks links env
  = map (fun ka : nat * Anchor =>
           {| id := generateId env (fst ka);
              title := if textContent (snd ka) =? "" then "Untitled"
                       else textContent (snd ka);
              url := href (snd ka);
              description := None; category := None; tags := None;
              processed := false; addedAt := Date_now env (fst ka) |})
        (indexed (firstn IMPORT_LIMIT links)).
Proof.
  unfold newBookmarks, JS.mapi, JS.slice, indexed.
  rewrite Nat.sub_0_r. cbn [skipn].
  generalize 0 (firstn IMPORT_LIMIT links). intros k l. revert k.
  induction l as [|a l IH]; intros k; simpl; [reflexivity|].
  now rewrite IH.
Qed.

Lemma Forall2_map_r {A B : Type} (R : A -> B -> Prop) (f : A -> B) (l : list A) :
  (forall x, R x (f x)) -> Forall2 R l (map f l).
Proof.
  intros H. induction l as [|x l IH]; simpl; constructor; auto.
Qed.

(** X1.  Whatever catalog its handler saw, the load of a file leaves the
    entries of the catalog as they are and in place, and appends at most 50
    entries, none for a link after the fiftieth: the result is the same as
    importing the first 50 links only. *)
Theorem import_appends_bounded
    (seen catalog : list BookmarkItem) (links : list Anchor) (env : Env) :
  (exists added,
      import seen catalog links env = catalog ++ added /\
      List.length added <= IMPORT_LIMIT /\
      List.length added <= List.length links) /\
  import seen catalog links env = import seen catalog (firstn IMPORT_LIMIT links) env.
Proof.
  split.
  - exists (uniqueNewBookmarks seen links env). split; [apply import_eq|].
    assert (H : List.length (uniqueNewBookmarks seen links env)
                <= List.length (JS.slice 0 IMPORT_LIMIT links)).
    { unfold uniqueNewBookmarks. cbv zeta.
      eapply Nat.le_trans; [apply filter_length_le|].
      unfold newBookmarks, JS.mapi. now rewrite mapi_from_length. }
    unfold JS.slice in H. simpl skipn in H. rewrite length_firstn in H.
    unfold IMPORT_LIMIT in *. lia.
  - rewrite !import_eq. unfold uniqueNewBookmarks, newBookmarks.
    now rewrite slice_limit.
Qed.

(** X2.  The load of a file appends one entry for each of its first 50
    links whose address is not a url of the catalog its handler saw, in
    source order (an address listed twice is appended twice).  The entry
    takes its id and time from the position of the link, its url from the
    link's address, and its title from the link's text, or is titled
    ["Untitled"] when the text is empty; it is unprocessed and has no
    category, description or tags.  The count of unprocessed entries grows
    by the number of entries appended. *)
Theorem import_adds_unknown_urls
    (seen catalog : list BookmarkItem) (links : list Anchor) (env : Env) :
  exists kept added,
    import seen catalog links env = catalog ++ added /\
    Selection (fun ka => ~ In (href (snd ka)) (map url seen))
              kept (indexed (firstn IMPORT_LIMIT links)) /\
    Forall2 (entry_of_link env) kept added /\
    unprocessedCount (import seen catalog links env)
    = unprocessedCount catalog + List.length added.
Proof.
  set (make := fun ka : nat * Anchor =>
                 {| id := generateId env (fst ka);
                    title := if textContent (snd ka) =? "" then "Untitled"
                             else textContent (snd ka);
                    url := href (snd ka);
                    description := None; category := None; tags := None;
                    processed := false; addedAt := Date_now env (fst ka) |}).
  set (unknown := fun b : BookmarkItem =>
                    negb (JS.Set_has (url b) (JS.Set_of (map url seen)))).
  exists (filter (fun ka => unknown (make ka)) (indexed (firstn IMPORT_LIMIT links))).
  exists (uniqueNewBookmarks seen links env).
  assert (E : uniqueNewBookmarks seen links env
              = map make (filter (fun ka => unknown (make ka))
                                 (indexed (firstn IMPORT_LIMIT links)))).
  { unfold uniqueNewBookmarks. cbv zeta. rewrite newBookmarks_indexed.
    symmetry. apply (filter_of_map make unknown). }
  split; [apply import_eq|]. split; [|split].
  - apply filter_Selection. intros ka. unfold unknown, make. cbn [url].
    rewrite negb_true_iff, <- (Set_of_In (map url seen)), <- Set_has_In.
    destruct (JS.Set_has (href (snd ka)) (JS.Set_of (map url seen)));
      intuition congruence.
  - rewrite E. apply Forall2_map_r. intros ka.
    unfold entry_of_link, fresh, make. cbn [id addedAt url title processed category
                                             description tags].
    destruct (String.eqb_spec (textContent (snd ka)) "") as [Et|Et].
    + repeat split; try reflexivity; [right; split; [exact Et|reflexivity]|discriminate].
    + repeat split; try reflexivity; [left; split; [exact Et|reflexivity]|exact Et].
  - rewrite import_eq. unfold unprocessedCount. rewrite filter_app, length_app.
    f_equal. f_equal. apply filter_all. intros b Hb.
    apply uniqueNewBookmarks_In in Hb. destruct Hb as [Hb _].
    apply newBookmarks_fresh in Hb. destruct Hb as [Hb _]. now rewrite Hb.
Qed.

(** The fallback title at work: of three links the second has no text and
    the third an address the handler saw. *)
Example untitled_example :
  map (fun b => (title b, url b))
      (import [sample_entry "1" "Seen" "C" None] []
              [mkAnchor "One" "A"; mkAnchor "" "B"; mkAnchor "Three" "C"] sample_env)
  = [("One", "A"); ("Untitled", "B")].
Proof. reflexivity. Qed.

(** X3.  Deleting an entry frees its url: in a catalog without repeated
    urls, a file chosen after the delete that offers the url of the deleted
    entry brings the url back as a new, unprocessed entry without
    enrichment, whatever the catalog has become when the file loads. *)
Theorem reimport_after_delete
    (catalog later : list BookmarkItem) (b : BookmarkItem)
    (links : list Anchor) (env : Env) :
  unique_urls catalog ->
  In b catalog ->
  In (url b) (candidate_urls links) ->
  ~ In (url b) (map url (deleteBookmark (id b) catalog)) /\
  exists added b',
    import (deleteBookmark (id b) catalog) later links env = later ++ added /\
    In b' added /\ url b' = url b /\ fresh b'.
Proof.
  intros Hu Hb Hl.
  assert (Hgone : ~ In (url b) (map url (deleteBookmark (id b) catalog))).
  { intros Hin. apply in_map_iff in Hin. destruct Hin as [x [Ex Hx]].
    apply filter_In in Hx. destruct Hx as [Hx Hid].
    assert (x = b) by (apply (NoDup_map_injective url catalog); assumption).
    subst x. rewrite String.eqb_refl in Hid. discriminate. }
  split; [exact Hgone|].
  exists (uniqueNewBookmarks (deleteBookmark (id b) catalog) links env).
  rewrite <- (newBookmarks_urls links env) in Hl.
  apply in_map_iff in Hl. destruct Hl as [b' [Eb' Hb']].
  exists b'. split; [apply import_eq|]. split; [|split].
  - apply uniqueNewBookmarks_In. split; [exact Hb'|]. now rewrite Eb'.
  - exact Eb'.
  - eapply newBookmarks_fresh, Hb'.
Qed.

(** X3 on a two-entry catalog whose first entry is deleted and imported
    again. *)
Lemma reimport_after_delete_witness :
  let current := deleteBookmark "a" (sample_catalog 2) in
  exists added b',
    import current current (sample_links 2) sample_env = current ++ added /\
    In b' added /\ url b' = "A" /\ fresh b'.
Proof.
  destruct (reimport_after_delete (sample_catalog 2)
              (deleteBookmark "a" (sample_catalog 2))
              (mkBookmark "a" "Site" "A" None None None false 0)
              (sample_links 2) sample_env) as [_ H].
  - apply distinctb_NoDup. reflexivity.
  - simpl. tauto.
  - simpl. tauto.
  - exact H.
Defined.

(** X18.  The load of a file checks its links against the catalog of the
    render in which the file was chosen and appends to the catalog of the
    load: a url the file offers that was not in the first but is in the
    second, because it was imported or restored by a commit in between, is
    in the catalog at least twice afterwards. *)
Theorem stale_import_repeats_url
    (seen catalog : list BookmarkItem) (links : list Anchor) (env : Env) (u : string) :
  In u (candidate_urls links) ->
  ~ In u (map url seen) ->
  In u (map url catalog) ->
  2 <= count_occ string_dec (map url (import seen catalog links env)) u.
Proof.
  intros Hoffer Hunseen Hnow.
  rewrite import_eq, map_app, count_occ_app.
  assert (H1 : 0 < count_occ string_dec (map url catalog) u)
    by (apply count_occ_In, Hnow).
  assert (H2 : 0 < count_occ string_dec
                     (map url (uniqueNewBookmarks seen links env)) u).
  { apply count_occ_In.
    rewrite <- (newBookmarks_urls links env) in Hoffer.
    apply in_map_iff in Hoffer. destruct Hoffer as [b [E Hb]].
    apply in_map_iff. exists b. split; [exact E|].
    apply uniqueNewBookmarks_In. subst u. split; assumption. }
  lia.
Qed.

(** X18 on the page: the same file is chosen twice before it loads. *)
Lemma stale_import_repeats_url_witness :
  let once :=
    turns (opened []) [FileChosen (Some (sample_links 1));
                       FileChosen (Some (sample_links 1));
                       FileLoaded 0 sample_env] in
  let twice := turn once (FileLoaded 0 later_env) in
  catalog_of twice = import [] (catalog_of once) (sample_links 1) later_env /\
  2 <= count_occ string_dec (map url (catalog_of twice)) "A".
Proof.
  cbv zeta. split; [reflexivity|].
  apply (stale_import_repeats_url [] (sample_catalog 1) (sample_links 1) later_env "A").
  - left. reflexivity.
  - intros [].
  - left. reflexivity.
Defined.

(** ** More on deleting *)

(** X4.  Deleting the same id twice is deleting it once, deletes of two ids
    can be made in either order, and a delete commutes with the filtered
    view: the view of the catalog after the delete is the view before it
    without the deleted entry.  A delete never raises the count of
    unprocessed entries. *)
Theorem deleteBookmark_composes
    (toLowerCase : string -> string)
    (i j : string) (catalog : list BookmarkItem) (searchQuery filterCategory : string) :
  deleteBookmark i (deleteBookmark i catalog) = deleteBookmark i catalog /\
  deleteBookmark i (deleteBookmark j catalog) = deleteBookmark j (deleteBookmark i catalog) /\
  filteredBookmarks toLowerCase (deleteBookmark i catalog) searchQuery filterCategory
  = deleteBookmark i (filteredBookmarks toLowerCase catalog searchQuery filterCategory) /\
  unprocessedCount (deleteBookmark i catalog) <= unprocessedCount catalog.
Proof.
  unfold deleteBookmark, filteredBookmarks, unprocessedCount. repeat split.
  - apply filter_twice.
  - apply filter_swap.
  - apply filter_swap.
  - rewrite filter_swap. apply filter_length_le.
Qed.

(** ** One call at a time *)

Lemma calls_snoc (l : list Effect) (e : Effect) :
  List.length (filter is_call (l ++ [e]))
  = List.length (filter is_call l) + (if is_call e then 1 else 0) /\
  List.length (filter is_alert (l ++ [e]))
  = List.length (filter is_alert l) + (if is_alert e then 1 else 0).
Proof.
  rewrite !filter_app, !length_app. simpl.
  destruct e; simpl; split; reflexivity.
Qed.

Lemma sequential_step (s : App) (n : nat) (e : Event) :
  sequential s n ->
  sequential (step s e) (n + (if is_settling e then 1 else 0)).
Proof.
  unfold sequential, in_flight, calls, alerts. intros [Hbusy [Hcalls Halerts]].
  destruct e as [seen links env|i| |o]; simpl.
  - rewrite Nat.add_0_r. auto.
  - rewrite Nat.add_0_r. auto.
  - rewrite Nat.add_0_r. destruct (isProcessing s) eqn:Ep; [rewrite Ep; auto|].
    unfold processUnprocessedBookmarks.
    destruct (List.length (unprocessed_of (bookmarks s)) =? 0)%nat;
      [rewrite Ep; auto|].
    destruct (pending s) as [r|] eqn:Er; [discriminate Hbusy|].
    destruct (make_batches (unprocessed_of (bookmarks s))) as [|b rest]; simpl.
    + repeat split; lia.
    + destruct (calls_snoc (effects s) (GenerateContent (batchInput b))) as [-> ->].
      simpl. repeat split; lia.
  - destruct (pending s) as [r|] eqn:Er.
    + unfold resume.
      destruct (merge_outcome (batch r) (updatedBookmarksMap r) o) as [m|].
      * destruct (remaining r) as [|b rest]; simpl.
        -- repeat split; lia.
        -- destruct (calls_snoc (effects s) (GenerateContent (batchInput b))) as [-> ->].
           simpl. repeat split; [exact Hbusy|lia|lia].
      * simpl. destruct (calls_snoc (effects s) Alert) as [-> ->].
        simpl. repeat split; lia.
    + rewrite Er. repeat split; [exact Hbusy|lia|lia].
Qed.

Lemma sequential_exec (es : list Event) :
  forall (s : App) (n : nat),
    sequential s n -> sequential (exec s es) (n + settlings es).
Proof.
  unfold exec, settlings. induction es as [|e es IH]; intros s n H; simpl.
  - now rewrite Nat.add_0_r.
  - apply (sequential_step s n e) in H. apply IH in H.
    destruct (is_settling e); simpl; [|now rewrite Nat.add_0_r in H].
    now rewrite <- Nat.add_assoc in H.
Qed.

(** X5.  Whatever the catalog at start and whatever the events, in any
    order: the busy flag is set exactly while a service call is awaited; a
    call is made only after the previous one was answered, so the calls made
    never exceed the answers received by more than the one call in flight;
    and there are never more alerts than answers. *)
Theorem one_call_at_a_time (catalog : list BookmarkItem) (events : list Event) :
  let s := exec (start catalog) events in
  isProcessing s = match pending s with Some _ => true | None => false end /\
  calls s <= settlings events + in_flight s /\
  alerts s <= settlings events.
Proof.
  apply (sequential_exec events (start catalog) 0).
  unfold sequential, in_flight, calls, alerts. simpl. repeat split; lia.
Qed.

(** ** Runs that are accepted to the end *)

Lemma combine_has_right {A B : Type} (l1 : list A) :
  forall (l2 : list B) (x : A),
    List.length l1 = List.length l2 -> In x l1 -> exists y, In (x, y) (combine l1 l2).
Proof.
  induction l1 as [|a l1 IH]; intros l2 x Hlen Hx; [contradiction|].
  destruct l2 as [|b l2]; [discriminate|]. simpl in *. destruct Hx as [->|Hx].
  - exists b. now left.
  - destruct (IH l2 x (eq_add_S _ _ Hlen) Hx) as [y Hy]. exists y. now right.
Qed.

Lemma combine_has_left {A B : Type} (l1 : list A) :
  forall (l2 : list B) (y : B),
    List.length l1 = List.length l2 -> In y l2 -> exists x, In (x, y) (combine l1 l2).
Proof.
  induction l1 as [|a l1 IH]; intros l2 y Hlen Hy.
  - destruct l2; [contradiction|discriminate].
  - destruct l2 as [|b l2]; [contradiction|]. simpl in *. destruct Hy as [->|Hy].
    + exists a. now left.
    + destruct (IH l2 y (eq_add_S _ _ Hlen) Hy) as [x Hx]. exists x. now right.
Qed.

Lemma exec_accepted (others : list (list BookmarkItem)) :
  forall (outcomes : list ServiceOutcome) (s : App) m first,
    List.length outcomes = S (List.length others) ->
    Forall (fun o => hard_failure o = false) outcomes ->
    pending s = Some {| updatedBookmarksMap := m; batch := first; remaining := others |} ->
    exists m',
      merge_batches m (first :: others) outcomes = Some m' /\
      exec s (map ServiceSettles outcomes)
      = {| bookmarks := JS.Map_values m'; isProcessing := false; pending := None;
           effects := effects s
                      ++ map (fun b => GenerateContent (batchInput b)) others |}.
Proof.
  induction others as [|b others IH]; intros outcomes s m first Hlen Hgood Hp;
    destruct outcomes as [|o outcomes]; try discriminate;
    inversion Hgood as [|? ? Ho Hgood']; subst;
    destruct (step_settles_good s _ o Hp Ho) as [m1 [Hm1 Hstep]];
    cbn [remaining batch updatedBookmarksMap] in Hm1, Hstep;
    cbn [next_batch bookmarks isProcessing pending effects] in Hstep.
  - destruct outcomes; [|discriminate]. exists m1.
    simpl merge_batches. rewrite Hm1. split; [reflexivity|].
    change (exec s (map ServiceSettles [o])) with (step s (ServiceSettles o)).
    rewrite Hstep, app_nil_r. reflexivity.
  - assert (Hp1 : pending (step s (ServiceSettles o))
                  = Some {| updatedBookmarksMap := m1; batch := b; remaining := others |})
      by (rewrite Hstep; reflexivity).
    destruct (IH outcomes (step s (ServiceSettles o)) m1 b (eq_add_S _ _ Hlen) Hgood' Hp1)
      as [m' [Hm' Hexec]].
    exists m'. simpl merge_batches. rewrite Hm1. split; [exact Hm'|].
    change (exec s (map ServiceSettles (o :: outcomes)))
      with (exec (step s (ServiceSettles o)) (map ServiceSettles outcomes)).
    rewrite Hexec, Hstep. cbn [effects map]. now rewrite <- app_assoc.
Qed.

Lemma complete_run_state (catalog : list BookmarkItem) (outcomes : list ServiceOutcome) :
  List.length outcomes = List.length (make_batches (unprocessed_of catalog)) ->
  Forall (fun o => hard_failure o = false) outcomes ->
  exists m',
    merge_batches (JS.Map_of (map (fun b => (id b, b)) catalog))
                  (make_batches (unprocessed_of catalog)) outcomes = Some m' /\
    run_with catalog outcomes
    = {| bookmarks := match make_batches (unprocessed_of catalog) with
                      | [] => catalog
                      | _ => JS.Map_values m'
                      end;
         isProcessing := false; pending := None;
         effects := map (fun b => GenerateContent (batchInput b))
                        (make_batches (unprocessed_of catalog)) |}.
Proof.
  intros Hlen Hgood. unfold run_with.
  change (exec (start catalog) (ClickProcess :: map ServiceSettles outcomes))
    with (exec (step (start catalog) ClickProcess) (map ServiceSettles outcomes)).
  destruct (make_batches (unprocessed_of catalog)) as [|first others] eqn:Eb.
  - destruct outcomes; [|discriminate]. eexists. split; [reflexivity|].
    assert (Eu : unprocessed_of catalog = []).
    { pose proof (batches_loop_concat (List.length (unprocessed_of catalog)) 0
                    (unprocessed_of catalog) (Nat.le_add_r _ _)) as Hc.
      fold (make_batches (unprocessed_of catalog)) in Hc. rewrite Eb in Hc.
      symmetry. exact Hc. }
    simpl. unfold processUnprocessedBookmarks. simpl bookmarks. rewrite Eu. reflexivity.
  - rewrite (click_starts catalog first others Eb).
    destruct (exec_accepted others outcomes
                {| bookmarks := catalog; isProcessing := true;
                   pending := Some {| updatedBookmarksMap :=
                                        JS.Map_of (map (fun b => (id b, b)) catalog);
                                      batch := first; remaining := others |};
                   effects := [GenerateContent (batchInput first)] |}
                _ first Hlen Hgood eq_refl) as [m' [Hm' Hexec]].
    exists m'. split; [exact Hm'|]. rewrite Hexec. reflexivity.
Qed.

Lemma effects_of_calls (batches : list (list BookmarkItem)) :
  List.length (filter is_call (map (fun b => GenerateContent (batchInput b)) batches))
  = List.length batches /\
  filter is_alert (map (fun b => GenerateContent (batchInput b)) batches) = [] /\
  flat_map (fun e => match e with GenerateContent p => [p] | Alert => [] end)
           (map (fun b => GenerateContent (batchInput b)) batches)
  = map batchInput batches.
Proof.
  induction batches as [|b batches [IH1 [IH2 IH3]]]; simpl; [auto|].
  rewrite IH1, IH2, IH3. auto.
Qed.

(** X6.  A run in which every batch gets an accepted answer ends by itself:
    after ceil(N / 10) calls, N the count of unprocessed entries at the
    click, nothing is awaited any more, the busy flag is cleared and no alert
    was raised. *)
Theorem complete_run (catalog : list BookmarkItem) (outcomes : list ServiceOutcome) :
  List.length outcomes = List.length (make_batches (unprocessed_of catalog)) ->
  Forall (fun o => hard_failure o = false) outcomes ->
  let s := run_with catalog outcomes in
  pending s = None /\
  isProcessing s = false /\
  alerts s = 0 /\
  calls s = ceil_div (unprocessedCount catalog) BATCH_SIZE.
Proof.
  intros Hlen Hgood.
  destruct (complete_run_state catalog outcomes Hlen Hgood) as [m' [_ ->]].
  destruct (effects_of_calls (make_batches (unprocessed_of catalog))) as [Hc [Ha _]].
  unfold calls, alerts. cbn [pending isProcessing effects]. rewrite Hc, Ha.
  repeat split. unfold make_batches, unprocessedCount, unprocessed_of.
  rewrite batches_loop_length by lia. f_equal. lia.
Qed.

(** X6 on 21 unprocessed entries and three answers without items. *)
Lemma complete_run_witness :
  let s := run_with (sample_catalog 21) [answer []; answer []; answer []] in
  pending s = None /\ isProcessing s = false /\ alerts s = 0 /\ calls s = 3.
Proof.
  apply (complete_run (sample_catalog 21) [answer []; answer []; answer []]).
  - reflexivity.
  - repeat constructor.
Defined.

(** X7.  Over such a run the service sees exactly the unprocessed entries,
    each once and in catalog order, cut into requests of 1 to 10 items, and
    of each entry only its title and url; entries already processed are not
    sent. *)
Theorem run_payloads (catalog : list BookmarkItem) (outcomes : list ServiceOutcome) :
  List.length outcomes = List.length (make_batches (unprocessed_of catalog)) ->
  Forall (fun o => hard_failure o = false) outcomes ->
  let s := run_with catalog outcomes in
  List.concat (payloads s)
  = map (fun b => (title b, url b)) (filter (fun b => negb (processed b)) catalog) /\
  Forall (fun p => 1 <= List.length p <= BATCH_SIZE) (payloads s).
Proof.
  intros Hlen Hgood.
  destruct (complete_run_state catalog outcomes Hlen Hgood) as [m' [_ ->]].
  destruct (effects_of_calls (make_batches (unprocessed_of catalog))) as [_ [_ Hp]].
  unfold payloads. cbn [effects]. rewrite Hp. split.
  - unfold batchInput. rewrite <- concat_map. unfold make_batches.
    rewrite batches_loop_concat by lia. reflexivity.
  - apply Forall_map. eapply Forall_impl; [|apply batches_loop_sizes].
    intros b Hb. unfold batchInput. now rewrite length_map.
Qed.

(** X7 on a catalog of twelve entries of which one is already processed. *)
Lemma run_payloads_witness :
  let catalog := bookmarks (run_with (sample_catalog 12)
                              [answer [ItemObject (mkItem (Some "A") (Some "Frontend")
                                                          (Some "A site") (Some ["x"]))];
                               answer []]) in
  let s := run_with catalog [answer []; answer []] in
  List.length (List.concat (payloads s)) = 11 /\
  Forall (fun p => 1 <= List.length p <= BATCH_SIZE) (payloads s).
Proof.
  cbv zeta.
  destruct (run_payloads
              (bookmarks (run_with (sample_catalog 12)
                            [answer [ItemObject (mkItem (Some "A") (Some "Frontend")
                                                        (Some "A site") (Some ["x"]))];
                             answer []]))
              [answer []; answer []]) as [H1 H2].
  - reflexivity.
  - repeat constructor.
  - split; [rewrite H1; reflexivity|exact H2].
Defined.

Lemma binding_unique {V : Type} (m : JS.Map V) (k : string) (v v' : V) :
  NoDup (map fst m) -> In (k, v) m -> In (k, v') m -> v = v'.
Proof.
  induction m as [|[k0 v0] m IH]; simpl; intros Hnd H H'; [contradiction|].
  inversion Hnd as [|? ? Hk0 Hm]; subst.
  destruct H as [H|H], H' as [H'|H'].
  - congruence.
  - injection H as -> ->. exfalso. apply Hk0. apply in_map_iff. exists (k, v'). auto.
  - injection H' as -> ->. exfalso. apply Hk0. apply in_map_iff. exists (k, v). auto.
  - exact (IH Hm H H').
Qed.

Lemma filter_none {A : Type} (p : A -> bool) (l : list A) :
  filter p l = [] <-> forall x, In x l -> p x = false.
Proof.
  induction l as [|x l IH]; simpl.
  - split; [intros _ y []|reflexivity].
  - destruct (p x) eqn:Ep.
    + split; [discriminate|]. intros H. specialize (H x (or_introl eq_refl)). congruence.
    + rewrite IH. split.
      * intros H y [<-|Hy]; auto.
      * intros H y Hy. apply H. now right.
Qed.

Lemma find_original_unique (catalog B : list BookmarkItem) (e : BookmarkItem) :
  unique_urls catalog -> (forall x, In x B -> In x catalog) -> In e B ->
  find_original B (Some (url e)) = Some e.
Proof.
  intros Hu HB He. simpl.
  destruct (find (fun b => url b =? url e) B) as [x|] eqn:E.
  - apply find_some in E. destruct E as [Hx Ex]. apply String.eqb_eq in Ex.
    f_equal. apply (NoDup_map_injective url catalog); auto.
  - apply (find_none _ _ E) in He. rewrite String.eqb_refl in He. discriminate.
Qed.

(** X8.  When, in addition, the catalog has distinct ids and distinct urls
    and every answer names the url of each entry of its batch, the run
    leaves no entry unprocessed: the count of unprocessed entries is 0, so
    the process button is no longer offered; the catalog keeps its ids in
    order. *)
Theorem covering_run_processes_all
    (catalog : list BookmarkItem) (outcomes : list ServiceOutcome) :
  NoDup (map id catalog) ->
  unique_urls catalog ->
  List.length outcomes = List.length (make_batches (unprocessed_of catalog)) ->
  (forall B o, In (B, o) (combine (make_batches (unprocessed_of catalog)) outcomes) ->
               covers B o) ->
  let s := run_with catalog outcomes in
  unprocessedCount (bookmarks s) = 0 /\
  Forall (fun b => processed b = true) (bookmarks s) /\
  map id (bookmarks s) = map id catalog.
Proof.
  intros Hids Hurls Hlen Hcov. cbv zeta.
  assert (Hgood : Forall (fun o => hard_failure o = false) outcomes).
  { apply Forall_forall. intros o Ho.
    destruct (combine_has_left _ _ o (eq_sym Hlen) Ho) as [B HB].
    apply (Hcov B o HB). }
  assert (Hall : forall l : list BookmarkItem,
             Forall (fun b => processed b = true) l -> unprocessedCount l = 0).
  { intros l Hl. unfold unprocessedCount.
    replace (filter (fun b => negb (processed b)) l) with (@nil BookmarkItem);
      [reflexivity|].
    symmetry. apply filter_none. intros x Hx. rewrite Forall_forall in Hl.
    now rewrite (Hl x Hx). }
  destruct (complete_run_state catalog outcomes Hlen Hgood) as [m' [Hm' ->]].
  cbn [bookmarks].
  assert (Hconcat : List.concat (make_batches (unprocessed_of catalog))
                    = unprocessed_of catalog).
  { unfold make_batches. rewrite batches_loop_concat by lia. reflexivity. }
  assert (Hsub : forall B e, In B (make_batches (unprocessed_of catalog)) -> In e B ->
                             In e catalog /\ processed e = false).
  { intros B e HB He. pose proof (In_make_batches _ B e HB He) as Hin.
    apply filter_In in Hin. destruct Hin as [Hin Hp].
    apply negb_true_iff in Hp. auto. }
  destruct (make_batches (unprocessed_of catalog)) as [|first others] eqn:Eb.
  - assert (Hp : Forall (fun b => processed b = true) catalog).
    { apply Forall_forall. intros x Hx. simpl in Hconcat. symmetry in Hconcat.
      apply (proj1 (filter_none _ _) Hconcat) in Hx.
      now apply negb_false_iff in Hx. }
    auto.
  - set (batches := first :: others) in *.
    set (m0 := JS.Map_of (map (fun b => (id b, b)) catalog)) in *.
    assert (Em0 : m0 = map (fun b => (id b, b)) catalog).
    { apply Map_of_distinct. rewrite map_map. exact Hids. }
    assert (Hk0 : map fst m0 = map id catalog) by (rewrite Em0; apply map_map).
    assert (Hbound : forall e, In e catalog -> In (id e, e) m0).
    { intros e He. rewrite Em0. apply in_map_iff. exists e. auto. }
    assert (Hnd : NoDup (map id (List.concat batches))).
    { rewrite Hconcat. apply distinct_keys_filter, Hids. }
    assert (Hkeys : forall B e, In B batches -> In e B -> In (id e) (map fst m0)).
    { intros B e HB He. rewrite Hk0. apply in_map. apply (Hsub B e HB He). }
    destruct (merge_batches_effect batches outcomes m0 m' Hlen Hnd Hkeys Hm')
      as [K [U [C W]]].
    assert (Hkeyed0 : Forall keyed m0).
    { rewrite Em0. apply Forall_forall. intros kv H. apply in_map_iff in H.
      destruct H as [b [<- _]]. reflexivity. }
    assert (Hp : Forall (fun b => processed b = true) (JS.Map_values m')).
    { apply Forall_forall. intros v Hv. apply in_map_iff in Hv.
      destruct Hv as [[k v0] [Ev Hkv]]. simpl in Ev. subst v0.
      assert (Hk : In k (map id catalog)).
      { rewrite <- Hk0, <- K. apply in_map_iff. exists (k, v). auto. }
      apply in_map_iff in Hk. destruct Hk as [e [<- He]].
      assert (Hv' : exists v', In (id e, v') m' /\ processed v' = true).
      { destruct (processed e) eqn:Ep.
        - exists e. split; [|exact Ep]. apply U; [apply Hbound, He|].
          intros B e' HB He' Eid. destruct (Hsub B e' HB He') as [Hc' Hp'].
          assert (e' = e) by (apply (NoDup_map_injective id catalog); assumption).
          congruence.
        - assert (Hin : In e (List.concat batches)).
          { rewrite Hconcat. apply filter_In. now rewrite Ep. }
          apply in_concat in Hin. destruct Hin as [B [HB HeB]].
          destruct (combine_has_right _ outcomes B (eq_sym Hlen) HB) as [o Ho].
          destruct (Hcov B o Ho) as [_ Hnames].
          destruct (Hnames e HeB) as [it [Hit Hu]].
          assert (Hf : find_original B (r_url it) = Some e).
          { rewrite Hu. apply (find_original_unique catalog); auto.
            intros x Hx. apply (Hsub B x HB Hx). }
          destruct (C B o e Ho HeB (Hbound e He)) as [[it' [_ [_ Hin']]]|[Hno _]].
          + exists (enrich e it'). auto.
          + exfalso. exact (Hno it Hit Hf). }
      destruct Hv' as [v' [Hin' Hp']].
      assert (v = v'); [|now subst].
      apply (binding_unique m' (id e)); [|assumption|assumption].
      rewrite K, Hk0. exact Hids. }
    split; [apply Hall, Hp|]. split; [exact Hp|].
    rewrite (keyed_values m' (W Hkeyed0)). congruence.
Qed.

(** X8 on two entries and an answer that names both urls. *)
Lemma covering_run_processes_all_witness :
  unprocessedCount
    (bookmarks
       (run_with (sample_catalog 2)
          [answer [ItemObject (mkItem (Some "B") (Some "Backend") (Some "B site") (Some ["y"]));
                   ItemObject (mkItem (Some "A") (Some "Frontend") (Some "A site") (Some ["x"]))]]))
  = 0.
Proof.
  apply (covering_run_processes_all (sample_catalog 2)).
  - apply distinctb_NoDup. reflexivity.
  - apply distinctb_NoDup. reflexivity.
  - reflexivity.
  - intros B o [H|[]]. injection H as <- <-. split; [reflexivity|].
    intros e [<-|[<-|[]]].
    + eexists. split; [right; left; reflexivity|reflexivity].
    + eexists. split; [left; reflexivity|reflexivity].
Defined.

(** ** What a run never touches *)

Lemma Map_set_same_image {V W : Type} (h : V -> W) (k : string) (v : V) (m : JS.Map V) :
  In k (map fst m) ->
  (forall v0, In (k, v0) m -> h v0 = h v) ->
  map (fun kv => (fst kv, h (snd kv))) (JS.Map_set k v m)
  = map (fun kv => (fst kv, h (snd kv))) m.
Proof.
  induction m as [|[k0 v0] m IH]; simpl; intros Hk Hv; [contradiction|].
  destruct (String.eqb_spec k0 k) as [->|Hne]; simpl.
  - f_equal. f_equal. symmetry. apply Hv. now left.
  - f_equal. apply IH.
    + destruct Hk; [contradiction|assumption].
    + intros v1 H1. apply Hv. now right.
Qed.

Section Keeping.
Variable origin : list BookmarkItem.
Hypothesis origin_ids : NoDup (map id origin).

Lemma image_binding (m : JS.Map BookmarkItem) k v :
  map (fun kv => (fst kv, identity (snd kv))) m = map (fun e => (id e, identity e)) origin ->
  In (k, v) m -> exists e, In e origin /\ id e = k /\ identity e = identity v.
Proof.
  intros Him H.
  assert (Hin : In (k, identity v) (map (fun e => (id e, identity e)) origin)).
  { rewrite <- Him. apply in_map_iff. exists (k, v). auto. }
  apply in_map_iff in Hin. destruct Hin as [e [E He]].
  exists e. split; [exact He|]. split.
  - exact (f_equal fst E).
  - exact (f_equal snd E).
Qed.

Lemma merge_items_keeps (B : list BookmarkItem) (items : list ItemValue) :
  (forall e, In e B -> In e origin /\ processed e = false) ->
  forall m m',
    map (fun kv => (fst kv, identity (snd kv))) m = map (fun e => (id e, identity e)) origin ->
    (forall e, In e origin -> processed e = true -> In (id e, e) m) ->
    merge_items B m items = Some m' ->
    map (fun kv => (fst kv, identity (snd kv))) m' = map (fun e => (id e, identity e)) origin /\
    (forall e, In e origin -> processed e = true -> In (id e, e) m').
Proof.
  intros HB. induction items as [|it items IH]; intros m m' Him Hkept H; simpl in H.
  - injection H as <-. auto.
  - destruct it as [|o]; simpl in H; [discriminate|].
    destruct (find_original B (r_url o)) as [e0|] eqn:E; [|exact (IH m m' Him Hkept H)].
    apply find_original_In in E. destruct E as [He0 _].
    destruct (HB e0 He0) as [Horigin Hunproc].
    apply (IH (JS.Map_set (id e0) (enrich e0 o) m) m'); [| |exact H].
    + rewrite <- Him. apply Map_set_same_image.
      * assert (Hk : map fst m = map id origin).
        { pose proof (f_equal (map fst) Him) as Hf. rewrite !map_map in Hf. exact Hf. }
        rewrite Hk. now apply in_map.
      * intros v0 Hv0. destruct (image_binding m _ _ Him Hv0) as [e [He [Eid Eident]]].
        assert (e = e0) by (apply (NoDup_map_injective id origin); assumption).
        subst e. rewrite <- Eident. reflexivity.
    + intros e He Hp. apply Map_set_other; [|exact (Hkept e He Hp)].
      intros Eid.
      assert (e = e0) by (apply (NoDup_map_injective id origin); assumption).
      congruence.
Qed.

Lemma merge_outcome_keeps (B : list BookmarkItem) (o : ServiceOutcome) :
  (forall e, In e B -> In e origin /\ processed e = false) ->
  forall m m',
    map (fun kv => (fst kv, identity (snd kv))) m = map (fun e => (id e, identity e)) origin ->
    (forall e, In e origin -> processed e = true -> In (id e, e) m) ->
    merge_outcome B m o = Some m' ->
    map (fun kv => (fst kv, identity (snd kv))) m' = map (fun e => (id e, identity e)) origin /\
    (forall e, In e origin -> processed e = true -> In (id e, e) m').
Proof.
  intros HB m m' Him Hkept H.
  destruct o as [|[| |[|[| |items]]]]; simpl in H; try discriminate.
  - injection H as <-. auto.
  - injection H as <-. auto.
  - eapply merge_items_keeps; eassumption.
Qed.

Lemma values_identity (m : JS.Map BookmarkItem) :
  map (fun kv => (fst kv, identity (snd kv))) m = map (fun e => (id e, identity e)) origin ->
  map identity (JS.Map_values m) = map identity origin.
Proof.
  intros Him. unfold JS.Map_values.
  pose proof (f_equal (map snd) Him) as Hf. rewrite !map_map in Hf.
  rewrite map_map. exact Hf.
Qed.

Lemma keeps_click : keeps origin (step (start origin) ClickProcess).
Proof.
  destruct (make_batches (unprocessed_of origin)) as [|first others] eqn:Eb.
  - assert (Eu : unprocessed_of origin = []).
    { pose proof (batches_loop_concat (List.length (unprocessed_of origin)) 0
                    (unprocessed_of origin) (Nat.le_add_r _ _)) as Hc.
      fold (make_batches (unprocessed_of origin)) in Hc. rewrite Eb in Hc.
      symmetry. exact Hc. }
    simpl. unfold processUnprocessedBookmarks. simpl bookmarks. rewrite Eu. simpl.
    repeat split; auto.
  - rewrite (click_starts origin first others Eb).
    assert (Em0 : JS.Map_of (map (fun b => (id b, b)) origin)
                  = map (fun b => (id b, b)) origin).
    { apply Map_of_distinct. rewrite map_map. exact origin_ids. }
    split; [reflexivity|]. split; [auto|]. cbn [pending]. unfold run_keeps.
    cbn [updatedBookmarksMap batch remaining]. rewrite Em0. split; [|split].
    + apply map_map.
    + intros e He _. apply in_map_iff. exists e. auto.
    + intros B e HB He. rewrite <- Eb in HB.
      pose proof (In_make_batches _ B e HB He) as Hin.
      apply filter_In in Hin. destruct Hin as [Hin Hp].
      apply negb_true_iff in Hp. auto.
Qed.

Lemma keeps_settle (s : App) (o : ServiceOutcome) :
  keeps origin s -> keeps origin (step s (ServiceSettles o)).
Proof.
  intros [Hident [Hkept Hrun]]. simpl.
  destruct (pending s) as [r|] eqn:Er; [|unfold keeps; rewrite Er; auto].
  destruct Hrun as [Him [Hmk Hb]]. unfold resume.
  destruct (merge_outcome (batch r) (updatedBookmarksMap r) o) as [m'|] eqn:Em.
  - destruct (merge_outcome_keeps (batch r) o
                (fun e He => Hb (batch r) e (or_introl eq_refl) He)
                (updatedBookmarksMap r) m' Him Hmk Em) as [Him' Hmk'].
    assert (Hv : map identity (JS.Map_values m') = map identity origin)
      by (apply values_identity, Him').
    assert (Hin : forall e, In e origin -> processed e = true -> In e (JS.Map_values m')).
    { intros e He Hp. eapply In_Map_values, Hmk'; assumption. }
    destruct (remaining r) as [|b rest] eqn:Erest; simpl.
    + repeat split; auto.
    + split; [exact Hv|]. split; [exact Hin|]. split; [exact Him'|]. split; [exact Hmk'|].
      cbn [batch remaining]. intros B e HB He. apply (Hb B e); [|exact He].
      right. exact HB.
  - repeat split; auto.
Qed.

Lemma keeps_settles (outcomes : list ServiceOutcome) :
  forall s, keeps origin s -> keeps origin (exec s (map ServiceSettles outcomes)).
Proof.
  unfold exec. induction outcomes as [|o outcomes IH]; intros s H; simpl; [exact H|].
  apply IH, keeps_settle, H.
Qed.

End Keeping.

(** X9.  Over a catalog with distinct ids, a run without interleaved events
    never adds, drops or reorders an entry and never changes an id, title,
    url or addedAt, whatever the service answers and however many answers
    arrive; and an entry that was processed before the run is still in the
    catalog, unchanged. *)
Theorem run_changes_enrichment_only
    (catalog : list BookmarkItem) (outcomes : list ServiceOutcome) :
  NoDup (map id catalog) ->
  let s := run_with catalog outcomes in
  map identity (bookmarks s) = map identity catalog /\
  forall e, In e catalog -> processed e = true -> In e (bookmarks s).
Proof.
  intros Hids. cbv zeta. unfold run_with.
  change (exec (start catalog) (ClickProcess :: map ServiceSettles outcomes))
    with (exec (step (start catalog) ClickProcess) (map ServiceSettles outcomes)).
  destruct (keeps_settles catalog Hids outcomes _ (keeps_click catalog Hids))
    as [H1 [H2 _]].
  split; assumption.
Qed.

(** X9 on twelve entries: an answer for one entry, a malformed answer, and
    an answer nobody waits for. *)
Lemma run_changes_enrichment_only_witness :
  map identity
    (bookmarks
       (run_with (sample_catalog 12)
          [answer [ItemObject (mkItem (Some "A") (Some "Frontend") (Some "A site") (Some ["x"]))];
           Resolved Malformed;
           answer []]))
  = map identity (sample_catalog 12).
Proof.
  apply (run_changes_enrichment_only (sample_catalog 12)).
  apply distinctb_NoDup. reflexivity.
Defined.

(** ** Correlation by url *)

Lemma merge_outcome_items (B : list BookmarkItem) m (o : ServiceOutcome) :
  hard_failure o = false -> merge_outcome B m o = merge_items B m (items_of o).
Proof.
  destruct o as [|[| |[|[| |items]]]]; simpl; intros H; try discriminate; reflexivity.
Qed.

Lemma merge_items_app (B : list BookmarkItem) (l1 l2 : list ItemValue) :
  forall m,
    merge_items B m (l1 ++ l2)
    = match merge_items B m l1 with
      | Some m1 => merge_items B m1 l2
      | None => None
      end.
Proof.
  induction l1 as [|it l1 IH]; intros m; simpl; [reflexivity|].
  destruct (merge_item B m it); [apply IH|reflexivity].
Qed.

Lemma merge_items_keys_grow (B : list BookmarkItem) (items : list ItemValue) k :
  forall m m', merge_items B m items = Some m' ->
               In k (map fst m) -> In k (map fst m').
Proof.
  induction items as [|it items IH]; intros m m' H Hk; simpl in H.
  - now injection H as <-.
  - destruct it as [|o]; simpl in H; [discriminate|].
    destruct (find_original B (r_url o)) as [e0|]; [|exact (IH m m' H Hk)].
    apply (IH _ m' H). destruct (string_dec k (id e0)) as [->|Hne].
    + apply in_map_iff. exists (id e0, enrich e0 o). split; [reflexivity|].
      apply Map_set_bound. exact Hk.
    + apply in_map_iff in Hk. destruct Hk as [[k' v] [Ek Hkv]]. simpl in Ek. subst k'.
      apply in_map_iff. exists (k, v). split; [reflexivity|].
      now apply Map_set_other.
Qed.

Lemma merge_items_persist (B : list BookmarkItem) (items : list ItemValue) k v :
  (forall it e, In (ItemObject it) items -> find_original B (r_url it) = Some e ->
                id e <> k) ->
  forall m m', merge_items B m items = Some m' -> In (k, v) m -> In (k, v) m'.
Proof.
  induction items as [|it items IH]; intros Hno m m' H Hv; simpl in H.
  - now injection H as <-.
  - assert (Hno' : forall it' e, In (ItemObject it') items ->
                                 find_original B (r_url it') = Some e -> id e <> k).
    { intros it' e Hit. apply Hno. now right. }
    destruct it as [|o]; simpl in H; [discriminate|].
    destruct (find_original B (r_url o)) as [e0|] eqn:E; [|exact (IH Hno' m m' H Hv)].
    apply (IH Hno' _ m' H). apply Map_set_other; [|exact Hv].
    intros ->. exact (Hno o e0 (or_introl eq_refl) E eq_refl).
Qed.

Lemma merge_items_miss (B : list BookmarkItem) (items : list ItemValue) m :
  existsb is_null items = false ->
  (forall it, In (ItemObject it) items -> find_original B (r_url it) = None) ->
  merge_items B m items = Some m.
Proof.
  induction items as [|it items IH]; simpl; intros Hnull Hmiss; [reflexivity|].
  destruct it as [|o]; simpl in *; [discriminate|].
  rewrite (Hmiss o (or_introl eq_refl)). apply IH; [exact Hnull|].
  intros it Hit. apply Hmiss. now right.
Qed.

(** X10.  An accepted answer none of whose items has the url of an entry of
    the awaited batch (items for urls of other batches included) enriches
    nothing and is no error: the commit writes the run's map as it was, no
    alert is raised and the run goes on with the same map. *)
Theorem uncorrelated_answer_changes_nothing (s : App) (r : Run) (o : ServiceOutcome) :
  pending s = Some r ->
  hard_failure o = false ->
  (forall it, In (ItemObject it) (items_of o) -> find_original (batch r) (r_url it) = None) ->
  let s' := step s (ServiceSettles o) in
  bookmarks s' = JS.Map_values (updatedBookmarksMap r) /\
  alerts s' = alerts s /\
  match remaining r with
  | [] => pending s' = None
  | b :: rest =>
      pending s' = Some {| updatedBookmarksMap := updatedBookmarksMap r;
                           batch := b; remaining := rest |}
  end.
Proof.
  intros Hr Ho Hmiss. cbv zeta.
  destruct (step_settles_good s r o Hr Ho) as [m [Hm ->]].
  assert (m = updatedBookmarksMap r).
  { rewrite (merge_outcome_items _ _ _ Ho) in Hm.
    rewrite merge_items_miss in Hm; [congruence| |exact Hmiss].
    destruct o as [|[| |[|[| |items]]]]; simpl in *; try discriminate; auto. }
  subst m. rewrite bookmarks_next_batch. split; [reflexivity|].
  split; [rewrite (proj2 (calls_next_batch _ _ _)); reflexivity|].
  destruct (remaining r); reflexivity.
Qed.

(** X10 on eleven entries: the answer to the first batch names only the url
    of the eleventh entry, which is in the second batch. *)
Lemma uncorrelated_answer_changes_nothing_witness :
  let s := step (start (sample_catalog 11)) ClickProcess in
  bookmarks (step s (ServiceSettles
                       (answer [ItemObject (mkItem (Some "K") (Some "Other") (Some "K site")
                                                   (Some ["z"]))])))
  = sample_catalog 11.
Proof.
  pose (s := step (start (sample_catalog 11)) ClickProcess).
  pose (r := {| updatedBookmarksMap := JS.Map_of (map (fun b => (id b, b)) (sample_catalog 11));
                batch := JS.slice 0 10 (sample_catalog 11);
                remaining := [JS.slice 10 20 (sample_catalog 11)] |}).
  destruct (uncorrelated_answer_changes_nothing s r
              (answer [ItemObject (mkItem (Some "K") (Some "Other") (Some "K site")
                                          (Some ["z"]))])) as [H _].
  - reflexivity.
  - reflexivity.
  - intros it [H|[]]. injection H as <-. reflexivity.
  - cbv zeta. fold s. rewrite H. reflexivity.
Defined.

(** X11.  When several items of one answer correlate to the same entry, the
    last of them wins: the entry is committed with the fields of the last
    item that correlates to it. *)
Theorem later_item_wins
    (s : App) (r : Run) (before after : list ItemValue) (o : ItemFields) (e : BookmarkItem) :
  pending s = Some r ->
  hard_failure (answer (before ++ ItemObject o :: after)) = false ->
  find_original (batch r) (r_url o) = Some e ->
  In (id e) (map fst (updatedBookmarksMap r)) ->
  (forall it e', In (ItemObject it) after ->
                 find_original (batch r) (r_url it) = Some e' -> id e' <> id e) ->
  In (enrich e o)
     (bookmarks (step s (ServiceSettles (answer (before ++ ItemObject o :: after))))).
Proof.
  intros Hr Ho Hf Hk Hafter.
  destruct (step_settles_good s r _ Hr Ho) as [m [Hm ->]].
  rewrite bookmarks_next_batch. cbn [bookmarks].
  rewrite (merge_outcome_items _ _ _ Ho) in Hm. simpl items_of in Hm.
  rewrite merge_items_app in Hm.
  destruct (merge_items (batch r) (updatedBookmarksMap r) before) as [m1|] eqn:E1;
    [|discriminate].
  simpl in Hm. rewrite Hf in Hm.
  apply (In_Map_values m (id e)).
  apply (merge_items_persist (batch r) after (id e) (enrich e o) Hafter _ m Hm).
  apply Map_set_bound. eapply merge_items_keys_grow; eassumption.
Qed.

(** X11 on two entries and an answer that names url "A" twice. *)
Lemma later_item_wins_witness :
  let s := step (start (sample_catalog 2)) ClickProcess in
  In (enrich (mkBookmark "a" "Site" "A" None None None false 0)
             (mkItem (Some "A") (Some "Backend") (Some "second") (Some ["y"])))
     (bookmarks
        (step s (ServiceSettles
                   (answer [ItemObject (mkItem (Some "A") (Some "Frontend") (Some "first")
                                               (Some ["x"]));
                            ItemObject (mkItem (Some "A") (Some "Backend") (Some "second")
                                               (Some ["y"]))])))).
Proof.
  pose (s := step (start (sample_catalog 2)) ClickProcess).
  pose (r := {| updatedBookmarksMap := JS.Map_of (map (fun b => (id b, b)) (sample_catalog 2));
                batch := JS.slice 0 10 (sample_catalog 2);
                remaining := [] |}).
  apply (later_item_wins s r
           [ItemObject (mkItem (Some "A") (Some "Frontend") (Some "first") (Some ["x"]))]
           [] (mkItem (Some "A") (Some "Backend") (Some "second") (Some ["y"]))).
  - reflexivity.
  - reflexivity.
  - reflexivity.
  - simpl. tauto.
  - intros it e' [].
Defined.

Lemma find_in_front {A : Type} (p : A -> bool) (l1 l2 : list A) (x y : A) :
  In y l1 -> p y = true -> find p (l1 ++ l2) = Some x -> In x l1.
Proof.
  induction l1 as [|a l1 IH]; simpl; intros Hy Hp H; [contradiction|].
  destruct (p a) eqn:Ea.
  - injection H as <-. now left.
  - destruct Hy as [->|Hy]; [congruence|]. right. exact (IH Hy Hp H).
Qed.

Lemma NoDup_concat_member {A K : Type} (f : A -> K) (batches : list (list A)) (B : list A) :
  NoDup (map f (List.concat batches)) -> In B batches -> NoDup (map f B).
Proof.
  induction batches as [|A0 batches IH]; simpl; intros Hnd HB; [contradiction|].
  rewrite map_app in Hnd. apply NoDup_app_inv in Hnd. destruct Hnd as [H0 [H1 _]].
  destruct HB as [->|HB]; auto.
Qed.

Lemma shadowed_never_found (pre post : list BookmarkItem) (e1 e2 : BookmarkItem) :
  NoDup (map id (pre ++ e2 :: post)) -> In e1 pre -> url e1 = url e2 ->
  forall u, find_original (pre ++ e2 :: post) u <> Some e2.
Proof.
  intros Hnd H1 Eurl [u|]; simpl; [|discriminate]. intros Hf.
  pose proof (find_some _ _ Hf) as [_ Hu]. apply String.eqb_eq in Hu.
  assert (Hin : In e2 pre).
  { apply (find_in_front (fun b => url b =? u) pre (e2 :: post) e2 e1 H1); [|exact Hf].
    rewrite Eurl, Hu. apply String.eqb_refl. }
  rewrite map_app in Hnd. apply NoDup_app_inv in Hnd. destruct Hnd as [_ [_ Hdisj]].
  apply (Hdisj (id e2)); [now apply in_map|now left].
Qed.

Lemma filter_member_positive {A : Type} (p : A -> bool) (l : list A) (x : A) :
  In x l -> p x = true -> 0 < List.length (filter p l).
Proof.
  intros Hx Hp.
  assert (Hin : In x (filter p l)) by (apply filter_In; auto).
  destruct (filter p l); [contradiction|simpl; lia].
Qed.

(** X12.  Within a batch only the first entry with a given url can be
    correlated: an entry whose url repeats that of an earlier entry of its
    batch comes out of the run unchanged and unprocessed, even when every
    answer is accepted, so the run does not bring the count of unprocessed
    entries to 0. *)
Theorem shadowed_duplicate_stays_unprocessed
    (catalog : list BookmarkItem) (outcomes : list ServiceOutcome)
    (before after : list BookmarkItem) (e1 e2 : BookmarkItem) :
  NoDup (map id catalog) ->
  List.length outcomes = List.length (make_batches (unprocessed_of catalog)) ->
  Forall (fun o => hard_failure o = false) outcomes ->
  In (before ++ e2 :: after) (make_batches (unprocessed_of catalog)) ->
  In e1 before ->
  url e1 = url e2 ->
  let s := run_with catalog outcomes in
  In e2 (bookmarks s) /\ processed e2 = false /\ 0 < unprocessedCount (bookmarks s).
Proof.
  intros Hids Hlen Hgood HB H1 Eurl. cbv zeta.
  destruct (complete_run_state catalog outcomes Hlen Hgood) as [m' [Hm' ->]].
  cbn [bookmarks].
  assert (Hconcat : List.concat (make_batches (unprocessed_of catalog))
                    = unprocessed_of catalog).
  { unfold make_batches. rewrite batches_loop_concat by lia. reflexivity. }
  assert (Hsub : forall B e, In B (make_batches (unprocessed_of catalog)) -> In e B ->
                             In e catalog /\ processed e = false).
  { intros B e HB' He. pose proof (In_make_batches _ B e HB' He) as Hin.
    apply filter_In in Hin. destruct Hin as [Hin Hp].
    apply negb_true_iff in Hp. auto. }
  destruct (make_batches (unprocessed_of catalog)) as [|first others] eqn:Eb;
    [contradiction|].
  set (batches := first :: others) in *.
  set (m0 := JS.Map_of (map (fun b => (id b, b)) catalog)) in *.
  assert (Em0 : m0 = map (fun b => (id b, b)) catalog).
  { apply Map_of_distinct. rewrite map_map. exact Hids. }
  assert (Hk0 : map fst m0 = map id catalog) by (rewrite Em0; apply map_map).
  assert (Hnd : NoDup (map id (List.concat batches))).
  { rewrite Hconcat. apply distinct_keys_filter, Hids. }
  assert (Hkeys : forall B e, In B batches -> In e B -> In (id e) (map fst m0)).
  { intros B e HB' He. rewrite Hk0. apply in_map. apply (Hsub B e HB' He). }
  destruct (merge_batches_effect batches outcomes m0 m' Hlen Hnd Hkeys Hm')
    as [_ [_ [C _]]].
  assert (He2 : In e2 (before ++ e2 :: after)) by (apply in_or_app; right; now left).
  destruct (Hsub _ e2 HB He2) as [Hcat Hproc].
  destruct (combine_has_right _ outcomes _ (eq_sym Hlen) HB) as [o Ho].
  assert (Hin : In e2 (JS.Map_values m')).
  { destruct (C _ o e2 Ho He2) as [[it [_ [Hf _]]]|[_ Hv]].
    - rewrite Em0. apply in_map_iff. exists e2. auto.
    - exfalso. revert Hf. apply (shadowed_never_found before after e1); auto.
      apply (NoDup_concat_member id batches); assumption.
    - eapply In_Map_values, Hv. }
  split; [exact Hin|]. split; [exact Hproc|].
  unfold unprocessedCount. apply (filter_member_positive _ _ e2 Hin).
  now rewrite Hproc.
Qed.

(** X12 on a source that lists url "u" twice: both links are imported, and a
    run whose answer names "u" processes the first entry only. *)
Lemma shadowed_duplicate_stays_unprocessed_witness :
  let catalog := import [] [] [mkAnchor "One" "u"; mkAnchor "Two" "u"] sample_env in
  let s := run_with catalog
             [answer [ItemObject (mkItem (Some "u") (Some "Other") (Some "a site")
                                         (Some ["t"]))]] in
  map processed (bookmarks s) = [true; false] /\ 0 < unprocessedCount (bookmarks s).
Proof.
  cbv zeta. split; [reflexivity|].
  apply (shadowed_duplicate_stays_unprocessed
           (import [] [] [mkAnchor "One" "u"; mkAnchor "Two" "u"] sample_env)
           [answer [ItemObject (mkItem (Some "u") (Some "Other") (Some "a site") (Some ["t"]))]]
           [mkBookmark "a" "One" "u" None None None false 0] []
           (mkBookmark "a" "One" "u" None None None false 0)
           (mkBookmark "b" "Two" "u" None None None false 1)).
  - apply distinctb_NoDup. reflexivity.
  - reflexivity.
  - repeat constructor.
  - left. reflexivity.
  - left. reflexivity.
  - reflexivity.
Defined.

(** ** More on the views *)

Lemma string_app_assoc (a b c : string) :
  ((a ++ b) ++ c)%string = (a ++ (b ++ c))%string.
Proof. induction a as [|x a IH]; simpl; [reflexivity|now rewrite IH]. Qed.

Lemma includes_trans (s q2 q1 : string) :
  JS.includes s q2 = true -> JS.includes q2 q1 = true -> JS.includes s q1 = true.
Proof.
  rewrite !includes_app. intros [a [b ->]] [c [d ->]].
  exists (a ++ c)%string, (d ++ b)%string.
  now rewrite !string_app_assoc.
Qed.

Lemma sorted_categories_In (catalog : list BookmarkItem) (f : string) :
  In f (JS.sort (collect_categories catalog)) <-> category_present catalog f.
Proof.
  destruct (collect_categories_fold catalog []) as [_ Hin].
  fold (collect_categories catalog) in Hin. split.
  - intros H. apply (Permutation_in _ (sort_Permutation _)) in H.
    apply Hin in H. destruct H as [[]|H]. exact H.
  - intros H. apply (Permutation_in _ (Permutation_sym (sort_Permutation _))).
    apply Hin. now right.
Qed.

Lemma categories_In (catalog : list BookmarkItem) (f : string) :
  In f (categories catalog) <->
  f = "All" \/ category_present catalog f \/ f = "Uncategorized".
Proof.
  unfold categories. simpl. rewrite in_app_iff. simpl.
  rewrite (sorted_categories_In catalog f). intuition.
Qed.

Lemma filteredBookmarks_In
    (toLowerCase : string -> string)
    (catalog : list BookmarkItem) (f : string) (b : BookmarkItem) :
  toLowerCase "" = "" ->
  In b (filteredBookmarks toLowerCase catalog "" f)
  <-> In b catalog /\ matchesCategory f b = true.
Proof.
  intros Hempty.
  unfold filteredBookmarks. rewrite filter_In, andb_true_iff.
  unfold matchesSearch. cbv zeta. rewrite Hempty, includes_empty.
  simpl. tauto.
Qed.

(** X13.  Extending an ASCII search text can only narrow the view: when an
    ASCII query is contained, up to letter case, in a second ASCII query,
    every entry the second query shows under a facet is shown by the first,
    in the same order, whatever text the entries hold.  In particular two
    ASCII queries that differ in letter case only show the same entries. *)
Theorem longer_query_narrows
    (toLowerCase : string -> string)
    (catalog : list BookmarkItem) (shorter longer filterCategory : string) :
  ascii_exact toLowerCase ->
  is_ascii shorter = true ->
  is_ascii longer = true ->
  ci_contained shorter longer ->
  Subsequence (filteredBookmarks toLowerCase catalog longer filterCategory)
              (filteredBookmarks toLowerCase catalog shorter filterCategory).
Proof.
  intros Hlow Hshort Hlong Hq. apply includes_ci_contained in Hq.
  rewrite <- (Hlow shorter Hshort), <- (Hlow longer Hlong) in Hq.
  apply filter_weaker_Subsequence. intros b Hb.
  apply andb_true_iff in Hb. destruct Hb as [Hs Hc]. rewrite Hc, andb_true_r.
  unfold matchesSearch in *. cbv zeta in *.
  apply orb_true_iff in Hs. destruct Hs as [Hs|Hs];
    [apply orb_true_iff in Hs; destruct Hs as [Hs|Hs]|].
  - rewrite (includes_trans _ _ _ Hs Hq). reflexivity.
  - destruct (description b) as [d|]; [|discriminate].
    rewrite (includes_trans _ _ _ Hs Hq). apply orb_true_iff. left. apply orb_true_r.
  - destruct (tags b) as [ts|]; [|discriminate].
    apply orb_true_iff. right. apply existsb_exists. apply existsb_exists in Hs.
    destruct Hs as [t [Ht Hs]]. exists t. split; [exact Ht|].
    exact (includes_trans _ _ _ Hs Hq).
Qed.

(** X13 on the query "React D", which extends "react", over a catalog with
    a title beyond ASCII, lowercased by a function that is [ascii_lower] on
    ASCII text. *)
Lemma longer_query_narrows_witness :
  let catalog := [sample_entry "1" "React Docs" "u1" None;
                  sample_entry "2" "ΟΔΟΣ" "u2" None;
                  sample_entry "3" "Preact" "u3" None] in
  (ascii_exact final_sigma_lower /\ is_ascii "react" = true /\
   is_ascii "React D" = true /\ ci_contained "react" "React D") /\
  Subsequence
    (filteredBookmarks final_sigma_lower catalog "React D" "All")
    (filteredBookmarks final_sigma_lower catalog "react" "All").
Proof.
  assert (Hq : ci_contained "react" "React D").
  { exists "", "React", " D". split; [reflexivity|].
    apply ascii_lower_same. reflexivity. }
  cbv zeta.
  split; [split; [exact final_sigma_lower_exact|];
          split; [reflexivity|]; split; [reflexivity|exact Hq]|].
  apply longer_query_narrows;
    [exact final_sigma_lower_exact|reflexivity|reflexivity|exact Hq].
Defined.

(** X14.  With no search text the facet ["All"] shows the whole catalog.
    The category a card is drawn with is always one of the facets of the
    side bar; unless that category is the string ["Uncategorized"] itself,
    the entry is listed under exactly two facets: ["All"] and the one of its
    card.  An entry whose category is the string ["Uncategorized"] is listed
    under ["All"] only.  Of [toLowerCase] only its value at the empty text
    is used. *)
Theorem card_category_is_a_facet
    (toLowerCase : string -> string) (catalog : list BookmarkItem) (b : BookmarkItem) :
  toLowerCase "" = "" ->
  In b catalog ->
  filteredBookmarks toLowerCase catalog "" "All" = catalog /\
  In (cardCategory b) (categories catalog) /\
  (category b <> Some "Uncategorized" ->
   forall f, In f (categories catalog) ->
             (In b (filteredBookmarks toLowerCase catalog "" f)
              <-> f = "All" \/ f = cardCategory b)) /\
  (category b = Some "Uncategorized" ->
   forall f, In b (filteredBookmarks toLowerCase catalog "" f) <-> f = "All").
Proof.
  intros Hempty Hb. split; [|split; [|split]].
  - apply filter_all. intros x _. unfold matchesSearch. cbv zeta. rewrite Hempty.
    rewrite includes_empty. reflexivity.
  - apply categories_In. unfold cardCategory, category_present.
    destruct (category b) as [c|] eqn:Ec; [|tauto]. simpl.
    destruct (String.eqb_spec c ""); simpl; [tauto|]. right. left. eauto.
  - intros Hc f Hf. rewrite (filteredBookmarks_In _ _ _ _ Hempty).
    unfold matchesCategory, cardCategory.
    destruct (String.eqb_spec f "All") as [->|HA]; [tauto|].
    destruct (String.eqb_spec f "Uncategorized") as [->|HU].
    + destruct (category b) as [c|]; simpl; [|tauto].
      destruct (String.eqb_spec c "") as [->|Hne]; simpl; [tauto|].
      split; [intros [_ H]; discriminate|]. intros [H|H]; [discriminate|].
      subst c. exfalso. now apply Hc.
    + apply categories_In in Hf. destruct Hf as [->|[[Hne _]| ->]]; try contradiction.
      destruct (category b) as [c|]; simpl.
      * destruct (String.eqb_spec c "") as [->|Hc0]; simpl.
        -- destruct f as [|ch f']; [congruence|].
           split; [intros [_ H]; discriminate|]. intros [H|H]; contradiction.
        -- split.
           ++ intros [_ H]. apply String.eqb_eq in H. now right.
           ++ intros [H|H]; [contradiction|]. subst f.
              split; [exact Hb|apply String.eqb_refl].
      * split; [intros [_ H]; discriminate|]. intros [H|H]; contradiction.
  - intros Hc f. rewrite (filteredBookmarks_In _ _ _ _ Hempty).
    unfold matchesCategory. rewrite Hc.
    destruct (String.eqb_spec f "All") as [->|HA]; [tauto|].
    destruct (String.eqb_spec f "Uncategorized") as [->|HU].
    + simpl. split; [intros [_ H]; discriminate|contradiction].
    + destruct (String.eqb_spec "Uncategorized" f) as [E|_];
        [symmetry in E; contradiction|].
      split; [intros [_ H]; discriminate|contradiction].
Qed.

(** X14 on a three-entry catalog and its entry of category "Backend". *)
Lemma card_category_is_a_facet_witness :
  let catalog := [sample_entry "1" "a" "u1" (Some "Frontend");
                  sample_entry "2" "b" "u2" (Some "Backend");
                  sample_entry "3" "c" "u3" None] in
  In "Backend" (categories catalog) /\
  (In (sample_entry "2" "b" "u2" (Some "Backend"))
      (filteredBookmarks ascii_lower catalog "" "Frontend") <-> False).
Proof.
  destruct (card_category_is_a_facet
              ascii_lower
              [sample_entry "1" "a" "u1" (Some "Frontend");
               sample_entry "2" "b" "u2" (Some "Backend");
               sample_entry "3" "c" "u3" None]
              (sample_entry "2" "b" "u2" (Some "Backend")))
    as [_ [H1 [H2 _]]].
  - reflexivity.
  - simpl. tauto.
  - split; [exact H1|].
    rewrite (H2 ltac:(discriminate) "Frontend" ltac:(simpl; tauto)).
    simpl. split; [intros [H|H]; discriminate|contradiction].
Defined.

(** X15.  The facet list has no repeated entry, as its use as list of keys
    needs, exactly when no entry of the catalog has the category ["All"] or
    ["Uncategorized"]; its length is the number of distinct non-empty
    categories plus two. *)
Theorem facets_distinct_iff (catalog : list BookmarkItem) :
  (NoDup (categories catalog) <->
   ~ category_present catalog "All" /\ ~ category_present catalog "Uncategorized") /\
  List.length (categories catalog) = List.length (collect_categories catalog) + 2.
Proof.
  destruct (collect_categories_fold catalog []) as [Hnd Hin].
  fold (collect_categories catalog) in Hnd, Hin.
  pose proof (sorted_categories_In catalog) as Hs.
  assert (Hsd : NoDup (JS.sort (collect_categories catalog))).
  { eapply Permutation_NoDup; [symmetry; apply sort_Permutation|].
    apply Hnd. constructor. }
  unfold categories. split.
  - split.
    + intros H. inversion H as [|? ? HA Hrest]; subst.
      apply NoDup_app_inv in Hrest. destruct Hrest as [_ [_ Hdisj]]. split.
      * intros Hp. apply HA. apply in_or_app. left. apply Hs, Hp.
      * intros Hp. apply (Hdisj "Uncategorized"); [apply Hs, Hp|now left].
    + intros [HA HU]. constructor.
      * rewrite in_app_iff. simpl. intros [H|[H|[]]]; [|discriminate].
        apply HA, Hs, H.
      * apply NoDup_app; [exact Hsd|constructor; [tauto|constructor]|].
        intros f Hf [<-|[]]. apply HU, Hs, Hf.
  - simpl. rewrite length_app. simpl.
    rewrite (Permutation_length (sort_Permutation (collect_categories catalog))). lia.
Qed.

(** X16.  A facet that is no longer in the facet list shows nothing: when
    the last entry of the selected category is deleted the selection stays,
    and its view is empty whatever the search text. *)
Theorem vanished_facet_shows_nothing
    (toLowerCase : string -> string)
    (catalog : list BookmarkItem) (searchQuery filterCategory : string) :
  filterCategory <> "" ->
  ~ In filterCategory (categories catalog) ->
  filteredBookmarks toLowerCase catalog searchQuery filterCategory = [].
Proof.
  intros Hne Hout. apply filter_none. intros b Hb.
  apply andb_false_iff. right. unfold matchesCategory.
  destruct (String.eqb_spec filterCategory "All") as [->|HA].
  { exfalso. apply Hout, categories_In. tauto. }
  destruct (String.eqb_spec filterCategory "Uncategorized") as [->|HU].
  { exfalso. apply Hout, categories_In. tauto. }
  destruct (category b) as [c|] eqn:Ec; [|reflexivity].
  destruct (String.eqb_spec c filterCategory) as [->|]; [|reflexivity].
  exfalso. apply Hout, categories_In. right. left. split; [exact Hne|eauto].
Qed.

(** X16 on a catalog whose only "Backend" entry has been deleted. *)
Lemma vanished_facet_shows_nothing_witness :
  filteredBookmarks ascii_lower
    (deleteBookmark "2" [sample_entry "1" "a" "u1" (Some "Frontend");
                         sample_entry "2" "b" "u2" (Some "Backend")])
    "" "Backend" = [].
Proof.
  apply vanished_facet_shows_nothing.
  - discriminate.
  - simpl. intros [H|[H|[H|[]]]]; discriminate.
Defined.

(** ** Edits made during a run *)

Lemma edits_keep_run (edits : list Event) :
  forall s, Forall is_edit edits ->
            exists current,
              exec s edits
              = {| bookmarks := current; isProcessing := isProcessing s;
                   pending := pending s; effects := effects s |}.
Proof.
  unfold exec. induction edits as [|e edits IH]; intros s H; simpl.
  - exists (bookmarks s). destruct s; reflexivity.
  - inversion H as [|? ? He Hrest]; subst.
    destruct e as [seen links env|i| |o]; try contradiction.
    + destruct (IH (step s (Import seen links env)) Hrest) as [current ->].
      exists current. reflexivity.
    + destruct (IH (step s (Delete i)) Hrest) as [current ->].
      exists current. reflexivity.
Qed.

(** X17.  Imports and deletes made while a service call is awaited do not
    last: over a catalog with distinct ids and some unprocessed entry, the
    commit that follows the next accepted answer rewrites the catalog with
    exactly the entries the run started from, in their order and with their
    id, title, url and addedAt.  Entries imported in between are dropped and
    entries deleted in between are back. *)
Theorem edits_during_run_are_overwritten
    (catalog : list BookmarkItem) (edits : list Event) (o : ServiceOutcome) :
  NoDup (map id catalog) ->
  0 < unprocessedCount catalog ->
  Forall is_edit edits ->
  hard_failure o = false ->
  let s := exec (start catalog) (ClickProcess :: edits ++ [ServiceSettles o]) in
  map identity (bookmarks s) = map identity catalog /\ alerts s = 0.
Proof.
  intros Hids Hpos Hedits Ho. cbv zeta.
  destruct (make_batches (unprocessed_of catalog)) as [|first others] eqn:Eb.
  { exfalso. unfold unprocessedCount in Hpos.
    pose proof (batches_loop_concat (List.length (unprocessed_of catalog)) 0
                  (unprocessed_of catalog) (Nat.le_add_r _ _)) as Hc.
    fold (make_batches (unprocessed_of catalog)) in Hc. rewrite Eb in Hc.
    unfold unprocessed_of in Hc. simpl in Hc. rewrite <- Hc in Hpos.
    simpl in Hpos. lia. }
  change (exec (start catalog) (ClickProcess :: edits ++ [ServiceSettles o]))
    with (exec (step (start catalog) ClickProcess) (edits ++ [ServiceSettles o])).
  rewrite exec_app, exec_one.
  pose proof (keeps_click catalog Hids) as Hkeep.
  pose proof (click_starts catalog first others Eb) as Hclick.
  set (s0 := step (start catalog) ClickProcess) in *.
  assert (Hr : pending s0
               = Some {| updatedBookmarksMap :=
                           JS.Map_of (map (fun b => (id b, b)) catalog);
                         batch := first; remaining := others |})
    by (rewrite Hclick; reflexivity).
  destruct (edits_keep_run edits s0 Hedits) as [current ->].
  split.
  - rewrite (commit_ignores_catalog s0 _ o current Hr Ho).
    apply (keeps_settle catalog Hids s0 o Hkeep).
  - destruct (step_settles_good
                {| bookmarks := current; isProcessing := isProcessing s0;
                   pending := pending s0; effects := effects s0 |} _ o Hr Ho)
      as [m [_ ->]].
    rewrite (proj2 (calls_next_batch _ _ _)). rewrite Hclick. reflexivity.
Qed.

(** X17 on two entries: one is deleted and a third is imported while the
    call is awaited. *)
Lemma edits_during_run_are_overwritten_witness :
  map id
    (bookmarks
       (exec (start (sample_catalog 2))
          [ClickProcess; Delete "a"; Import (deleteBookmark "a" (sample_catalog 2)) (sample_links 3) sample_env;
           ServiceSettles (answer [])]))
  = ["a"; "b"].
Proof.
  destruct (edits_during_run_are_overwritten (sample_catalog 2)
              [Delete "a"; Import (deleteBookmark "a" (sample_catalog 2)) (sample_links 3) sample_env] (answer [])) as [H _].
  - apply distinctb_NoDup. reflexivity.
  - unfold unprocessedCount. simpl. lia.
  - repeat constructor.
  - reflexivity.
  - apply (f_equal (map (fun t => fst (fst (fst t))))) in H.
    rewrite !map_map in H. exact H.
Defined.
